(** * llm-newsletter-kit-core: the resilient pipeline core, embedded in Rocq

    The development follows the TypeScript sources:
    - [Fetcher]      : src/generate-newsletter/utils/get-html-from-url.ts
    - [Crawl]        : src/generate-newsletter/chains/crawling.chain.ts
    - [Insights]     : src/generate-newsletter/chains/article-insights.chain.ts
    - [Orchestrator] : src/generate-newsletter.ts and src/logging/logging-executor.ts
    - [Analysis]     : src/generate-newsletter/chains/analysis.chain.ts
    - [ContentGenerate] :
        src/generate-newsletter/chains/content-generate.chain.ts
    - [GenerateNewsletterQuery] :
        src/generate-newsletter/llm-queries/generate-newsletter.llm.ts

    Asynchronous functions are embedded as functions that return the value
    the promise settles with, together with the list of observable events
    (network calls, sleeps, collaborator calls) in the order they are
    issued.  Everything outside the repository (the network, the clock,
    [Math.random], [toLowerCase], the language-model calls, the storage
    collaborators) is a [Variable] of the enclosing [Section]; the batch
    of LangChain's sequences is embedded in [Crawl], with the retry policy
    of p-retry as a parameter. *)

From Stdlib Require Import ZArith QArith Qminmax Lqa Lia String Ascii.
From stdpp Require Import base option list strings pretty gmap.
From Equations Require Import Equations.

(** ** Shared JavaScript vocabulary *)

(** A thrown value: [null], an [Error] instance with its [message] (the
    instances of [TypeError] apart, which the engine raises and which the
    retry of a batch tells from the others), or any other value,
    represented by what [String(value)] gives. *)
Inductive jsvalue :=
  | JsNull
  | JsError (message : string)
  | JsTypeError (message : string)
  | JsOther (text : string).

(** [error instanceof Error] *)
Definition instanceof_Error (e : jsvalue) : bool :=
  match e with
  | JsError _ | JsTypeError _ => true
  | JsNull | JsOther _ => false
  end.

(** [error instanceof Error ? error.message : String(error)] *)
Definition message_of (e : jsvalue) : string :=
  match e with
  | JsNull => "null"
  | JsError m | JsTypeError m => m
  | JsOther t => t
  end.

(** [hay.includes(needle)] *)
Fixpoint includes (needle hay : string) : bool :=
  String.prefix needle hay
  || match hay with
     | EmptyString => false
     | String _ r => includes needle r
     end.

(** ** The resilient fetcher *)
Module Fetcher.

(** JavaScript numbers: the finite ones are idealised as rationals (sums and
    products are exact), which is all [clamp], [Math.max] and the
    comparisons of this file observe. *)
Inductive jsnum := NaN | NegInf | PosInf | Fin (q : Q).

Definition num_leb (a b : jsnum) : bool :=
  match a, b with
  | NaN, _ | _, NaN => false
  | NegInf, _ => true
  | _, PosInf => true
  | Fin p, Fin q => Qle_bool p q
  | _, _ => false
  end.

Definition Math_min (a b : jsnum) : jsnum :=
  match a, b with
  | NaN, _ | _, NaN => NaN
  | _, _ => if num_leb a b then a else b
  end.

Definition Math_max (a b : jsnum) : jsnum :=
  match a, b with
  | NaN, _ | _, NaN => NaN
  | _, _ => if num_leb a b then b else a
  end.

Definition num_mul (a b : jsnum) : jsnum :=
  match a, b with
  | NaN, _ | _, NaN => NaN
  | Fin p, Fin q => Fin (p * q)
  | Fin p, PosInf | PosInf, Fin p =>
      match (p ?= 0)%Q with Gt => PosInf | Lt => NegInf | Eq => NaN end
  | Fin p, NegInf | NegInf, Fin p =>
      match (p ?= 0)%Q with Gt => NegInf | Lt => PosInf | Eq => NaN end
  | PosInf, PosInf | NegInf, NegInf => PosInf
  | PosInf, NegInf | NegInf, PosInf => NegInf
  end.

Definition num_sub (a b : jsnum) : jsnum :=
  match a, b with
  | NaN, _ | _, NaN => NaN
  | Fin p, Fin q => Fin (p - q)
  | PosInf, PosInf | NegInf, NegInf => NaN
  | PosInf, _ | _, NegInf => PosInf
  | NegInf, _ | _, PosInf => NegInf
  end.

Definition Number_isNaN (n : jsnum) : bool :=
  match n with NaN => true | _ => false end.

Definition Number_isFinite (n : jsnum) : bool :=
  match n with Fin _ => true | _ => false end.

(** [n > 0] *)
Definition num_pos (n : jsnum) : bool :=
  match n with
  | PosInf => true
  | Fin q => negb (Qle_bool q 0)
  | _ => false
  end.

(** [const clamp = (n, min, max) => Math.max(min, Math.min(max, n))] *)
Definition clamp (n min max : jsnum) : jsnum :=
  Math_max min (Math_min max n).

Definition maxRetries : nat := 5.
Definition baseTimeoutMs : Q := 10000.

(** [status && p(status)] for [status : number | null] *)
Definition status_and (status : option Z) (p : Z -> bool) : bool :=
  match status with
  | Some s => negb (s =? 0)%Z && p s
  | None => false
  end.

Section Classify.
(** [String.prototype.toLowerCase], a built-in like [Number] below: the
    Unicode lower-casing of the engine. *)
Variable toLowerCase : string -> string.

Definition shouldRetry (status : option Z) (error : jsvalue) : bool :=
  if decide (status = Some 429%Z) then true
  else if status_and status (fun s => (500 <=? s)%Z) then true
  else if status_and status (fun s => (400 <=? s)%Z && (s <? 500)%Z) then false
  else if instanceof_Error error then
         let msg := toLowerCase (message_of error) in
         includes "aborted" msg || includes "timeout" msg
         || includes "network" msg || includes "fetch" msg
       else false.

End Classify.

(** The response of one [fetch] call, as far as the fetcher reads it. *)
Record response := Response {
  status : Z;
  retry_after : option string;     (* headers.get('retry-after') *)
  content_type : option string;    (* headers.get('content-type') *)
  text : jsvalue + string          (* await response.text() *)
}.

(** [response.ok] *)
Definition ok (r : response) : bool :=
  (200 <=? status r)%Z && (status r <=? 299)%Z.

Inductive fetch_result :=
  | Resolved (r : response)
  | Rejected (e : jsvalue).

(** An [Error] held in [lastError]. *)
Inductive js_error :=
  | RequestFailed (status : Z) (url : string)
      (* new Error(`Request failed (status=${status}) - ${url}`) *)
  | Caught (message : string).
      (* the caught Error, or new Error(String(error)) *)

Inductive event :=
  | EvFetch (attempt : nat) (timeoutMs : jsnum)
  | EvDebug (name : string) (attempt : nat)
  | EvError (name : string) (attempt : nat)
  | EvSleep (ms : jsnum).

Inductive outcome :=
  | Return (html : string)
  | Throw (e : option js_error).

(** How one iteration of the [for] loop ends. *)
Inductive step :=
  | Continue (setLastError : option js_error)
  | Break (lastError : js_error)
  | Done (o : outcome).

Section GetHtml.
(** Built-ins and the environment of one call. *)
Variable toLowerCase : string -> string.    (* s.toLowerCase() *)
Variable Number : string -> jsnum.          (* Number(header) *)
Variable Date_getTime : string -> jsnum.    (* new Date(header).getTime() *)
Variable Date_now : nat -> Q.               (* Date.now() read in attempt n *)
Variable Math_random : nat -> Q.            (* the draw of attempt n's delay *)
Variable fetch : nat -> fetch_result.       (* what attempt n's fetch gives *)
Variable url : string.

Definition parseRetryAfter (now : Q) (header : option string)
  : option jsnum :=
  match header with
  | None | Some EmptyString => None
  | Some h =>
      let seconds := Number h in
      if negb (Number_isNaN seconds)
      then Some (clamp (num_mul seconds (Fin 1000)) (Fin 0) (Fin 60000))
      else
        let diff := num_sub (Date_getTime h) (Fin now) in
        if Number_isFinite diff && num_pos diff
        then Some (clamp diff (Fin 0) (Fin 60000))
        else None
  end.

(** [Math.pow(2, attempt - 1) * 1000 + Math.random() * 1000] *)
Definition backoff (attempt : nat) : Q :=
  2 ^ Z.of_nat (attempt - 1) * 1000 + Math_random attempt * 1000.

(** [clamp(baseTimeoutMs * Math.pow(1.3, attempt - 1), 5_000, 30_000)],
    with the power taken exactly; the double of the engine differs from it
    in the last places (28561.000000000004 for the fifth attempt). *)
Definition timeoutMs (attempt : nat) : jsnum :=
  clamp (Fin (baseTimeoutMs * (13 # 10) ^ Z.of_nat (attempt - 1)))
        (Fin 5000) (Fin 30000).

(** The [catch (error)] block. *)
Definition on_catch (attempt : nat) (error : jsvalue) (before : list event)
  : step * list event :=
  let canRetry := shouldRetry toLowerCase None error in
  let lastError := Caught (message_of error) in
  if negb canRetry || (attempt =? maxRetries)%nat
  then (Done (Throw (Some lastError)),
        before ++ [EvDebug "fetch.catch" attempt;
                   EvError "fetch.failed" attempt])
  else (Continue (Some lastError),
        before ++ [EvDebug "fetch.catch" attempt;
                   EvSleep (Fin (backoff attempt))]).

(** The body of [for (let attempt = 1; attempt <= maxRetries; attempt++)]. *)
Definition attempt_body (attempt : nat) : step * list event :=
  let started := [EvFetch attempt (timeoutMs attempt)] in
  match fetch attempt with
  | Rejected e => on_catch attempt e started
  | Resolved r =>
      if negb (ok r) then
        let retryAfterMs :=
          parseRetryAfter (Date_now attempt) (retry_after r) in
        let canRetry := shouldRetry toLowerCase (Some (status r)) JsNull in
        if negb canRetry || (attempt =? maxRetries)%nat
        then (Break (RequestFailed (status r) url),
              started ++ [EvDebug "fetch.error" attempt])
        else
          let delay :=
            match retryAfterMs with
            | Some ra => Math_max ra (Fin (backoff attempt))
            | None => Fin (backoff attempt)
            end in
          (Continue None,
           started ++ [EvDebug "fetch.error" attempt; EvSleep delay])
      else
        let contentType := default EmptyString (content_type r) in
        let noted :=
          if negb (includes "text/html" (toLowerCase contentType))
          then started ++ [EvDebug "fetch.nonHtml" attempt]
          else started in
        match text r with
        | inl e => on_catch attempt e noted
        | inr html =>
            (Done (Return html),
             noted ++ [EvDebug "fetch.success" attempt;
                       EvSleep (Fin (Math_random attempt * 500 + 250))])
        end
  end.

(** The loop, with [n] the number of iterations left
    ([n = maxRetries + 1 - attempt]); after the loop, [throw lastError]. *)
Fixpoint attempts (n attempt : nat) (lastError : option js_error)
  : outcome * list event :=
  match n with
  | O => (Throw lastError, [])
  | S n' =>
      let '(s, evs) := attempt_body attempt in
      match s with
      | Continue upd =>
          let lastError' :=
            match upd with Some e => Some e | None => lastError end in
          let '(o, rest) := attempts n' (S attempt) lastError' in
          (o, evs ++ rest)
      | Break e => (Throw (Some e), evs)
      | Done o => (o, evs)
      end
  end.

Definition getHtmlFromUrl : outcome * list event :=
  attempts maxRetries 1 None.

End GetHtml.

Definition is_fetch (e : event) : bool :=
  match e with EvFetch _ _ => true | _ => false end.

(** Number of [fetch] calls in a trace. *)
Definition fetches (evs : list event) : nat :=
  length (filter (fun e => is_fetch e = true) evs).

(** The sleeps of a trace, in order. *)
Definition sleeps (evs : list event) : list jsnum :=
  omap (fun e => match e with EvSleep ms => Some ms | _ => None end) evs.

Definition is_continue (s : step) : bool :=
  match s with Continue _ => true | _ => false end.

(** The settled value that a non-continuing iteration leaves the call with. *)
Definition ends_with (s : step) (o : outcome) : Prop :=
  match s with
  | Continue _ => False
  | Break e => o = Throw (Some e)
  | Done o' => o = o'
  end.

Section Words.
Variable toLowerCase : string -> string.

(** The words of the retry rule as the specification lists them. *)
Definition spec_retry_words (message : string) : bool :=
  let msg := toLowerCase message in
  includes "abort" msg || includes "timeout" msg
  || includes "network" msg || includes "fetch" msg.

(** The words of the retry rule as [shouldRetry] tests them. *)
Definition retry_words (message : string) : bool :=
  let msg := toLowerCase message in
  includes "aborted" msg || includes "timeout" msg
  || includes "network" msg || includes "fetch" msg.

(** A thrown value that [shouldRetry] classifies as transient: an [Error]
    whose lower-cased message has one of the words. *)
Definition transient (e : jsvalue) : bool :=
  instanceof_Error e && retry_words (message_of e).

End Words.

(** The value that the [try] block of an attempt throws, if any: the
    rejection of [fetch], or that of [response.text()]. *)
Definition thrown_in (f : fetch_result) : option jsvalue :=
  match f with
  | Rejected e => Some e
  | Resolved r =>
      if ok r then match text r with inl e => Some e | inr _ => None end
      else None
  end.

(** A concrete environment: [Number] reads "2", [Date] reads one HTTP date,
    the clock stands at 1000 and [Math.random] gives 0; [toLowerCase] is
    given on the strings of ASCII characters, where it turns the letters A
    to Z into a to z and keeps every other character. *)
Definition lower_ascii (c : ascii) : ascii :=
  let n := nat_of_ascii c in
  if (65 <=? n)%nat && (n <=? 90)%nat then ascii_of_nat (n + 32) else c.

Fixpoint demo_toLowerCase (s : string) : string :=
  match s with
  | EmptyString => EmptyString
  | String c r => String (lower_ascii c) (demo_toLowerCase r)
  end.

Definition demo_Number (s : string) : jsnum :=
  if String.eqb s "2" then Fin 2 else NaN.

Definition demo_getTime (s : string) : jsnum :=
  if String.eqb s "Wed, 21 Oct 2015 07:28:00 GMT" then Fin 1445412480000
  else NaN.

Definition demo_now (attempt : nat) : Q := 1000.
Definition demo_random (attempt : nat) : Q := 0.

Definition demo_response (st : Z) (ra : option string) : fetch_result :=
  Resolved (Response st ra (Some "text/html") (inr "<html/>")).

(** 500, then a network error, then 404. *)
Definition demo_fetch_404 (k : nat) : fetch_result :=
  match k with
  | 1 => demo_response 500 None
  | 2 => Rejected (JsError "Network error")
  | _ => demo_response 404 None
  end.

(** 429 with [Retry-After: 2], then 200. *)
Definition demo_fetch_429 (k : nat) : fetch_result :=
  match k with
  | 1 => demo_response 429 (Some "2")
  | _ => demo_response 200 None
  end.

Definition is_failed (e : event) : bool :=
  match e with EvError _ _ => true | _ => false end.

(** Number of [logger.error] entries in a trace. *)
Definition failures (evs : list event) : nat :=
  length (List.filter is_failed evs).

(** A sleep that is finite and lasts between 250 ms and one minute. *)
Definition bounded_sleep (d : jsnum) : Prop :=
  exists q, d = Fin q /\ (250 <= q <= 60000)%Q.

(** Three more servers: one that always answers 503, one that answers
    JSON, and one that answers 304. *)
Definition demo_fetch_503 (k : nat) : fetch_result := demo_response 503 None.

Definition demo_fetch_json (k : nat) : fetch_result :=
  Resolved (Response 200 None (Some "application/json") (inr "{}")).

Definition demo_fetch_304 (k : nat) : fetch_result := demo_response 304 None.

End Fetcher.

(** ** Asynchronous code with a log of events

    A computation settles with a value or with a thrown value, and leaves
    the events it caused, in order. *)

Inductive log_entry :=
  | LogMsg (level : string) (event : string)   (* logger[level]({event, ...}) *)
  | LogRaw (err : jsvalue).                    (* logger.error(err) *)

(** The injected [AppLogger], seen as a way to record an entry. *)
Class Logger (Ev : Type) := log_event : log_entry -> Ev.

Definition M (Ev A : Type) : Type := (jsvalue + A) * list Ev.

Section Effects.
Context {Ev : Type}.

Definition ret {A} (a : A) : M Ev A := (inr a, []).
Definition throw {A} (e : jsvalue) : M Ev A := (inl e, []).
Definition tell (evs : list Ev) : M Ev unit := (inr tt, evs).

Definition bind {A B} (m : M Ev A) (f : A -> M Ev B) : M Ev B :=
  match m with
  | (inl e, t) => (inl e, t)
  | (inr a, t) => let '(r, t') := f a in (r, t ++ t')
  end.

(** An external call: the event of the call, then what it settles with. *)
Definition call {A} (ev : Ev) (r : jsvalue + A) : M Ev A := (r, [ev]).

(** [try { m } catch (e) { h e }] *)
Definition try_catch {A} (m : M Ev A) (h : jsvalue -> M Ev A) : M Ev A :=
  match m with
  | (inl e, t) => let '(r, t') := h e in (r, t ++ t')
  | (inr a, t) => (inr a, t)
  end.

(** [try { m } finally { fin }]: [fin] runs on both exits; if it throws,
    its error replaces the outcome of [m]. *)
Definition try_finally {A} (m : M Ev A) (fin : M Ev unit) : M Ev A :=
  let '(r, t) := m in
  let '(rf, tf) := fin in
  (match rf with inl e => inl e | inr _ => r end, t ++ tf).

(** [Promise.all(ms)]: every promise has been started; the result is the
    list of values, in the order of [ms], unless one rejects.  The events
    of the promises are listed promise by promise, and of several
    rejections the first in the order of [ms] is taken, where the engine
    takes the first in time. *)
Fixpoint Promise_all {A} (ms : list (M Ev A)) : M Ev (list A) :=
  match ms with
  | [] => (inr [], [])
  | (r, t) :: rest =>
      let '(rs, ts) := Promise_all rest in
      (match r, rs with
       | inl e, _ => inl e
       | inr _, inl e => inl e
       | inr a, inr l => inr (a :: l)
       end, t ++ ts)
  end.

Definition result {A} (m : M Ev A) : jsvalue + A := fst m.
Definition trace {A} (m : M Ev A) : list Ev := snd m.

(** [LoggingExecutor.executeWithLogging(config, fn)], as far as the events
    of the entries go: their fields ([taskId], [durationMs], [startFields]
    and what [config.doneFields(result)] adds) are left out.  [doneFields]
    runs inside the [try], after [fn]; the callers in this repository pass
    no builder, or one that builds an object from the result or from its
    [length] or [title], which returns for every result of the declared
    type. *)
Definition executeWithLogging `{Logger Ev} {A}
    (event : string) (level : string) (fn : M Ev A) : M Ev A :=
  bind (tell [log_event (LogMsg level (event ++ ".start"))]) (fun _ =>
  try_catch
    (bind fn (fun result =>
     bind (tell [log_event (LogMsg level (event ++ ".done"))]) (fun _ =>
     ret result)))
    (fun err =>
     bind (tell [log_event (LogMsg level (event ++ ".error"));
                 log_event (LogRaw err)]) (fun _ =>
     throw err))).

End Effects.

Notation "'let*' x ':=' m 'in' k" := (bind m (fun x => k))
  (at level 10, x name, m at level 100, k at level 200).

(** ** The crawl pipeline *)
Module Crawl.

(** The values held by the fields of parsed records. *)
Inductive value :=
  | VUndef
  | VNull
  | VBool (b : bool)
  | VNum (n : Z)
  | VStr (s : string).

#[global] Instance value_eq_dec : EqDecision value.
Proof. solve_decision. Defined.

(** A parsed record: a JavaScript object with string keys. *)
Abbreviation obj := (gmap string value).

(** [o.k] *)
Definition get (o : obj) (k : string) : value := default VUndef (o !! k).

(** [omit(o, [k])] *)
Definition omit (o : obj) (k : string) : obj := delete k o.

(** [{ ...a, ...b }]: the keys of [b] win. *)
Definition spread (a b : obj) : obj := b ∪ a.

(** [new Map(entries)] and [map.get(k)]: of several entries with one key,
    the last one stays. *)
Fixpoint Map_get {V} (k : value) (entries : list (value * V)) : option V :=
  match entries with
  | [] => None
  | (k', v) :: rest =>
      match Map_get k rest with
      | Some v' => Some v'
      | None => if decide (k' = k) then Some v else None
      end
  end.

(** [{ pipelineId: id, ...detail }]: a [pipelineId] field of [detail]
    itself would win. *)
Definition with_pipelineId (id : value) (detail : obj) : obj :=
  spread {["pipelineId" := id]} detail.

(** [new Set(xs).has(x)] *)
Definition Set_has (x : value) (xs : list value) : bool :=
  bool_decide (x ∈ xs).

Record HtmlWithPipelineId := {
  pipelineId : value;
  html : string
}.

Record CrawlingTarget := {
  name : option string;
  url : string;
  parseList : string -> jsvalue + list obj;
  parseDetail : string -> jsvalue + obj
}.

Record CrawlingTargetGroup := {
  group_name : string;
  targets : list CrawlingTarget
}.

Inductive event :=
  | EvLog (l : log_entry)
  | EvFetchList (url : string)            (* getHtmlFromUrl(logger, target.url) *)
  | EvParseList (html : string)           (* target.parseList(listPageHtml) *)
  | EvFetchExisting (urls : list value)   (* provider.fetchExistingArticlesByUrls *)
  | EvFetchDetail (url : value)           (* getHtmlFromUrl(logger, data.detailUrl) *)
  | EvParseDetail (html : string)         (* target.parseDetail(html) *)
  | EvSave (articles : list obj).         (* provider.saveCrawledArticles *)

#[global] Instance crawl_logger : Logger event := EvLog.

(** What the collaborators answer during one run of a target's pipeline. *)
Record provider := {
  getHtmlFromUrl : value -> jsvalue + string;
  randomUUID : nat -> string;             (* the n-th identifier drawn *)
  fetchExistingArticlesByUrls : list value -> jsvalue + list obj;
  saveCrawledArticles : list obj -> jsvalue + Z
}.

(** The error of [mergeParsedArticles]:
    [`No matching list item for detail with pipelineId: ${id}`].  The id
    is declared a string; a number is printed in decimal notation, as the
    engine does below 1e21. *)
Definition no_matching_list_item (id : value) : jsvalue :=
  JsError ("No matching list item for detail with pipelineId: "
           ++ match id with
              | VStr s => s
              | VUndef => "undefined"
              | VNull => "null"
              | VBool true => "true"
              | VBool false => "false"
              | VNum n => pretty n
              end).

(** [xs.map((x, index) => f(ys[index], x))]; reading a field of
    [ys[index]] throws a [TypeError] when the index is out of range. *)
Fixpoint map_indexed {A B C} (f : B -> A -> C) (ys : list B) (index : nat)
    (xs : list A) : jsvalue + list C :=
  match xs with
  | [] => inr []
  | x :: xs' =>
      match ys !! index with
      | None =>
          inl (JsTypeError
                 "Cannot read properties of undefined (reading 'pipelineId')")
      | Some y =>
          match map_indexed f ys (S index) xs' with
          | inl e => inl e
          | inr l => inr (f y x :: l)
          end
      end
  end.

(** [xs.map(f)] for an [f] that may throw. *)
Fixpoint map_throwing {A B} (f : A -> jsvalue + B) (xs : list A)
    : jsvalue + list B :=
  match xs with
  | [] => inr []
  | x :: xs' =>
      match f x with
      | inl e => inl e
      | inr y =>
          match map_throwing f xs' with
          | inl e => inl e
          | inr l => inr (y :: l)
          end
      end
  end.

(** Whether the detail URL of a list item is among the existing ones. *)
Definition known (existingArticles : list obj) (item : obj) : bool :=
  Set_has (get item "detailUrl")
          (map (fun a => get a "detailUrl") existingArticles).

Section Pipeline.
Variable P : provider.

Local Abbreviation M := (M event).

Definition fetchListPageHtml (target : CrawlingTarget) : M string :=
  executeWithLogging "crawl.list.fetch" "debug"
    (call (EvFetchList (url target)) (getHtmlFromUrl P (VStr (url target)))).

Definition parseListPageHtml (target : CrawlingTarget) (listPageHtml : string)
  : M (list obj) :=
  executeWithLogging "crawl.list.parse" "debug"
    (let* items := call (EvParseList listPageHtml)
                        (parseList target listPageHtml) in
     ret (imap (fun i item =>
                  <["pipelineId" := VStr (randomUUID P i)]> item) items)).

Definition dedupeListItems (target : CrawlingTarget) (parsedList : list obj)
  : M (list obj) :=
  executeWithLogging "crawl.list.dedupe" "debug"
    (let urls := map (fun item => get item "detailUrl") parsedList in
     let* existingArticles :=
       call (EvFetchExisting urls) (fetchExistingArticlesByUrls P urls) in
     let existingUrlSet :=
       map (fun a => get a "detailUrl") existingArticles in
     ret (List.filter
            (fun item => negb (Set_has (get item "detailUrl") existingUrlSet))
            parsedList)).


Definition fetchDetailPagesHtml (target : CrawlingTarget) (list : list obj)
  : M (Datatypes.list HtmlWithPipelineId) :=
  executeWithLogging "crawl.detail.fetch" "debug"
    (let* htmlList :=
       Promise_all
         (map (fun data =>
                 call (EvFetchDetail (get data "detailUrl"))
                      (getHtmlFromUrl P (get data "detailUrl"))) list) in
     (map_indexed
        (fun item html =>
           {| pipelineId := get item "pipelineId"; html := html |})
        list 0 htmlList, [])).

Definition parseDetailPagesHtml (target : CrawlingTarget)
    (detailPagesHtmlWithPipelineId : list HtmlWithPipelineId)
  : M (list obj) :=
  executeWithLogging "crawl.detail.parse" "debug"
    (let* detail :=
       Promise_all
         (map (fun h => call (EvParseDetail (html h))
                             (parseDetail target (html h)))
              detailPagesHtmlWithPipelineId) in
     (map_indexed
        (fun h detail =>
           spread {["pipelineId" := pipelineId h]} detail)
        detailPagesHtmlWithPipelineId 0 detail, [])).

(** The function given to [executeWithLogging] by [mergeParsedArticles]. *)
Definition merge_records (list parsedDetails : list obj)
  : jsvalue + Datatypes.list obj :=
  let listItemMap := map (fun item => (get item "pipelineId", item)) list in
  map_throwing
    (fun detail =>
       match Map_get (get detail "pipelineId") listItemMap with
       | None => inl (no_matching_list_item (get detail "pipelineId"))
       | Some listItem =>
           inr (spread (omit listItem "pipelineId")
                       (omit detail "pipelineId"))
       end)
    parsedDetails.

Definition mergeParsedArticles (target : CrawlingTarget)
    (list parsedDetails : list obj) : M (Datatypes.list obj) :=
  executeWithLogging "crawl.merge" "debug"
    (merge_records list parsedDetails, []).

Definition saveArticles (target : CrawlingTarget)
    (processedArticles : list obj) : M Z :=
  executeWithLogging "crawl.save" "debug"
    (call (EvSave processedArticles)
          (saveCrawledArticles P processedArticles)).

(** The seven stages piped in [executeGroupPipeline]; each stage reads the
    keys of the context that earlier stages wrote. *)
Definition targetPipeline (target : CrawlingTarget) : M Z :=
  let* listPageHtml := fetchListPageHtml target in
  let* parsedList := parseListPageHtml target listPageHtml in
  let* list := dedupeListItems target parsedList in
  let* detailPagesHtmlWithPipelineId := fetchDetailPagesHtml target list in
  let* parsedDetails :=
    parseDetailPagesHtml target detailPagesHtmlWithPipelineId in
  let* processedArticles := mergeParsedArticles target list parsedDetails in
  saveArticles target processedArticles.

End Pipeline.

(** *** The retried batch of a group

    [executeGroupPipeline] pipes the seven stages into a sequence, wraps
    the sequence with [withRetry] and calls [batch] on it, with one input
    per target.  [batch] and [withRetry] are LangChain's: the batch of the
    wrapped sequence ([RunnableRetry._batch]) gives the inputs that have
    no result yet, or an [Error] as their result, to the batch of the
    sequence with [returnExceptions: true], stores what comes back, and is
    run again by p-retry while a stored result is an [Error]; the batch of
    a sequence ([RunnableSequence.batch]) runs the steps one after the
    other, each step on all the inputs. *)

(** The [TypeError] of [this.describeTarget(undefined)], which reads
    [target.name]. *)
Definition describeTarget_undefined : jsvalue :=
  JsTypeError "Cannot read properties of undefined (reading 'name')".

(** What a step throws for an input that is not a context but the value
    that an earlier step threw for this input: the function of the step
    takes [target] off its argument, which fails on [null], and the stage
    method that it calls evaluates [this.describeTarget(target)] for its
    [startFields], with [target] undefined, before it logs anything.  A
    thrown value is taken to have no [target] field of its own. *)
Definition step_on_exception (e : jsvalue) : jsvalue :=
  match e with
  | JsNull =>
      JsTypeError
        "Cannot destructure property 'target' of 'object null' as it is null."
  | _ => describeTarget_undefined
  end.

(** One run of [step.batch(inputs, configs, { returnExceptions: true })],
    the batch of [Runnable]: [this.invoke(input)] in a [try] whose [catch]
    returns what was thrown. *)
Definition step_run {A B} (step : A -> M event B) (input : jsvalue + A)
    : M event B :=
  match input with
  | inr context => step context
  | inl e => throw (step_on_exception e)
  end.

(** [step.batch]: every input is run through the step, and the outcome of
    each run is its result.  The runs are concurrent, [maxConcurrency] at
    a time; their events are listed input by input. *)
Definition step_batch {A B} (step : A -> M event B)
    (inputs : list (jsvalue + A)) : list (jsvalue + B) * list event :=
  let runs := map (step_run step) inputs in
  (map result runs, concat (map trace runs)).

(** A turn of the loop of [RunnableSequence.batch]:
    [nextStepInputs = await step.batch(nextStepInputs, ...)]. *)
Definition pipe {A B} (batched : list (jsvalue + A) * list event)
    (step : A -> M event B) : list (jsvalue + B) * list event :=
  let '(nextStepInputs, t) := batched in
  let '(outputs, t') := step_batch step nextStepInputs in
  (outputs, t ++ t').

Notation "batched '|>' step" := (pipe batched step)
  (at level 50, left associativity, only parsing).

(** [RunnableSequence.batch] on the seven steps: each step runs on what
    the step before it gave for all the inputs.  An input is a target
    together with what the collaborators answer during its run; a context
    holds the keys that the step before it has written. *)
Definition sequence_batch (inputs : list (provider * CrawlingTarget))
    : list (jsvalue + Z) * list event :=
  (map inr inputs, [])
  |> (fun '(P, target) =>
        let* listPageHtml := fetchListPageHtml P target in
        ret (P, target, listPageHtml))
  |> (fun '(P, target, listPageHtml) =>
        let* parsedList := parseListPageHtml P target listPageHtml in
        ret (P, target, parsedList))
  |> (fun '(P, target, parsedList) =>
        let* list := dedupeListItems P target parsedList in
        ret (P, target, list))
  |> (fun '(P, target, list) =>
        let* detailPagesHtmlWithPipelineId :=
          fetchDetailPagesHtml P target list in
        ret (P, target, list, detailPagesHtmlWithPipelineId))
  |> (fun '(P, target, list, detailPagesHtmlWithPipelineId) =>
        let* parsedDetails :=
          parseDetailPagesHtml target detailPagesHtmlWithPipelineId in
        ret (P, target, list, parsedDetails))
  |> (fun '(P, target, list, parsedDetails) =>
        let* processedArticles :=
          mergeParsedArticles target list parsedDetails in
        ret (P, target, processedArticles))
  |> (fun '(P, target, processedArticles) =>
        saveArticles P target processedArticles).

(** What [RunnableRetry] leaves to p-retry: which messages of a
    [TypeError] are those of a network failure, and which error the
    promise rejects with once the attempts are used up, given the errors
    of the attempts in their order ([operation.mainError()]). *)
Class PRetry := {
  isNetworkError : string -> bool;
  mainError : list jsvalue -> jsvalue
}.

(** [error instanceof TypeError] *)
Definition instanceof_TypeError (e : jsvalue) : bool :=
  match e with JsTypeError _ => true | _ => false end.

(** The inputs that [RunnableRetry._batch] runs in an attempt: those with
    [resultsMap[i] === undefined || resultsMap[i] instanceof Error]. *)
Definition remaining (resultsMap : gmap nat (jsvalue + Z)) (i : nat) : bool :=
  match resultsMap !! i with
  | None => true
  | Some (inl e) => instanceof_Error e
  | Some (inr _) => false
  end.

(** [remainingIndexes] and [remainingInputs]: these inputs, each with its
    index. *)
Definition remainingInputs (inputs : list CrawlingTarget)
    (resultsMap : gmap nat (jsvalue + Z)) : list (nat * CrawlingTarget) :=
  List.filter (fun '(i, _) => remaining resultsMap i) (imap pair inputs).

(** [resultsMap[remainingIndexes[i]] = results[i]], for every [i]. *)
Definition store (remainingIndexes : list nat) (results : list (jsvalue + Z))
    (resultsMap : gmap nat (jsvalue + Z)) : gmap nat (jsvalue + Z) :=
  fold_left (fun m '(i, result) => <[i := result]> m)
            (zip remainingIndexes results) resultsMap.

(** The first of the results that is an [Error]. *)
Fixpoint firstException (results : list (jsvalue + Z)) : option jsvalue :=
  match results with
  | [] => None
  | inl e :: rest =>
      if instanceof_Error e then Some e else firstException rest
  | inr _ :: rest => firstException rest
  end.

(** [results.reduce((sum, result) => sum + result.count, 0)].  A result is
    the context [{ count }] of the last step, or a value that the last
    step threw and that is no [Error]; such a value is taken to have no
    [count] field of its own, which makes the sum [NaN], written [None]. *)
Fixpoint reduce_counts (results : list (jsvalue + Z)) (sum : option Z)
    : jsvalue + option Z :=
  match results with
  | [] => inr sum
  | inr count :: rest => reduce_counts rest (sum ≫= fun s => Some (s + count)%Z)
  | inl JsNull :: _ =>
      inl (JsTypeError "Cannot read properties of null (reading 'count')")
  | inl _ :: rest => reduce_counts rest None
  end.

Section Group.
Context {policy : PRetry}.
(** What the collaborators answer to target number [i] in attempt number
    [n] of the batch. *)
Variable env : nat -> nat -> provider.
Variable stopAfterAttempt : nat.

(** [pRetry(attempt, { retries })] on the attempt of
    [RunnableRetry._batch]: the attempt runs the remaining inputs through
    the sequence, stores their results and throws the first exception
    among them.  p-retry rejects with a thrown [TypeError] at once, unless
    its message is that of a network failure; it starts another attempt
    after any other error while retries are left, and rejects with the
    main error when none is.  The waiting between attempts leaves no
    event. *)
Fixpoint pRetry (inputs : list CrawlingTarget) (retries attemptNumber : nat)
    (errors : list jsvalue) (resultsMap : gmap nat (jsvalue + Z))
  : M event (gmap nat (jsvalue + Z)) :=
  let remainingInputs := remainingInputs inputs resultsMap in
  let '(results, t) :=
    sequence_batch
      (map (fun '(i, target) => (env i attemptNumber, target))
           remainingInputs) in
  let resultsMap' := store (map fst remainingInputs) results resultsMap in
  match firstException results with
  | None => (inr resultsMap', t)
  | Some e =>
      if instanceof_TypeError e && negb (isNetworkError (message_of e))
      then (inl e, t)
      else
        match retries with
        | O => (inl (mainError (errors ++ [e])), t)
        | S retries' =>
            let '(r, t') :=
              pRetry inputs retries' (S attemptNumber) (errors ++ [e])
                     resultsMap' in
            (r, t ++ t')
        end
  end.

(** [chain.batch(inputs, { maxConcurrency })], called without
    [returnExceptions] on the sequence with its retry
    ([retries: Math.max(stopAfterAttempt - 1, 0)]): it rejects when p-retry
    does, and returns the stored results in the order of the inputs
    otherwise. *)
Definition batch (inputs : list CrawlingTarget)
    : M event (list (jsvalue + Z)) :=
  let* resultsMap := pRetry inputs (stopAfterAttempt - 1) 1 [] ∅ in
  ret (omap (fun i => resultsMap !! i) (seq 0 (length inputs))).

Definition executeGroupPipeline (group : CrawlingTargetGroup)
    : M event (option Z) :=
  executeWithLogging "crawl.group" "debug"
    (let* results := batch (targets group) in
     (reduce_counts results (Some 0%Z), [])).

End Group.

(** *** The batch, input by input *)

(** One input through the next step, by itself: what [pipe] does to each
    of its inputs. *)
Definition and_then {A B} (m : M event A) (step : A -> M event B)
    : M event B :=
  let '(r, t) := step_run step (result m) in (r, trace m ++ t).

(** One input through the seven steps. *)
Definition input_run (input : provider * CrawlingTarget) : M event Z :=
  and_then (and_then (and_then (and_then (and_then (and_then (and_then
    (ret input)
    (fun '(P, target) =>
        let* listPageHtml := fetchListPageHtml P target in
        ret (P, target, listPageHtml)))
    (fun '(P, target, listPageHtml) =>
        let* parsedList := parseListPageHtml P target listPageHtml in
        ret (P, target, parsedList)))
    (fun '(P, target, parsedList) =>
        let* list := dedupeListItems P target parsedList in
        ret (P, target, list)))
    (fun '(P, target, list) =>
        let* detailPagesHtmlWithPipelineId :=
          fetchDetailPagesHtml P target list in
        ret (P, target, list, detailPagesHtmlWithPipelineId)))
    (fun '(P, target, list, detailPagesHtmlWithPipelineId) =>
        let* parsedDetails :=
          parseDetailPagesHtml target detailPagesHtmlWithPipelineId in
        ret (P, target, list, parsedDetails)))
    (fun '(P, target, list, parsedDetails) =>
        let* processedArticles :=
          mergeParsedArticles target list parsedDetails in
        ret (P, target, processedArticles)))
    (fun '(P, target, processedArticles) =>
        saveArticles P target processedArticles).

(** A batched state follows, input by input, the runs [g x]: it holds
    their results, and their events, each run's in its order. *)
Definition tracks {X A} (xs : list X) (g : X -> M event A)
    (batched : list (jsvalue + A) * list event) : Prop :=
  batched.1 = map (fun x => result (g x)) xs /\
  batched.2 ≡ₚ concat (map (fun x => trace (g x)) xs) /\
  forall x, x ∈ xs -> sublist (trace (g x)) batched.2.

Section Attempt.
Variable env : nat -> nat -> provider.

(** The results that attempt number [n] stores, and its events. *)
Definition attempt_results (inputs : list CrawlingTarget) (n : nat)
    (resultsMap : gmap nat (jsvalue + Z)) : list (jsvalue + Z) :=
  map (fun '(i, target) => result (input_run (env i n, target)))
      (remainingInputs inputs resultsMap).

Definition attempt_trace (inputs : list CrawlingTarget) (n : nat)
    (resultsMap : gmap nat (jsvalue + Z)) : list event :=
  (sequence_batch
     (map (fun '(i, target) => (env i n, target))
          (remainingInputs inputs resultsMap))).2.

End Attempt.

(** A sequence that is started again whenever it throws, [retries] times
    at most: the runs [f attempt], [f (attempt + 1)], ... up to the first
    one that returns.  The batch above starts the sequence of a target
    again in fewer cases (not after a [TypeError], nor for a value thrown
    that is no [Error]), in the same order of attempts: what it runs for
    one target is a prefix of these runs. *)
Fixpoint retry {A} (retries attempt : nat) (f : nat -> M event A)
    : M event A :=
  match retries with
  | O => f attempt
  | S n => try_catch (f attempt) (fun _ => retry n (S attempt) f)
  end.

Definition withRetry {A} (stopAfterAttempt : nat) (f : nat -> M event A)
    : M event A :=
  retry (stopAfterAttempt - 1) 1 f.

(** The stage of the pipeline that an event belongs to; log entries
    belong to no stage. *)
Definition stage_of (ev : event) : nat :=
  match ev with
  | EvLog _ => 0
  | EvFetchList _ => 1
  | EvParseList _ => 2
  | EvFetchExisting _ => 3
  | EvFetchDetail _ => 4
  | EvParseDetail _ => 5
  | EvSave _ => 7
  end.

(** A trace with log entries and events of stage [k] only. *)
Definition only_stage (k : nat) (t : list event) : Prop :=
  Forall (fun ev => stage_of ev = 0%nat \/ stage_of ev = k) t.

(** In a trace, every fetch of a detail page comes after a call of
    [fetchExistingArticlesByUrls]. *)
Definition detail_fetches_follow_dedupe (t : list event) : Prop :=
  forall pre u post,
    t = pre ++ EvFetchDetail u :: post ->
    exists urls, EvFetchExisting urls ∈ pre.

(** The runs of the pipelines of the targets of a group with what the
    collaborators answer in an attempt of the batch. *)
Definition runs (env : nat -> nat -> provider) (attempt : nat)
    (group : CrawlingTargetGroup) : list (M event Z) :=
  imap (fun i target => targetPipeline (env i attempt) target)
       (targets group).

(** *** A concrete group: two targets with two list items each, of which
    one per target is already stored. *)
Definition demo_item (detailUrl title : string) : obj :=
  {[ "detailUrl" := VStr detailUrl; "title" := VStr title ]}.

Definition demo_target (listUrl : string) (items : list obj)
    : CrawlingTarget :=
  {| name := Some "T";
     url := listUrl;
     parseList := fun _ => inr items;
     parseDetail := fun html => inr {[ "detailContent" := VStr html ]} |}.

Definition demo_t1 : CrawlingTarget :=
  demo_target "https://site.test/list1"
    [demo_item "https://site.test/a1" "A1";
     demo_item "https://site.test/a2" "A2"].

Definition demo_t2 : CrawlingTarget :=
  demo_target "https://site.test/list2"
    [demo_item "https://site.test/b1" "B1";
     demo_item "https://site.test/b2" "B2"].

Definition demo_existing : list obj :=
  [ {[ "detailUrl" := VStr "https://site.test/a2" ]};
    {[ "detailUrl" := VStr "https://site.test/b2" ]} ].

Definition demo_provider : provider :=
  {| getHtmlFromUrl := fun u =>
       match u with
       | VStr s => inr ("HTML:" ++ s)%string
       | _ => inl (JsError "Invalid URL")
       end;
     randomUUID := fun i => pretty i;
     fetchExistingArticlesByUrls := fun _ => inr demo_existing;
     saveCrawledArticles := fun articles => inr (Z.of_nat (length articles)) |}.

(** A provider whose storage rejects every save, and a group run in which
    the first target meets it in the first attempt only. *)
Definition demo_unsaved : provider :=
  {| getHtmlFromUrl := getHtmlFromUrl demo_provider;
     randomUUID := fun i => pretty i;
     fetchExistingArticlesByUrls := fun _ => inr demo_existing;
     saveCrawledArticles := fun _ => inl (JsError "database is locked") |}.

Definition demo_env_retry (i attempt : nat) : provider :=
  match i, attempt with
  | 0, 1 => demo_unsaved
  | _, _ => demo_provider
  end%nat.





(** A target with three list items, of which the second is already
    stored, and what its run saves: [a1] and [a3], merged, in this order. *)
Definition demo_t3 : CrawlingTarget :=
  demo_target "https://site.test/list3"
    [demo_item "https://site.test/a1" "A1";
     demo_item "https://site.test/a2" "A2";
     demo_item "https://site.test/a3" "A3"].

Definition demo_saved3 : list obj :=
  [spread
     (omit (<["pipelineId" := VStr (pretty 0%nat)]>
              (demo_item "https://site.test/a1" "A1")) "pipelineId")
     {[ "detailContent" := VStr "HTML:https://site.test/a1" ]};
   spread
     (omit (<["pipelineId" := VStr (pretty 2%nat)]>
              (demo_item "https://site.test/a3" "A3")) "pipelineId")
     {[ "detailContent" := VStr "HTML:https://site.test/a3" ]}].

Definition demo_group : CrawlingTargetGroup :=
  {| group_name := "group-1"; targets := [demo_t1; demo_t2] |}.

(** A retry policy for the concrete runs: it knows one message of a
    network failure, and takes the error of the last attempt for the main
    one. *)
Definition demo_pRetry : PRetry :=
  {| isNetworkError := fun message => bool_decide (message = "Failed to fetch");
     mainError := fun errors => default JsNull (last errors) |}.



Definition is_save (ev : event) : bool :=
  match ev with EvSave _ => true | _ => false end.

(** Number of [saveCrawledArticles] calls in a trace. *)
Definition saves (t : list event) : nat := length (List.filter is_save t).

Definition is_list_fetch (ev : event) : bool :=
  match ev with EvFetchList _ => true | _ => false end.

(** Number of list pages fetched in a trace: one per run of a target's
    pipeline. *)
Definition list_fetches (t : list event) : nat :=
  length (List.filter is_list_fetch t).

(** The detail URLs fetched in a trace, in order. *)
Definition detail_fetches (t : list event) : list value :=
  omap (fun ev => match ev with EvFetchDetail u => Some u | _ => None end) t.

Section ChainGetter.
Context {policy : PRetry}.
Variable env : nat -> nat -> provider.
Variable stopAfterAttempt : nat.

(** The [mapping] of the [chain] getter:
    [crawlingTargetGroups.reduce((result, group) => ({ ...result,
    [group.name]: () => this.executeGroupPipeline(group) }), {})]. *)
Definition mapping (crawlingTargetGroups : list CrawlingTargetGroup)
    : gmap string (M event (option Z)) :=
  fold_left
    (fun result group =>
       <[group_name group := executeGroupPipeline env stopAfterAttempt group]>
         result)
    crawlingTargetGroups ∅.

End ChainGetter.

(** The last group of the list that has the given name. *)
Definition last_named (n : string) (groups : list CrawlingTargetGroup)
    : option CrawlingTargetGroup :=
  last (List.filter (fun g => bool_decide (group_name g = n)) groups).

End Crawl.

(** ** The enrichment loop *)
Module Insights.

Inductive article_id :=
  | IdStr (s : string)
  | IdNum (n : Z).

#[global] Instance article_id_eq_dec : EqDecision article_id.
Proof. solve_decision. Defined.

(** [UnscoredArticle], and [ArticleForUpdateByAnalysis] once
    [importanceScore] is set. *)
Record article := Article {
  id : article_id;
  title : string;
  detailContent : string;
  hasAttachedImage : bool;
  imageContextByLlm : option string;
  tag1 : option string;
  tag2 : option string;
  tag3 : option string;
  targetUrl : string;
  importanceScore : option Q
}.

(** Truthiness of a [string | null] and of a [number | undefined]. *)
Definition truthy_string (s : option string) : bool :=
  match s with
  | Some (String _ _) => true
  | _ => false
  end.

Definition truthy_number (n : option Q) : bool :=
  match n with
  | Some q => negb (Qeq_bool q 0)
  | None => false
  end.

Record TagWithArticleId := {
  tags_id : article_id;
  gen_tag1 : option string;
  gen_tag2 : option string;
  gen_tag3 : option string
}.

Record ImageContextWithArticleId := {
  image_id : article_id;
  image_context : string
}.

(** [{ ...article, tag1, tag2, tag3 }] *)
Definition with_tags (a : article) (t : TagWithArticleId) : article :=
  Article (id a) (title a) (detailContent a) (hasAttachedImage a)
          (imageContextByLlm a) (gen_tag1 t) (gen_tag2 t) (gen_tag3 t)
          (targetUrl a) (importanceScore a).

(** [{ ...article, imageContextByLlm }] *)
Definition with_imageContext (a : article) (c : string) : article :=
  Article (id a) (title a) (detailContent a) (hasAttachedImage a)
          (Some c) (tag1 a) (tag2 a) (tag3 a)
          (targetUrl a) (importanceScore a).

(** [{ ...article, importanceScore }] *)
Definition with_importanceScore (a : article) (score : Q) : article :=
  Article (id a) (title a) (detailContent a) (hasAttachedImage a)
          (imageContextByLlm a) (tag1 a) (tag2 a) (tag3 a)
          (targetUrl a) (Some score).

Inductive event :=
  | EvLog (l : log_entry)
  | EvInvoke (pass : nat)                       (* this.chain.invoke({}) *)
  | EvClassify (pass : nat) (articleId : article_id)   (* classifyTags.execute *)
  | EvAnalyze (pass : nat) (articleId : article_id)    (* analyzeImages.execute *)
  | EvScore (pass : nat) (articleId : article_id)
      (* determineArticleImportance.execute *)
  | EvRestart (iterationCount : nat).
      (* logger.debug({ event: 'insights.incomplete.restart', ... }) *)

#[global] Instance insights_logger : Logger event := EvLog.

Definition maxIterations : nat := 5.

(** The model-call events. *)
Definition is_model_call (ev : event) : bool :=
  match ev with
  | EvClassify _ _ | EvAnalyze _ _ | EvScore _ _ => true
  | _ => false
  end.

(** [DetermineArticleImportance.execute]: the answer of the model is read
    through [Output.object({ schema })], whose schema is
    [importanceScore: z.number().min(1).max(10)]; an answer that does not
    satisfy the schema is an error. *)
Definition DetermineArticleImportance_execute (answer : jsvalue + Q)
    : jsvalue + Q :=
  match answer with
  | inl e => inl e
  | inr score =>
      if Qle_bool 1 score && Qle_bool score 10 then inr score
      else inl (JsError "No object generated: response did not match schema.")
  end.

(** [pushTag] of [classifyArticles] *)
Definition pushTag (tags : list string) (tag : option string) : list string :=
  match tag with
  | Some t =>
      if truthy_string tag && negb (bool_decide (t ∈ tags))
      then tags ++ [t] else tags
  | None => tags
  end.

(** [!article.tag1 || !article.tag2 || !article.tag3 ||
    !article.importanceScore] *)
Definition incomplete (a : article) : bool :=
  negb (truthy_string (tag1 a)) || negb (truthy_string (tag2 a))
  || negb (truthy_string (tag3 a)) || negb (truthy_number (importanceScore a)).

(** An article with its three tags and its importance score. *)
Definition complete (a : article) : bool :=
  truthy_string (tag1 a) && truthy_string (tag2 a)
  && truthy_string (tag3 a) && truthy_number (importanceScore a).

Section Chain.
(** The provider and the language-model calls; [pass] numbers the
    invocations of the chain within one [generateInsights], so that a call
    may answer differently from one pass to the next. *)
Variable unscoredArticles : list article.
Variable classifyTags :
  nat -> article -> list string ->
  jsvalue + (option string * option string * option string).
Variable analyzeImages : nat -> article -> jsvalue + option string.
Variable generateScore : nat -> article -> jsvalue + Q.

(** The [for] loop of [classifyArticles]; [tags] is [this.provider.tags]. *)
Fixpoint classify_each (pass : nat) (articles : list article)
    (tags : list string)
  : (list TagWithArticleId * list string) * list event :=
  match articles with
  | [] => (([], tags), [])
  | article :: rest =>
      if truthy_string (tag1 article) && truthy_string (tag2 article)
         && truthy_string (tag3 article)
      then classify_each pass rest tags
      else
        match classifyTags pass article tags with
        | inr (t1, t2, t3) =>
            let tags' := pushTag (pushTag (pushTag tags t1) t2) t3 in
            let '((out, tagsN), evs) := classify_each pass rest tags' in
            (({| tags_id := id article; gen_tag1 := t1;
                 gen_tag2 := t2; gen_tag3 := t3 |} :: out, tagsN),
             EvLog (LogMsg "debug" "insights.articles.classify.start")
             :: EvClassify pass (id article)
             :: EvLog (LogMsg "debug" "insights.articles.classify.end")
             :: evs)
        | inl e =>
            let '(r, evs) := classify_each pass rest tags in
            (r,
             EvLog (LogMsg "debug" "insights.articles.classify.start")
             :: EvClassify pass (id article)
             :: EvLog (LogMsg "debug" "insights.articles.classify.end.error")
             :: evs)
        end
  end.

Definition classifyArticles (pass : nat) (tags : list string)
  : M event (list TagWithArticleId * list string) :=
  executeWithLogging "insights.articles.classify" "debug"
    (let '(r, evs) := classify_each pass unscoredArticles tags in
     (inr r, evs)).

(** The [for] loop of [extractImageContext]. *)
Fixpoint extract_each (pass : nat) (articles : list article)
  : list ImageContextWithArticleId * list event :=
  match articles with
  | [] => ([], [])
  | article :: rest =>
      let '(out, evs) := extract_each pass rest in
      if negb (hasAttachedImage article) then
        (out,
         EvLog (LogMsg "debug" "insights.images.extract.pass.noimage") :: evs)
      else if truthy_string (imageContextByLlm article) then
        (out,
         EvLog (LogMsg "debug" "insights.images.extract.pass.exist") :: evs)
      else
        match analyzeImages pass article with
        | inr (Some (String c r)) =>
            ({| image_id := id article; image_context := String c r |} :: out,
             EvLog (LogMsg "debug" "insights.images.extract.start")
             :: EvAnalyze pass (id article)
             :: EvLog (LogMsg "debug" "insights.images.extract.end")
             :: evs)
        | inr _ =>
            (out,
             EvLog (LogMsg "debug" "insights.images.extract.start")
             :: EvAnalyze pass (id article)
             :: EvLog (LogMsg "debug" "insights.images.extract.end.noimage")
             :: evs)
        | inl e =>
            (out,
             EvLog (LogMsg "debug" "insights.images.extract.start")
             :: EvAnalyze pass (id article)
             :: EvLog (LogMsg "debug" "insights.images.extract.end.error")
             :: evs)
        end
  end.

Definition extractImageContext (pass : nat)
  : M event (list ImageContextWithArticleId) :=
  executeWithLogging "insights.images.extract" "debug"
    (let '(r, evs) := extract_each pass unscoredArticles in (inr r, evs)).

Definition mergeTagsAndImageContext
    (generatedTags : list TagWithArticleId)
    (generatedImageContextList : list ImageContextWithArticleId)
  : M event (list article) :=
  executeWithLogging "insights.context.merge" "debug"
    (ret (map (fun article =>
                 let articleWithTags :=
                   find (fun t => bool_decide (tags_id t = id article))
                        generatedTags in
                 let articleWithImageContext :=
                   find (fun c => bool_decide (image_id c = id article))
                        generatedImageContextList in
                 let article :=
                   match articleWithTags with
                   | Some t => with_tags article t
                   | None => article
                   end in
                 match articleWithImageContext with
                 | Some c => with_imageContext article (image_context c)
                 | None => article
                 end)
              unscoredArticles)).

(** The [for] loop of [determineImportance]. *)
Fixpoint determine_each (pass : nat) (mergedArticles : list article)
  : list article * list event :=
  match mergedArticles with
  | [] => ([], [])
  | article :: rest =>
      let '(out, evs) := determine_each pass rest in
      match DetermineArticleImportance_execute (generateScore pass article) with
      | inr importanceScore =>
          (with_importanceScore article importanceScore :: out,
           EvLog (LogMsg "debug" "insights.importance.determine.start")
           :: EvScore pass (id article)
           :: EvLog (LogMsg "debug" "insights.importance.determine.end")
           :: evs)
      | inl e =>
          (with_importanceScore article 1 :: out,
           EvLog (LogMsg "debug" "insights.importance.determine.start")
           :: EvScore pass (id article)
           :: EvLog (LogMsg "debug" "insights.importance.determine.end.error")
           :: evs)
      end
  end.

Definition determineImportance (pass : nat) (mergedArticles : list article)
  : M event (list article) :=
  executeWithLogging "insights.importance.determine" "debug"
    (let '(r, evs) := determine_each pass mergedArticles in (inr r, evs)).

(** [this.chain.invoke({})]: the four steps of one pass.  It returns
    [determinedArticles] and leaves [this.provider.tags] extended.  The
    first two steps are the two keys of one [assign] and run side by
    side; their events are listed one step after the other. *)
Definition chain_invoke (pass : nat) (tags : list string)
  : M event (list article * list string) :=
  let* _ := tell [EvInvoke pass] in
  let* classified := classifyArticles pass tags in
  let* generatedImageContextList := extractImageContext pass in
  let* mergedArticles :=
    mergeTagsAndImageContext (fst classified) generatedImageContextList in
  let* determinedArticles := determineImportance pass mergedArticles in
  ret (determinedArticles, snd classified).

(** [current.map(article => reprocessedArticles.find(re => re.id ===
    article.id) || article)] *)
Definition update_with (reprocessedArticles current : list article)
  : list article :=
  map (fun article =>
         default article
           (find (fun reArticle => bool_decide (id reArticle = id article))
                 reprocessedArticles))
      current.

(** The recursive [reprocess] of [generateInsights]; the recursion stops
    because [iteration] grows towards [maxIterations]. *)
Equations reprocess (current : list article) (iteration : nat)
    (tags : list string) : M event (list article)
  by wf (maxIterations - iteration) lt :=
reprocess current iteration tags with le_lt_dec maxIterations iteration := {
  | left _ =>
      (inr current,
       [EvLog (LogMsg "debug" "insights.warning.maxIterationsReached")])
  | right _ =>
      if (length (List.filter incomplete current) =? 0)%nat
      then (inr current, [EvLog (LogMsg "debug" "insights.complete")])
      else
        match chain_invoke (S iteration) tags with
        | (inl e, t) => (inl e, EvRestart iteration :: t)
        | (inr (reprocessedArticles, tags'), t) =>
            let updated := update_with reprocessedArticles current in
            let '(r, t') := reprocess updated (S iteration) tags' in
            (r,
             EvRestart iteration :: t
             ++ EvLog (LogMsg "debug" "insights.incomplete.restart.done")
             :: t')
        end }.
Next Obligation. unfold maxIterations in *. lia. Qed.

Definition generateInsights (tags : list string) : M event (list article) :=
  let* initial := chain_invoke 0 tags in
  reprocess (fst initial) 0 (snd initial).

End Chain.

Definition is_restart (ev : event) : bool :=
  match ev with EvRestart _ => true | _ => false end.

Definition is_invoke (ev : event) : bool :=
  match ev with EvInvoke _ => true | _ => false end.

(** The number of restarts of the loop, and of passes of the chain, in a
    trace. *)
Definition restarts (evs : list event) : nat :=
  length (List.filter is_restart evs).

Definition passes (evs : list event) : nat :=
  length (List.filter is_invoke evs).

Definition model_calls (evs : list event) : list event :=
  List.filter is_model_call evs.

(** An article with an importance score of at least 1. *)
Definition scored (a : article) : Prop :=
  exists q, importanceScore a = Some q /\ (1 <= q)%Q.

(** Events of the four steps, as opposed to those of the loop around them. *)
Definition step_event (ev : event) : Prop :=
  match ev with
  | EvInvoke _ | EvRestart _ => False
  | _ => True
  end.

(** *** A concrete batch: one article without tags, and a model whose
    classification always fails while its scoring answers 1; and a model
    whose classification fails in the first pass only. *)
Definition demo_classify_once (pass : nat) (a : article) (tags : list string)
    : jsvalue + (option string * option string * option string) :=
  match pass with
  | O => inl (JsError "classify error")
  | S _ => inr (Some "X", Some "Y", Some "Z")
  end.

Definition demo_article (t1 t2 t3 : option string) (score : option Q)
    : article :=
  Article (IdStr "only") "Only" "Body" false None t1 t2 t3
          "https://site.test/list1" score.

Definition demo_classify_fails (pass : nat) (a : article) (tags : list string)
    : jsvalue + (option string * option string * option string) :=
  inl (JsError "fail").

Definition demo_analyze (pass : nat) (a : article) : jsvalue + option string :=
  inr None.

Definition demo_score (pass : nat) (a : article) : jsvalue + Q := inr 1%Q.

(** [!(article.tag1 && article.tag2 && article.tag3)]: the article goes
    to the classification model. *)
Definition needs_tags (a : article) : bool :=
  negb (truthy_string (tag1 a) && truthy_string (tag2 a)
        && truthy_string (tag3 a)).

(** The article goes to the image model: it has an image and no image
    context yet. *)
Definition needs_image (a : article) : bool :=
  hasAttachedImage a && negb (truthy_string (imageContextByLlm a)).

(** The articles sent to each model in a trace, in order. *)
Definition classify_calls (evs : list event) : list article_id :=
  omap (fun ev => match ev with EvClassify _ i => Some i | _ => None end) evs.

Definition analyze_calls (evs : list event) : list article_id :=
  omap (fun ev => match ev with EvAnalyze _ i => Some i | _ => None end) evs.

Definition score_calls (evs : list event) : list article_id :=
  omap (fun ev => match ev with EvScore _ i => Some i | _ => None end) evs.

(** Two articles that differ in their importance score at most. *)
Definition same_but_score (a b : article) : Prop :=
  id b = id a /\ title b = title a /\ detailContent b = detailContent a /\
  hasAttachedImage b = hasAttachedImage a /\
  imageContextByLlm b = imageContextByLlm a /\
  tag1 b = tag1 a /\ tag2 b = tag2 a /\ tag3 b = tag3 a /\
  targetUrl b = targetUrl a.

End Insights.

(** ** The orchestrator *)
Module Orchestrator.

Inductive event :=
  | EvLog (l : log_entry)
  | EvTaskStart                (* taskService.start() *)
  | EvTaskEnd                  (* taskService.end() *)
  | EvCrawl                    (* crawlingChain.chain *)
  | EvAnalyze                  (* analysisChain.chain *)
  | EvGenerateContent          (* contentGenerateChain.chain *)
  | EvFetchPreview             (* preview.fetchNewsletterForPreview() *)
  | EvSendEmail.               (* preview.emailService.send(...) *)

#[global] Instance orchestrator_logger : Logger event := EvLog.

Section Generate.
(** The collaborators of one call of [generate]. *)
Variable taskService_start : jsvalue + string.
Variable taskService_end : jsvalue + unit.
Variable crawlingChain : jsvalue + unit.
Variable analysisChain : jsvalue + unit.
Variable contentGenerateChain : jsvalue + option string.  (* newsletterId *)
Variable previewNewsletter : bool.                         (* configured? *)
Variable fetchNewsletterForPreview : jsvalue + unit.
Variable emailService_send : jsvalue + unit.

Definition startTask : M event string := call EvTaskStart taskService_start.

Definition endTask : M event unit := call EvTaskEnd taskService_end.

(** [RunnableSequence.from([crawlingChain.chain, analysisChain.chain,
    contentGenerateChain.chain]).invoke({})] *)
Definition taskChain : M event (option string) :=
  let* _ := call EvCrawl crawlingChain in
  let* _ := call EvAnalyze analysisChain in
  call EvGenerateContent contentGenerateChain.

Definition executeWithTaskManagement {T} (pipeline : M event T) : M event T :=
  let* _ := startTask in
  try_finally (executeWithLogging "task" "info" pipeline) endTask.

Definition logNewsletterResult (newsletterId : option string) : M event unit :=
  match newsletterId with
  | None => tell [EvLog (LogMsg "info" "generate.result.skipped")]
  | Some _ => tell [EvLog (LogMsg "info" "generate.result.created")]
  end.

Definition sendPreviewNewsletterIfConfigured (newsletterId : option string)
  : M event unit :=
  if negb previewNewsletter then ret tt
  else
    match newsletterId with
    | None => tell [EvLog (LogMsg "info" "generate.preview.skip")]
    | Some _ =>
        try_catch
          (let* newsletter := call EvFetchPreview fetchNewsletterForPreview in
           let* _ := call EvSendEmail emailService_send in
           tell [EvLog (LogMsg "info" "generate.preview.sent")])
          (fun err =>
             tell [EvLog (LogMsg "error" "generate.preview.error");
                   EvLog (LogRaw err)])
    end.

Definition generate : M event (option string) :=
  let* newsletterId := executeWithTaskManagement taskChain in
  let* _ := logNewsletterResult newsletterId in
  let* _ := sendPreviewNewsletterIfConfigured newsletterId in
  ret newsletterId.

End Generate.

(** The number of [taskService.end()] calls in a trace. *)
Definition task_ends (evs : list event) : nat :=
  length (List.filter (fun ev => match ev with EvTaskEnd => true | _ => false end)
                      evs).

(** The three stages of the macro-pipeline. *)
Definition is_stage (ev : event) : bool :=
  match ev with
  | EvCrawl | EvAnalyze | EvGenerateContent => true
  | _ => false
  end.

End Orchestrator.

(** ** The analysis chain *)
Module Analysis.
Import Insights.

Inductive event :=
  | EvLog (l : log_entry)
  | EvFetchUnscored                     (* provider.fetchUnscoredArticles() *)
  | EvFetchTags                         (* provider.fetchTags() *)
  | EvInsights (ev : Insights.event)    (* inside generateInsights() *)
  | EvUpdate (article : article).       (* provider.update(article) *)

#[global] Instance analysis_logger : Logger event := EvLog.

(** What the [AnalysisProvider] and the language models answer during
    one run of the chain. *)
Record provider := {
  provider_fetchUnscoredArticles : jsvalue + list article;
  provider_fetchTags : jsvalue + list string;
  provider_update : article -> jsvalue + unit;
  classifyTags :
    nat -> article -> list string ->
    jsvalue + (option string * option string * option string);
  analyzeImages : nat -> article -> jsvalue + option string;
  generateScore : nat -> article -> jsvalue + Q
}.

(** A computation of the insights chain, run inside the analysis chain. *)
Definition lift {A} (m : M Insights.event A) : M event A :=
  (fst m, map EvInsights (snd m)).

(** [RunnablePassthrough.assign({ a, b })]: both steps are started; the
    step rejects when one of them does. *)
Definition assign2 {A B} (ma : M event A) (mb : M event B) : M event (A * B) :=
  let '(ra, ta) := ma in
  let '(rb, tb) := mb in
  (match ra, rb with
   | inl e, _ => inl e
   | inr _, inl e => inl e
   | inr a, inr b => inr (a, b)
   end, ta ++ tb).

Section Chain.
Variable P : provider.

Definition fetchUnscoredArticles : M event (list article) :=
  executeWithLogging "analysis.articles.fetch" "debug"
    (call EvFetchUnscored (provider_fetchUnscoredArticles P)).

Definition fetchTags : M event (list string) :=
  executeWithLogging "analysis.tags.fetch" "debug"
    (call EvFetchTags (provider_fetchTags P)).

Definition analyzeArticles (unscoredArticles : list article)
    (tags : list string) : M event (list article) :=
  executeWithLogging "analysis.articles.analyze" "debug"
    (lift (generateInsights unscoredArticles (classifyTags P)
             (analyzeImages P) (generateScore P) tags)).

(** The [for] loop of [updateAnalysisContext]. *)
Fixpoint update_each (determinedArticles : list article) : M event unit :=
  match determinedArticles with
  | [] => ret tt
  | article :: rest =>
      let* _ := call (EvUpdate article) (provider_update P article) in
      update_each rest
  end.

Definition updateAnalysisContext (determinedArticles : list article)
    : M event nat :=
  executeWithLogging "analysis.articles.update" "debug"
    (let* _ := update_each determinedArticles in
     ret (length determinedArticles)).

(** One run of the piped steps; it returns [processedCount]. *)
Definition chain_run : M event nat :=
  let* fetched := assign2 fetchUnscoredArticles fetchTags in
  let* determinedArticles := analyzeArticles (fst fetched) (snd fetched) in
  updateAnalysisContext determinedArticles.

End Chain.

(** [.withRetry({ stopAfterAttempt })] around the piped steps; [env n] is
    what the collaborators answer in attempt [n].  The steps are started
    again here after whatever a run throws; p-retry does so after fewer
    throws (not after a [TypeError], nor after a value that is no
    [Error]), so that the attempts of the chain are the first of these
    runs. *)
Fixpoint retry {A} (retries attempt : nat) (f : nat -> M event A)
    : M event A :=
  match retries with
  | O => f attempt
  | S n => try_catch (f attempt) (fun _ => retry n (S attempt) f)
  end.

Definition chain (env : nat -> provider) (stopAfterAttempt : nat)
    : M event nat :=
  retry (stopAfterAttempt - 1) 1 (fun attempt => chain_run (env attempt)).

(** The articles passed to [provider.update] in a trace, in order. *)
Definition updates (t : list event) : list article :=
  omap (fun ev => match ev with EvUpdate a => Some a | _ => None end) t.

(** A provider with two articles to analyse, of which the second cannot
    be updated. *)
Definition demo_provider (failing : option article_id) : provider :=
  {| provider_fetchUnscoredArticles :=
       inr [Article (IdNum 1) "One" "Body" false None None None None
              "https://site.test/list1" None;
            Article (IdNum 2) "Two" "Body" false None None None None
              "https://site.test/list1" None];
     provider_fetchTags := inr ["X"];
     provider_update := fun a =>
       if bool_decide (Some (id a) = failing)
       then inl (JsError "update failed") else inr tt;
     classifyTags := fun _ _ _ => inr (Some "X", Some "Y", Some "Z");
     analyzeImages := fun _ _ => inr None;
     generateScore := fun _ _ => inr 7%Q |}.

End Analysis.

(** ** The content generation chain *)
Module ContentGenerate.

(** [ArticleForGenerateContent], as far as the chain reads it. *)
Record candidate := {
  url : string;
  importanceScore : Q
}.

(** [Pick<Newsletter, 'title' | 'content'>] *)
Record CoreContent := {
  title : string;
  content : string
}.

(** The [newsletter] given to [saveNewsletter]. *)
Record newsletter := {
  newsletter_title : string;
  newsletter_content : string;
  htmlBody : string
}.

Inductive event :=
  | EvLog (l : log_entry)
  | EvFetchCandidates               (* provider.fetchArticleCandidates() *)
  | EvGenerate (targetArticles : list candidate)
      (* new GenerateNewsletter({ targetArticles, ... }).execute() *)
  | EvSaveNewsletter (n : newsletter) (usedArticles : list candidate).
      (* provider.saveNewsletter({ newsletter, usedArticles }) *)

#[global] Instance content_logger : Logger event := EvLog.

Record publicationCriteria := {
  criteria_minimumArticleCountForIssue : Q;
  criteria_priorityArticleScoreThreshold : Q
}.

(** The [ContentGenerateProvider], and what its collaborators answer
    during one run of the chain; [renderTemplate] stands for the two
    [replaceAll] calls on [htmlTemplate.html], and [juice] for the CSS
    inliner. *)
Record provider := {
  provider_publicationCriteria : option publicationCriteria;
  provider_fetchArticleCandidates : jsvalue + list candidate;
  generateNewsletter_execute : list candidate -> jsvalue + CoreContent;
  renderTemplate : CoreContent -> string;
  juice : string -> string;
  saveNewsletter : newsletter -> list candidate -> jsvalue + string
}.

Section Chain.
Variable P : provider.

(** [publicationCriteria?.minimumArticleCountForIssue ?? 5] *)
Definition minimumArticleCountForIssue : Q :=
  match provider_publicationCriteria P with
  | Some c => criteria_minimumArticleCountForIssue c
  | None => 5
  end.

(** [publicationCriteria?.priorityArticleScoreThreshold ?? 8] *)
Definition priorityArticleScoreThreshold : Q :=
  match provider_publicationCriteria P with
  | Some c => criteria_priorityArticleScoreThreshold c
  | None => 8
  end.

Definition fetchArticleCandidates : M event (list candidate) :=
  executeWithLogging "generate.content.articles.fetch" "debug"
    (call EvFetchCandidates (provider_fetchArticleCandidates P)).

Definition generateCoreContent (candidateArticles : list candidate)
    : M event (option CoreContent) :=
  executeWithLogging "generate.content.core.generate" "info"
    (if (length candidateArticles =? 0)%nat then
       let* _ := tell [EvLog (LogMsg "debug"
                                "generate.content.core.generate.noarticle")] in
       ret None
     else
       let hasHighImportancePost :=
         existsb (fun a => Qle_bool priorityArticleScoreThreshold
                                    (importanceScore a))
                 candidateArticles in
       if Qle_bool (inject_Z (Z.of_nat (length candidateArticles)))
                   minimumArticleCountForIssue
          && negb hasHighImportancePost
       then
         let* _ := tell [EvLog (LogMsg "debug"
                                  "generate.content.core.generate.criteria")] in
         ret None
       else
         let* generated :=
           call (EvGenerate candidateArticles)
                (generateNewsletter_execute P candidateArticles) in
         ret (Some generated)).

Definition renderHtml (coreContent : option CoreContent)
    : M event (option string) :=
  executeWithLogging "generate.content.html.render" "debug"
    (match coreContent with
     | None => ret None
     | Some c => ret (Some (renderTemplate P c))
     end).

(** [!html || !coreContent]: an empty [html] counts as missing. *)
Definition createNewsletter (html : option string)
    (coreContent : option CoreContent) (candidateArticles : list candidate)
    : M event (option string) :=
  executeWithLogging "generate.content.newsletter.create" "debug"
    (match html, coreContent with
     | Some (String c r), Some core =>
         let* id :=
           call (EvSaveNewsletter
                   {| newsletter_title := title core;
                      newsletter_content := content core;
                      htmlBody := juice P (String c r) |}
                   candidateArticles)
                (saveNewsletter P
                   {| newsletter_title := title core;
                      newsletter_content := content core;
                      htmlBody := juice P (String c r) |}
                   candidateArticles) in
         ret (Some id)
     | _, _ => ret None
     end).

(** One run of the piped steps; it returns [newsletterId]. *)
Definition chain_run : M event (option string) :=
  let* candidateArticles := fetchArticleCandidates in
  let* generatedCoreContent := generateCoreContent candidateArticles in
  let* html := renderHtml generatedCoreContent in
  createNewsletter html generatedCoreContent candidateArticles.

End Chain.

(** The publication criteria, as a property of the candidates: there is
    a candidate, and there are more candidates than the minimum or one of
    them has the priority score. *)
Definition publishable (P : provider) (candidateArticles : list candidate)
    : Prop :=
  candidateArticles <> [] /\
  ((minimumArticleCountForIssue P
    < inject_Z (Z.of_nat (length candidateArticles)))%Q \/
   Exists (fun a => (priorityArticleScoreThreshold P <= importanceScore a)%Q)
          candidateArticles).

Definition is_generate (ev : event) : bool :=
  match ev with EvGenerate _ => true | _ => false end.

Definition is_save (ev : event) : bool :=
  match ev with EvSaveNewsletter _ _ => true | _ => false end.

(** The numbers of model calls and of [saveNewsletter] calls in a trace. *)
Definition generations (t : list event) : nat :=
  length (List.filter is_generate t).

Definition saves (t : list event) : nat :=
  length (List.filter is_save t).

(** A provider without criteria of its own, whose model and storage
    answer. *)
Definition demo_provider (candidates : list candidate) : provider :=
  {| provider_publicationCriteria := None;
     provider_fetchArticleCandidates := inr candidates;
     generateNewsletter_execute := fun _ =>
       inr {| title := "Hello"; content := "World" |};
     renderTemplate := fun c => ("<h1>" ++ title c ++ "</h1>")%string;
     juice := fun html => html;
     saveNewsletter := fun _ _ => inr "123" |}.

Definition demo_candidates (n : nat) (score : Q) : list candidate :=
  replicate n {| url := "u"; importanceScore := score |}.

End ContentGenerate.

(** ** The newsletter query *)
Module GenerateNewsletterQuery.
Import ContentGenerate.

(** The object that [generateObject] returns under the schema of the
    query. *)
Record generated := {
  object_title : string;
  object_content : string;
  isWrittenInOutputLanguage : bool;
  copyrightVerified : bool;
  factAccuracy : bool
}.

Inductive event :=
  | EvGenerateObject (n : nat).      (* the n-th generateObject(...) *)

(** [pick(object, ['title', 'content'])] *)
Definition pick (object : generated) : CoreContent :=
  {| title := object_title object; content := object_content object |}.

Section Execute.
(** What the n-th call of the model answers. *)
Variable generateObject : nat -> jsvalue + generated.

(** [execute()] calls itself again as long as the answer fails one of its
    three checks; nothing bounds the number of calls, so the embedding
    counts them down from [fuel] and gives [None] when it runs out. *)
Fixpoint execute (fuel n : nat) : option (M event CoreContent) :=
  match fuel with
  | O => None
  | S fuel' =>
      match generateObject n with
      | inl e => Some (inl e, [EvGenerateObject n])
      | inr object =>
          let again :=
            match execute fuel' (S n) with
            | Some (r, t) => Some (r, EvGenerateObject n :: t)
            | None => None
            end in
          if negb (isWrittenInOutputLanguage object) then again
          else if negb (copyrightVerified object) then again
          else if negb (factAccuracy object) then again
          else Some (inr (pick object), [EvGenerateObject n])
      end
  end.

End Execute.

(** An answer that passes the three checks. *)
Definition verified (object : generated) : bool :=
  isWrittenInOutputLanguage object && copyrightVerified object
  && factAccuracy object.

(** A model whose third answer is the first one that passes. *)
Definition demo_generateObject (n : nat) : jsvalue + generated :=
  inr {| object_title := "Title"; object_content := "Body";
         isWrittenInOutputLanguage := true;
         copyrightVerified := (2 <=? n)%nat;
         factAccuracy := (3 <=? n)%nat |}.

End GenerateNewsletterQuery.

(** * Part II: properties *)

(** ** Properties of the fetcher *)
Module FetcherProofs.
Import Fetcher.

Lemma fetches_app (l1 l2 : list event) :
  fetches (l1 ++ l2) = (fetches l1 + fetches l2)%nat.
Proof. unfold fetches. by rewrite filter_app, length_app. Qed.

Lemma sleeps_app (l1 l2 : list event) :
  sleeps (l1 ++ l2) = sleeps l1 ++ sleeps l2.
Proof. unfold sleeps. apply omap_app. Qed.

Section Classification.
Variable toLowerCase : string -> string.

Lemma shouldRetry_429 e : shouldRetry toLowerCase (Some 429%Z) e = true.
Proof. reflexivity. Qed.

Lemma shouldRetry_5xx s e :
  (500 <= s)%Z -> shouldRetry toLowerCase (Some s) e = true.
Proof.
  intros Hs. unfold shouldRetry. case_decide; [done|].
  unfold status_and.
  replace (s =? 0)%Z with false by (symmetry; apply Z.eqb_neq; lia).
  replace (500 <=? s)%Z with true by (symmetry; apply Z.leb_le; lia).
  reflexivity.
Qed.

Lemma shouldRetry_4xx s e :
  (400 <= s < 500)%Z -> s <> 429%Z ->
  shouldRetry toLowerCase (Some s) e = false.
Proof.
  intros Hs Hne. unfold shouldRetry. case_decide; [congruence|].
  unfold status_and.
  replace (s =? 0)%Z with false by (symmetry; apply Z.eqb_neq; lia).
  replace (500 <=? s)%Z with false by (symmetry; apply Z.leb_gt; lia).
  replace (400 <=? s)%Z with true by (symmetry; apply Z.leb_le; lia).
  replace (s <? 500)%Z with true by (symmetry; apply Z.ltb_lt; lia).
  reflexivity.
Qed.

Lemma shouldRetry_thrown e :
  shouldRetry toLowerCase None e = transient toLowerCase e.
Proof. by destruct e. Qed.

End Classification.

Lemma not_ok_of_retry_status r :
  status r = 429%Z \/ (400 <= status r)%Z -> ok r = false.
Proof.
  intros H. unfold ok. apply andb_false_iff. right. apply Z.leb_gt. lia.
Qed.

(** [clamp] to [[0, 60000]] gives a finite number in that range, whatever
    non-NaN number comes in. *)
Lemma clamp_retry_range n :
  n <> NaN ->
  exists q, clamp n (Fin 0) (Fin 60000) = Fin q /\ (0 <= q <= 60000)%Q.
Proof.
  intros Hn. destruct n as [| | |q]; [done| | |].
  - exists 0%Q. split; [reflexivity|]. split; [apply Qle_refl|done].
  - exists 60000%Q. split; [reflexivity|]. split; [done|apply Qle_refl].
  - unfold clamp, Math_min, Math_max, num_leb.
    destruct (Qle_bool 60000 q) eqn:H1.
    + exists 60000%Q. split; [reflexivity|]. split; [done|apply Qle_refl].
    + destruct (Qle_bool 0 q) eqn:H2.
      * exists q. split; [reflexivity|]. split; [by apply Qle_bool_iff|].
        destruct (Qlt_le_dec q 60000) as [Hlt|Hle]; [by apply Qlt_le_weak|].
        apply Qle_bool_iff in Hle. congruence.
      * exists 0%Q. split; [reflexivity|]. split; [apply Qle_refl|done].
Qed.

(** [Math.max] of two finite numbers is the larger of the two. *)
Lemma Math_max_fin p q :
  exists d, Math_max (Fin p) (Fin q) = Fin d /\
            (p <= d)%Q /\ (q <= d)%Q /\ (d = p \/ d = q).
Proof.
  unfold Math_max, num_leb. destruct (Qle_bool p q) eqn:H.
  - exists q. repeat split; [by apply Qle_bool_iff|apply Qle_refl|by right].
  - exists p. repeat split; [apply Qle_refl| |by left].
    destruct (Qlt_le_dec q p) as [Hlt|Hle]; [by apply Qlt_le_weak|].
    apply Qle_bool_iff in Hle. congruence.
Qed.

(** [clamp] of a finite number between finite bounds is
    [max(lo, min(hi, x))]. *)
Lemma clamp_fin (x lo hi : Q) :
  (lo <= hi)%Q ->
  exists q, clamp (Fin x) (Fin lo) (Fin hi) = Fin q /\
            (q == Qmax lo (Qmin hi x))%Q.
Proof.
  intros Hb. unfold clamp, Math_min, Math_max, num_leb.
  destruct (Qle_bool hi x) eqn:H1.
  - apply Qle_bool_iff in H1.
    assert (Qle_bool lo hi = true) as -> by by apply Qle_bool_iff.
    exists hi. split; [done|].
    pose proof (Q.min_l hi x H1) as Hmin.
    assert (lo <= Qmin hi x)%Q as Hle by (rewrite Hmin; done).
    pose proof (Q.max_r lo _ Hle) as Hmax.
    rewrite Hmax. by symmetry.
  - assert (x < hi)%Q as Hx.
    { destruct (Qlt_le_dec x hi) as [Hlt|Hle]; [done|].
      apply Qle_bool_iff in Hle. congruence. }
    pose proof (Q.min_r hi x (Qlt_le_weak _ _ Hx)) as Hmin.
    destruct (Qle_bool lo x) eqn:H2.
    + apply Qle_bool_iff in H2. exists x. split; [done|].
      assert (lo <= Qmin hi x)%Q as Hle by (rewrite Hmin; done).
      rewrite (Q.max_r lo _ Hle). by symmetry.
    + exists lo. split; [done|].
      assert (Qmin hi x <= lo)%Q as Hle.
      { rewrite Hmin.
        destruct (Qlt_le_dec x lo) as [Hlt|Hle]; [by apply Qlt_le_weak|].
        apply Qle_bool_iff in Hle. congruence. }
      by rewrite (Q.max_l lo _ Hle).
Qed.

Section Run.
Variable toLowerCase : string -> string.
Variable Number : string -> jsnum.
Variable Date_getTime : string -> jsnum.
Variable Date_now : nat -> Q.
Variable Math_random : nat -> Q.
Variable fetch : nat -> fetch_result.
Variable url : string.

Local Abbreviation body :=
  (attempt_body toLowerCase Number Date_getTime Date_now Math_random fetch url).
Local Abbreviation loop :=
  (attempts toLowerCase Number Date_getTime Date_now Math_random fetch url).
Local Abbreviation parse := (parseRetryAfter Number Date_getTime).
Local Abbreviation run :=
  (getHtmlFromUrl toLowerCase Number Date_getTime Date_now Math_random fetch url).

Lemma on_catch_fetches k e before :
  fetches (snd (on_catch toLowerCase Math_random k e before)) = fetches before.
Proof.
  unfold on_catch. destruct (_ || _); simpl;
    rewrite fetches_app; simpl; unfold fetches; simpl; lia.
Qed.

(** Every iteration issues exactly one [fetch]. *)
Lemma body_fetches k : fetches (snd (body k)) = 1%nat.
Proof.
  unfold attempt_body. destruct (fetch k) as [r|e].
  - destruct (negb (ok r)).
    + destruct (_ || _); reflexivity.
    + destruct (text r) as [e|html].
      * rewrite on_catch_fetches. by destruct (negb _).
      * destruct (negb _); reflexivity.
  - by rewrite on_catch_fetches.
Qed.

(** The last permitted attempt never continues. *)
Lemma body_continue_lt k :
  is_continue (fst (body k)) = true -> k <> maxRetries.
Proof.
  intros H ->. revert H. unfold attempt_body, on_catch.
  destruct (fetch maxRetries) as [r|e]; simpl.
  - destruct (negb (ok r)).
    + by rewrite orb_true_r.
    + destruct (text r); [|done]. by rewrite orb_true_r.
  - by rewrite orb_true_r.
Qed.

(** A continuing iteration sleeps exactly once. *)
Lemma body_continue_sleeps k :
  is_continue (fst (body k)) = true ->
  exists d, sleeps (snd (body k)) = [d].
Proof.
  unfold attempt_body, on_catch. destruct (fetch k) as [r|e].
  - destruct (negb (ok r)).
    + destruct (_ || _); [done|]. eauto.
    + destruct (text r); [|done].
      destruct (_ || _); [done|]. intros _.
      destruct (negb _); eauto.
  - destruct (_ || _); [done|]. eauto.
Qed.

Lemma loop_fetches_le n a le : (fetches (snd (loop n a le)) <= n)%nat.
Proof.
  revert a le. induction n as [|n IH]; intros a le; simpl; [done|].
  pose proof (body_fetches a) as Hb.
  destruct (body a) as [s evs]. simpl in Hb.
  destruct s as [upd|e|o]; simpl; try lia.
  match goal with |- context [loop n (S a) ?l] =>
    specialize (IH (S a) l); destruct (loop n (S a) l) as [o rest] end.
  simpl in *. rewrite fetches_app. lia.
Qed.

Lemma loop_fetches_pos n a le : (1 <= fetches (snd (loop (S n) a le)))%nat.
Proof.
  simpl. pose proof (body_fetches a) as Hb.
  destruct (body a) as [s evs]. simpl in Hb.
  destruct s as [upd|e|o]; simpl; try lia.
  destruct (loop n (S a) _) as [o rest]. simpl. rewrite fetches_app. lia.
Qed.

(** The shape of a run: an attempt that is performed was preceded by
    continuing iterations only, each of which slept once; a continuing
    attempt is followed by another one, and any other attempt is the
    last and settles the call. *)
Lemma loop_spec n a le k :
  (a + n = S maxRetries)%nat ->
  (a <= k < a + fetches (snd (loop n a le)))%nat ->
  (is_continue (fst (body k)) = true ->
     (S k < a + fetches (snd (loop n a le)))%nat) /\
  (is_continue (fst (body k)) = false ->
     (a + fetches (snd (loop n a le)) = S k)%nat /\
     ends_with (fst (body k)) (fst (loop n a le))) /\
  (forall d, sleeps (snd (body k)) !! 0%nat = Some d ->
     sleeps (snd (loop n a le)) !! (k - a)%nat = Some d).
Proof.
  revert a le. induction n as [|n IH]; intros a le Hn Hk.
  { simpl in Hk. unfold fetches in Hk. simpl in Hk. lia. }
  pose proof (body_fetches a) as Hb.
  pose proof (body_continue_lt a) as Hlt.
  pose proof (body_continue_sleeps a) as Hsl.
  simpl in *. destruct (body a) as [s evs] eqn:Ha. simpl in *.
  destruct s as [upd|e|o]; simpl in *.
  - specialize (Hlt eq_refl). destruct (Hsl eq_refl) as [d0 Hd0].
    set (le' := match upd with Some e => Some e | None => le end) in *.
    specialize (IH (S a) le').
    destruct n as [|n]; [unfold maxRetries in *; lia|].
    pose proof (loop_fetches_pos n (S a) le') as Hpos.
    destruct (loop (S n) (S a) le') as [o rest] eqn:Hl. simpl in *.
    rewrite fetches_app, Hb in *. rewrite sleeps_app, Hd0.
    destruct (decide (k = a)) as [->|Hne].
    + rewrite Ha. simpl. replace (a - a)%nat with 0%nat by lia.
      rewrite Hd0. simpl. repeat split; try done; lia.
    + destruct (IH ltac:(lia) ltac:(lia)) as (H1 & H2 & H3).
      split; [intros Hc; specialize (H1 Hc); lia|].
      split; [intros Hc; destruct (H2 Hc); split; [lia|done]|].
      intros d Hd. specialize (H3 d Hd).
      replace (k - a)%nat with (S (k - S a)) by lia. done.
  - assert (k = a) as -> by lia. rewrite Ha. simpl.
    replace (a - a)%nat with 0%nat by lia.
    repeat split; try done; lia.
  - assert (k = a) as -> by lia. rewrite Ha. simpl.
    replace (a - a)%nat with 0%nat by lia.
    repeat split; try done; lia.
Qed.

(** What the iteration does, by the outcome of its [fetch]. *)
Lemma body_retry_status k r :
  fetch k = Resolved r -> (status r = 429 \/ 500 <= status r)%Z ->
  k <> maxRetries ->
  exists d, body k = (Continue None,
    [EvFetch k (timeoutMs k); EvDebug "fetch.error" k; EvSleep d]) /\
    d = match parse (Date_now k) (retry_after r) with
        | Some ra => Math_max ra (Fin (backoff Math_random k))
        | None => Fin (backoff Math_random k)
        end.
Proof.
  intros Hf Hs Hk. unfold attempt_body. rewrite Hf.
  rewrite not_ok_of_retry_status by lia. simpl.
  assert (shouldRetry toLowerCase (Some (status r)) JsNull = true) as ->.
  { destruct Hs as [->|Hs]; [done|by apply shouldRetry_5xx]. }
  simpl. apply Nat.eqb_neq in Hk. rewrite Hk. eauto.
Qed.

Lemma body_fatal_status k r :
  fetch k = Resolved r -> (400 <= status r < 500)%Z -> status r <> 429%Z ->
  fst (body k) = Break (RequestFailed (status r) url).
Proof.
  intros Hf Hs Hne. unfold attempt_body. rewrite Hf.
  rewrite not_ok_of_retry_status by lia. simpl.
  by rewrite shouldRetry_4xx.
Qed.

Lemma body_transient k e :
  thrown_in (fetch k) = Some e -> transient toLowerCase e = true -> k <> maxRetries ->
  is_continue (fst (body k)) = true.
Proof.
  intros Hf He Hk. apply Nat.eqb_neq in Hk.
  unfold attempt_body, on_catch, thrown_in in *.
  destruct (fetch k) as [r|e0].
  - destruct (ok r); [|done]. destruct (text r) as [e0|html]; [|done].
    injection Hf as ->. simpl. by rewrite shouldRetry_thrown, He, Hk.
  - injection Hf as ->. by rewrite shouldRetry_thrown, He, Hk.
Qed.

Lemma body_fatal_thrown k e :
  thrown_in (fetch k) = Some e -> transient toLowerCase e = false ->
  fst (body k) = Done (Throw (Some (Caught (message_of e)))).
Proof.
  intros Hf He. unfold attempt_body, on_catch, thrown_in in *.
  destruct (fetch k) as [r|e0].
  - destruct (ok r); [|done]. destruct (text r) as [e0|html]; [|done].
    injection Hf as ->. simpl. by rewrite shouldRetry_thrown, He.
  - injection Hf as ->. by rewrite shouldRetry_thrown, He.
Qed.

(** Whatever [parseRetryAfter] returns is finite and within
    [[0, 60000]] ms. *)
Lemma parseRetryAfter_range now header v :
  parse now header = Some v ->
  exists q, v = Fin q /\ (0 <= q <= 60000)%Q.
Proof.
  unfold parseRetryAfter. destruct header as [[|c h]|]; [done| |done].
  destruct (Number (String c h)) as [| | |s] eqn:Hs;
    cbn [Number_isNaN negb].
  - destruct (num_sub _ _) as [| | |d] eqn:Hd;
      cbn [Number_isFinite num_pos andb]; try done.
    destruct (negb (Qle_bool d 0)); [|done].
    intros Hv. injection Hv as <-. apply (clamp_retry_range (Fin d)). done.
  - intros Hv. injection Hv as <-. exists 0%Q. split; [reflexivity|].
    split; [apply Qle_refl|done].
  - intros Hv. injection Hv as <-. exists 60000%Q. split; [reflexivity|].
    split; [done|apply Qle_refl].
  - intros Hv. injection Hv as <-.
    apply (clamp_retry_range (Fin (s * 1000))). done.
Qed.

Lemma parseRetryAfter_seconds now h s :
  h <> EmptyString -> Number h = Fin s ->
  parse now (Some h) = Some (clamp (Fin (s * 1000)) (Fin 0) (Fin 60000)).
Proof.
  intros Hh Hs. unfold parseRetryAfter. destruct h; [done|].
  by rewrite Hs.
Qed.

Lemma parseRetryAfter_date now h t :
  h <> EmptyString -> Number h = NaN -> Date_getTime h = Fin t ->
  (now < t)%Q ->
  parse now (Some h) = Some (clamp (Fin (t - now)) (Fin 0) (Fin 60000)).
Proof.
  intros Hh Hs Ht Hlt. unfold parseRetryAfter. destruct h; [done|].
  rewrite Hs, Ht. cbn [Number_isNaN negb num_sub Number_isFinite num_pos andb].
  destruct (Qle_bool (t - now) 0) eqn:Hle; [|done].
  apply Qle_bool_iff in Hle. lra.
Qed.

Lemma parseRetryAfter_bad_date now h :
  Number h = NaN ->
  (Date_getTime h = NaN \/
   exists t, Date_getTime h = Fin t /\ (t <= now)%Q) ->
  parse now (Some h) = None.
Proof.
  intros Hs Hd. unfold parseRetryAfter. destruct h; [done|].
  rewrite Hs. simpl. destruct Hd as [->|(t & -> & Hle)]; [done|].
  simpl. destruct (Qle_bool (t - now) 0) eqn:Hb; [done|].
  assert (t - now <= 0)%Q as Hle' by lra.
  apply Qle_bool_iff in Hle'. congruence.
Qed.

(** C1 (as the code has it).  A call makes at most 5 attempts.  For an
    attempt [k] that is performed: a response with status 429 or >= 500
    is followed by another attempt (while [k < 5]); a response with any
    other 4xx status ends the call with the request failure; a thrown
    [Error] whose message, lower-cased by [toLowerCase], contains aborted,
    timeout, network or fetch is followed by another attempt (while
    [k < 5]); any other thrown value ends the call at once, and the call
    throws it. *)
Theorem getHtmlFromUrl_retry_policy :
  (fetches (snd run) <= 5)%nat /\
  forall k, (1 <= k <= fetches (snd run))%nat ->
    (forall r, fetch k = Resolved r ->
       (status r = 429 \/ 500 <= status r)%Z ->
       (k < 5)%nat -> (k < fetches (snd run))%nat) /\
    (forall r, fetch k = Resolved r ->
       (400 <= status r < 500)%Z -> status r <> 429%Z ->
       fetches (snd run) = k /\
       fst run = Throw (Some (RequestFailed (status r) url))) /\
    (forall e, thrown_in (fetch k) = Some e -> transient toLowerCase e = true ->
       (k < 5)%nat -> (k < fetches (snd run))%nat) /\
    (forall e, thrown_in (fetch k) = Some e -> transient toLowerCase e = false ->
       fetches (snd run) = k /\
       fst run = Throw (Some (Caught (message_of e)))).
Proof.
  split; [apply loop_fetches_le|].
  intros k Hk.
  destruct (loop_spec maxRetries 1 None k eq_refl
              ltac:(unfold getHtmlFromUrl in Hk; lia))
    as (Hcont & Hstop & _).
  fold run in Hcont, Hstop.
  split; [|split; [|split]].
  - intros r Hf Hs Hlt.
    destruct (body_retry_status k r Hf Hs) as (d & Hb & _);
      [unfold maxRetries; lia|].
    rewrite Hb in Hcont. specialize (Hcont eq_refl). lia.
  - intros r Hf Hs Hne.
    rewrite (body_fatal_status k r Hf Hs Hne) in Hstop.
    destruct (Hstop eq_refl) as [Hmade Hres]. split; [lia|exact Hres].
  - intros e Hf He Hlt.
    specialize (Hcont (body_transient k e Hf He
                         ltac:(unfold maxRetries; lia))).
    lia.
  - intros e Hf He.
    rewrite (body_fatal_thrown k e Hf He) in Hstop.
    destruct (Hstop eq_refl) as [Hmade Hres]. split; [lia|exact Hres].
Qed.

(** C2.  When attempt [k < 5] is performed and answered with status 429,
    the call then sleeps for a delay that is, with the backoff
    [2^(k-1) * 1000 + random * 1000] of the attempt: the larger of the
    backoff and the parsed [Retry-After] value when the header parses, the
    backoff alone when it does not.  The header parses as seconds when
    [Number] reads it, to [max(0, min(60000, seconds * 1000))], and
    otherwise as an HTTP date in the future, to
    [max(0, min(60000, date - now))]; an unparsable or past date, like a
    missing or empty header, gives no value. *)
Theorem retry_after_delay k r :
  (1 <= k <= fetches (snd run))%nat -> (k < 5)%nat ->
  fetch k = Resolved r -> status r = 429%Z ->
  (exists delay, sleeps (snd run) !! (k - 1)%nat = Some (Fin delay) /\
     match parse (Date_now k) (retry_after r) with
     | Some v =>
         exists q, v = Fin q /\ (0 <= q <= 60000)%Q /\
           (delay ==
            Qmax q (2 ^ Z.of_nat (k - 1) * 1000 + Math_random k * 1000))%Q /\
           (delay = q \/
            delay = (2 ^ Z.of_nat (k - 1) * 1000 + Math_random k * 1000)%Q)
     | None =>
         delay = (2 ^ Z.of_nat (k - 1) * 1000 + Math_random k * 1000)%Q
     end) /\
  (forall now h s, h <> EmptyString -> Number h = Fin s ->
     exists q, parse now (Some h) = Some (Fin q) /\
               (q == Qmax 0 (Qmin 60000 (s * 1000)))%Q) /\
  (forall now h, h <> EmptyString ->
     (Number h = PosInf -> parse now (Some h) = Some (Fin 60000)) /\
     (Number h = NegInf -> parse now (Some h) = Some (Fin 0))) /\
  (forall now h t, h <> EmptyString -> Number h = NaN ->
     Date_getTime h = Fin t -> (now < t)%Q ->
     exists q, parse now (Some h) = Some (Fin q) /\
               (q == Qmax 0 (Qmin 60000 (t - now)))%Q) /\
  (forall now h, Number h = NaN ->
     (Date_getTime h = NaN \/
      exists t, Date_getTime h = Fin t /\ (t <= now)%Q) ->
     parse now (Some h) = None) /\
  (forall now, parse now None = None /\ parse now (Some EmptyString) = None).
Proof.
  intros Hk Hlt Hf Hs.
  split; [|split; [|split; [|split; [|split]]]].
  - destruct (loop_spec maxRetries 1 None k eq_refl
                ltac:(unfold getHtmlFromUrl in Hk; lia)) as (_ & _ & Hsl).
    fold run in Hsl.
    destruct (body_retry_status k r Hf (or_introl Hs)) as (d & Hb & Hd);
      [unfold maxRetries; lia|].
    rewrite Hb in Hsl. specialize (Hsl d eq_refl).
    unfold backoff in Hd.
    destruct (parse (Date_now k) (retry_after r)) as [v|] eqn:Hp.
    + destruct (parseRetryAfter_range _ _ _ Hp) as (q & -> & Hq).
      destruct (Math_max_fin q
                  (2 ^ Z.of_nat (k - 1) * 1000 + Math_random k * 1000))
        as (m & Hm & H1 & H2 & H3).
      exists m. split; [by rewrite Hsl, Hd, Hm|].
      exists q. split; [done|]. split; [done|]. split; [|done].
      destruct H3 as [-> | ->].
      * symmetry. by apply Q.max_l.
      * symmetry. by apply Q.max_r.
    + eexists. split; [by rewrite Hsl, Hd|done].
  - intros now h s Hh Hn. rewrite (parseRetryAfter_seconds now h s Hh Hn).
    destruct (clamp_fin (s * 1000) 0 60000) as (q & -> & Hq); [done|].
    by exists q.
  - intros now h Hh. unfold parseRetryAfter. destruct h; [done|].
    split; intros ->; reflexivity.
  - intros now h t Hh Hn Ht Hlt'.
    rewrite (parseRetryAfter_date now h t Hh Hn Ht Hlt').
    destruct (clamp_fin (t - now) 0 60000) as (q & -> & Hq); [done|].
    by exists q.
  - apply parseRetryAfter_bad_date.
  - done.
Qed.

End Run.

Lemma getHtmlFromUrl_retry_policy_witness :
  fetches (snd (getHtmlFromUrl demo_toLowerCase demo_Number demo_getTime demo_now
                  demo_random demo_fetch_404 "https://site.test")) = 3%nat /\
  fst (getHtmlFromUrl demo_toLowerCase demo_Number demo_getTime demo_now
         demo_random demo_fetch_404 "https://site.test")
  = Throw (Some (RequestFailed 404 "https://site.test")).
Proof.
  destruct (getHtmlFromUrl_retry_policy demo_toLowerCase demo_Number demo_getTime
              demo_now demo_random demo_fetch_404 "https://site.test")
    as [_ H].
  destruct (H 3%nat) as (_ & H404 & _).
  - vm_compute. lia.
  - apply (H404 _ eq_refl).
    + simpl. lia.
    + simpl. lia.
Defined.

Lemma retry_after_delay_witness :
  exists delay,
    sleeps (snd (getHtmlFromUrl demo_toLowerCase demo_Number demo_getTime
                   demo_now demo_random demo_fetch_429 "https://rate.test"))
      !! 0%nat
    = Some (Fin delay) /\ (delay == 2000)%Q.
Proof.
  destruct (retry_after_delay demo_toLowerCase demo_Number demo_getTime
              demo_now demo_random demo_fetch_429 "https://rate.test" 1%nat
              (Response 429 (Some "2") (Some "text/html") (inr "<html/>")))
    as [(delay & Hs & Hd) _].
  - vm_compute. lia.
  - lia.
  - reflexivity.
  - reflexivity.
  - exists delay. split; [exact Hs|].
    destruct Hd as (q & Hq & _ & Hmax & _).
    injection Hq as <-. rewrite Hmax. unfold Qeq. by vm_compute.
Defined.

(** C1 as the specification words it fails: an [Error] whose message
    mentions "abort" (but not "aborted") is not retried; the call ends
    after this one attempt and throws the error.  The message is made of
    ASCII characters, which [toLowerCase] lower-cases as
    [demo_toLowerCase] does. *)
Lemma getHtmlFromUrl_abort_not_retried :
  spec_retry_words demo_toLowerCase "Request abort" = true /\
  fetches (snd (getHtmlFromUrl demo_toLowerCase demo_Number demo_getTime
                  demo_now demo_random
                  (fun _ => Rejected (JsError "Request abort"))
                  "https://site.test")) = 1%nat /\
  fst (getHtmlFromUrl demo_toLowerCase demo_Number demo_getTime demo_now
         demo_random (fun _ => Rejected (JsError "Request abort"))
         "https://site.test")
  = Throw (Some (Caught "Request abort")).
Proof. repeat split; reflexivity. Qed.

(** *** Further properties of a call *)

Lemma failures_app l1 l2 : failures (l1 ++ l2) = (failures l1 + failures l2)%nat.
Proof. unfold failures. by rewrite List.filter_app, length_app. Qed.



Lemma elem_of_concat {A} (x : A) (ls : list (list A)) :
  x ∈ concat ls <-> exists l, l ∈ ls /\ x ∈ l.
Proof.
  induction ls as [|l ls IH]; simpl.
  - split; [intros Hin; inversion Hin|intros (l & Hin & _); inversion Hin].
  - rewrite elem_of_app, IH. split.
    + intros [Hin|(l' & Hl & Hin)].
      * exists l. split; [left|done].
      * exists l'. split; [by right|done].
    + intros (l' & Hl & Hin). apply elem_of_cons in Hl as [->|Hl].
      * by left.
      * right. by exists l'.
Qed.

Section Outcomes.
Variable toLowerCase : string -> string.
Variable Number : string -> jsnum.
Variable Date_getTime : string -> jsnum.
Variable Date_now : nat -> Q.
Variable Math_random : nat -> Q.
Variable fetch : nat -> fetch_result.
Variable url : string.

Local Abbreviation body :=
  (attempt_body toLowerCase Number Date_getTime Date_now Math_random fetch url).
Local Abbreviation loop :=
  (attempts toLowerCase Number Date_getTime Date_now Math_random fetch url).
Local Abbreviation parse := (parseRetryAfter Number Date_getTime).
Local Abbreviation run :=
  (getHtmlFromUrl toLowerCase Number Date_getTime Date_now Math_random fetch url).

(** The attempt that settles the call is the last one performed. *)
Lemma last_attempt :
  (1 <= fetches (snd run) <= 5)%nat /\
  is_continue (fst (body (fetches (snd run)))) = false /\
  ends_with (fst (body (fetches (snd run)))) (fst run).
Proof.
  pose proof (loop_fetches_le toLowerCase Number Date_getTime Date_now Math_random fetch
                url maxRetries 1 None) as Hle.
  pose proof (loop_fetches_pos toLowerCase Number Date_getTime Date_now Math_random fetch
                url 4 1 None) as Hpos.
  change (loop 5 1 None) with run in Hpos.
  change (loop maxRetries 1 None) with run in Hle.
  unfold maxRetries in Hle.
  destruct (loop_spec toLowerCase Number Date_getTime Date_now Math_random fetch url
              maxRetries 1 None (fetches (snd run)) eq_refl) as (Hcont & Hstop & _).
  { change (loop maxRetries 1 None) with run. lia. }
  change (loop maxRetries 1 None) with run in Hcont, Hstop.
  split; [lia|].
  destruct (is_continue (fst (body (fetches (snd run))))) eqn:Hc.
  - specialize (Hcont eq_refl). lia.
  - split; [done|]. by destruct (Hstop eq_refl).
Qed.

(** What the [catch] block and the loop body can settle with. *)
Lemma on_catch_settles k e before :
  match fst (on_catch toLowerCase Math_random k e before) with
  | Continue (Some _) => True
  | Done (Throw (Some (Caught m))) => m = message_of e
  | _ => False
  end.
Proof. unfold on_catch. by destruct (_ || _). Qed.

Lemma body_settles k :
  match fst (body k) with
  | Continue _ => True
  | Break (RequestFailed _ _) => True
  | Done (Return _) => True
  | Done (Throw (Some (Caught _))) => True
  | _ => False
  end.
Proof.
  unfold attempt_body. destruct (fetch k) as [r|e].
  - destruct (negb (ok r)).
    + by destruct (_ || _).
    + destruct (text r) as [e|html]; [|done].
      pose proof (on_catch_settles k e
        (if negb (includes "text/html"
                    (toLowerCase (default EmptyString (content_type r))))
         then [EvFetch k (timeoutMs k)] ++ [EvDebug "fetch.nonHtml" k]
         else [EvFetch k (timeoutMs k)])) as H.
      destruct (fst (on_catch _ _ _ _ _)) as [[?|]|?|[?|[[]|]]]; done.
  - pose proof (on_catch_settles k e [EvFetch k (timeoutMs k)]) as H.
    destruct (fst (on_catch _ _ _ _ _)) as [[?|]|?|[?|[[]|]]]; done.
Qed.

(** X2.  A call of [getHtmlFromUrl] either returns a page or throws an
    [Error]: the final [throw lastError] is never reached with
    [lastError] still [null]. *)
Theorem getHtmlFromUrl_settles :
  (exists html,
     fst (getHtmlFromUrl toLowerCase Number Date_getTime Date_now Math_random fetch url)
     = Return html) \/
  (exists e,
     fst (getHtmlFromUrl toLowerCase Number Date_getTime Date_now Math_random fetch url)
     = Throw (Some e)).
Proof.
  destruct last_attempt as (_ & Hc & He).
  pose proof (body_settles (fetches (snd run))) as Hs.
  destruct (fst (body (fetches (snd run)))) as [upd|e|[html|[e|]]];
    simpl in *; try done; eauto.
Qed.

Lemma body_return k html :
  fst (body k) = Done (Return html) ->
  exists r, fetch k = Resolved r /\ ok r = true /\ text r = inr html.
Proof.
  unfold attempt_body, on_catch. destruct (fetch k) as [r|e].
  - destruct (ok r) eqn:Hok; simpl.
    + destruct (text r) as [e|h] eqn:Ht.
      * by destruct (_ || _).
      * intros [= <-]. eauto.
    + by destruct (_ || _).
  - by destruct (_ || _).
Qed.

(** X3.  What a call returns is the body of the response to its last
    attempt, and that response was ok: no page is returned from a failed
    response, nor from an earlier attempt. *)
Theorem getHtmlFromUrl_returns_fetched_body html :
  fst run = Return html ->
  exists k r, (1 <= k <= 5)%nat /\ fetches (snd run) = k /\
              fetch k = Resolved r /\ ok r = true /\ text r = inr html.
Proof.
  intros Hr. destruct last_attempt as (Hk & Hc & He).
  rewrite Hr in He.
  destruct (fst (body (fetches (snd run)))) as [upd|e|o] eqn:Hb;
    simpl in *; try done. subst o.
  destruct (body_return _ _ Hb) as (r & Hf & Hok & Ht).
  exists (fetches (snd run)), r. done.
Qed.

(** The trace of a call is that of its attempts, one after the other. *)
Lemma loop_trace n a le :
  snd (loop n a le)
  = concat (map (fun j => snd (body j)) (seq a (fetches (snd (loop n a le))))).
Proof.
  revert a le. induction n as [|n IH]; intros a le; [done|].
  simpl. pose proof (body_fetches toLowerCase Number Date_getTime Date_now Math_random
                       fetch url a) as Hb.
  destruct (body a) as [s evs] eqn:Ha. simpl in Hb.
  destruct s as [upd|e|o]; simpl.
  - match goal with |- context [loop n (S a) ?l] =>
      specialize (IH (S a) l); destruct (loop n (S a) l) as [o rest] end.
    simpl in *. rewrite fetches_app, Hb. simpl. rewrite Ha. simpl.
    by rewrite <- IH.
  - rewrite Hb. simpl. by rewrite Ha, app_nil_r.
  - rewrite Hb. simpl. by rewrite Ha, app_nil_r.
Qed.

Lemma run_trace :
  snd run = concat (map (fun j => snd (body j)) (seq 1 (fetches (snd run)))).
Proof. apply loop_trace. Qed.

(** The log entries of an attempt carry its number. *)
Lemma on_catch_debug k e before name j :
  EvDebug name j ∈ snd (on_catch toLowerCase Math_random k e before) ->
  EvDebug name j ∈ before \/ (name = "fetch.catch" /\ j = k).
Proof.
  unfold on_catch. destruct (_ || _); simpl; intros Hin;
    apply elem_of_app in Hin as [Hin|Hin]; auto;
    repeat (apply elem_of_cons in Hin as [Hin|Hin]; [try done|]);
    try (by inversion Hin); right; by injection Hin as -> ->.
Qed.

Lemma body_debug k name j :
  EvDebug name j ∈ snd (body k) -> j = k.
Proof.
  unfold attempt_body. destruct (fetch k) as [r|e].
  - destruct (negb (ok r)).
    + destruct (_ || _); simpl; intros Hin;
        repeat (apply elem_of_cons in Hin as [Hin|Hin]; [try done|]);
        try (by inversion Hin); by injection Hin as _ ->.
    + destruct (text r) as [e|html].
      * intros Hin. apply on_catch_debug in Hin as [Hin|[_ ->]]; [|done].
        destruct (negb _); simpl in Hin;
        repeat (apply elem_of_cons in Hin as [Hin|Hin]; [try done|]);
        try (by inversion Hin); by injection Hin as _ ->.
      * destruct (negb _); simpl; intros Hin;
        repeat (apply elem_of_cons in Hin as [Hin|Hin]; [try done|]);
        try (by inversion Hin); by injection Hin as _ ->.
  - intros Hin. apply on_catch_debug in Hin as [Hin|[_ ->]]; [|done].
    repeat (apply elem_of_cons in Hin as [Hin|Hin]; [try done|]).
    by inversion Hin.
Qed.

Lemma run_debug name k :
  EvDebug name k ∈ snd run <->
  (1 <= k <= fetches (snd run))%nat /\ EvDebug name k ∈ snd (body k).
Proof.
  rewrite run_trace at 1. rewrite elem_of_concat. split.
  - intros (l & Hl & Hin). apply list_elem_of_fmap in Hl as (j & -> & Hj).
    apply elem_of_seq in Hj. pose proof (body_debug _ _ _ Hin) as ->.
    split; [lia|done].
  - intros [Hk Hin]. exists (snd (body k)). split; [|done].
    apply list_elem_of_fmap. exists k. split; [done|].
    apply elem_of_seq. lia.
Qed.

(** How a performed attempt that does not continue settles the call. *)
Lemma settled_by k :
  (1 <= k <= fetches (snd run))%nat ->
  is_continue (fst (body k)) = false ->
  fetches (snd run) = k /\ ends_with (fst (body k)) (fst run).
Proof.
  intros Hk Hc.
  destruct (loop_spec toLowerCase Number Date_getTime Date_now Math_random fetch url
              maxRetries 1 None k eq_refl) as (_ & Hstop & _).
  { change (loop maxRetries 1 None) with run. lia. }
  change (loop maxRetries 1 None) with run in Hstop.
  destruct (Hstop Hc) as [Hn He]. split; [lia|done].
Qed.

Lemma body_success k r html :
  fetch k = Resolved r -> ok r = true -> text r = inr html ->
  body k =
  (Done (Return html),
   [EvFetch k (timeoutMs k)]
   ++ (if includes "text/html"
            (toLowerCase (default EmptyString (content_type r)))
       then [] else [EvDebug "fetch.nonHtml" k])
   ++ [EvDebug "fetch.success" k;
       EvSleep (Fin (Math_random k * 500 + 250))]).
Proof.
  intros Hf Hok Ht. unfold attempt_body. rewrite Hf, Hok, Ht. simpl.
  by destruct (includes _ _).
Qed.

(** X4.  The content type is not a condition: when a performed attempt
    is answered with an ok response whose body can be read, the call
    returns that body and makes no further attempt, whatever the
    [content-type] header says; the [fetch.nonHtml] entry is logged
    exactly when the header does not mention text/html. *)
Theorem getHtmlFromUrl_serves_any_content_type k r html :
  (1 <= k <= fetches (snd run))%nat ->
  fetch k = Resolved r -> ok r = true -> text r = inr html ->
  fst run = Return html /\ fetches (snd run) = k /\
  (EvDebug "fetch.nonHtml" k ∈ snd run <->
   includes "text/html" (toLowerCase (default EmptyString (content_type r)))
   = false).
Proof.
  intros Hk Hf Hok Ht. pose proof (body_success k r html Hf Hok Ht) as Hb.
  destruct (settled_by k Hk) as [Hn He]; [by rewrite Hb|].
  rewrite Hb in He. simpl in He.
  split; [done|]. split; [done|].
  rewrite run_debug, Hb. simpl.
  destruct (includes _ _); simpl; split; try done.
  - intros [_ Hin].
    repeat (apply elem_of_cons in Hin as [Hin|Hin]; [try done|]).
    by inversion Hin.
  - intros _. split; [done|]. right. left.
Qed.

Lemma shouldRetry_other_status s :
  s <> 429%Z -> (s < 500)%Z -> shouldRetry toLowerCase (Some s) JsNull = false.
Proof.
  intros Hne Hs. unfold shouldRetry. case_decide; [congruence|].
  unfold status_and.
  replace (500 <=? s)%Z with false by (symmetry; apply Z.leb_gt; lia).
  rewrite andb_false_r. by destruct (_ && _).
Qed.

(** X5.  Every response that is not ok and whose status is neither 429
    nor 5xx ends the call at once with the request failure: not only the
    4xx statuses, also the statuses below 400 (a 304, say) and the status
    0. *)
Theorem getHtmlFromUrl_fatal_status k r :
  (1 <= k <= fetches (snd run))%nat ->
  fetch k = Resolved r -> ok r = false ->
  status r <> 429%Z -> (status r < 500)%Z ->
  fetches (snd run) = k /\
  fst run = Throw (Some (RequestFailed (status r) url)).
Proof.
  intros Hk Hf Hok Hne Hs.
  assert (body k = (Break (RequestFailed (status r) url),
                    [EvFetch k (timeoutMs k); EvDebug "fetch.error" k]))
    as Hb.
  { unfold attempt_body. rewrite Hf, Hok. simpl.
    by rewrite shouldRetry_other_status. }
  destruct (settled_by k Hk) as [Hn He]; [by rewrite Hb|].
  rewrite Hb in *. done.
Qed.

(** The shape of a call: [k] attempts, of which all but the last one
    continue, and the last one settles the call. *)
Lemma run_shape :
  exists k, (1 <= S k <= 5)%nat /\ fetches (snd run) = S k /\
    Forall (fun j => is_continue (fst (body j)) = true) (seq 1 k) /\
    is_continue (fst (body (S k))) = false /\
    ends_with (fst (body (S k))) (fst run) /\
    snd run = concat (map (fun j => snd (body j)) (seq 1 k))
              ++ snd (body (S k)).
Proof.
  destruct last_attempt
    as (Hk & Hc & He).
  destruct (fetches (snd run)) as [|k] eqn:Hn; [lia|].
  exists k. split; [done|]. split; [done|].
  split; [|split; [done|split; [done|]]].
  - apply Forall_forall. intros j Hj. apply elem_of_seq in Hj.
    destruct (is_continue (fst (body j))) eqn:Hcj; [done|].
    destruct (settled_by
                j) as [Heq _]; [lia|done|lia].
  - rewrite run_trace.
    rewrite Hn. replace (S k) with (k + 1)%nat at 1 by lia.
    rewrite seq_app, map_app, concat_app. simpl.
    rewrite app_nil_r. repeat f_equal; lia.
Qed.

Lemma continuing_sleeps (l : list nat) :
  Forall (fun j => is_continue (fst (body j)) = true) l ->
  length (sleeps (concat (map (fun j => snd (body j)) l))) = length l.
Proof.
  induction 1 as [|j l Hj _ IH]; [done|]. simpl.
  rewrite sleeps_app, length_app, IH.
  destruct (body_continue_sleeps toLowerCase Number Date_getTime Date_now Math_random
              fetch url j Hj) as [d ->]. done.
Qed.

Lemma body_failures k :
  failures (snd (body k))
  = match fst (body k) with
    | Done (Throw (Some (Caught _))) => 1%nat
    | _ => 0%nat
    end.
Proof.
  unfold attempt_body, on_catch. destruct (fetch k) as [r|e].
  - destruct (negb (ok r)).
    + by destruct (_ || _).
    + destruct (text r) as [e|html].
      * destruct (_ || _); destruct (negb _); reflexivity.
      * destruct (negb _); reflexivity.
  - by destruct (_ || _).
Qed.

Lemma continuing_failures (l : list nat) :
  Forall (fun j => is_continue (fst (body j)) = true) l ->
  failures (concat (map (fun j => snd (body j)) l)) = 0%nat.
Proof.
  induction 1 as [|j l Hj _ IH]; [done|]. simpl.
  rewrite failures_app, IH, body_failures.
  by destruct (fst (body j)).
Qed.

(** The sleeps of the last attempt: one after a success, none before a
    throw. *)
Lemma last_sleeps k :
  is_continue (fst (body k)) = false ->
  length (sleeps (snd (body k)))
  = match fst (body k) with Done (Return _) => 1%nat | _ => 0%nat end.
Proof.
  unfold attempt_body, on_catch. destruct (fetch k) as [r|e].
  - destruct (negb (ok r)).
    + by destruct (_ || _).
    + destruct (text r) as [e|html].
      * destruct (_ || _); [|done]. by destruct (negb _).
      * by destruct (negb _).
  - by destruct (_ || _).
Qed.

(** X6.  A call sleeps once after each attempt that is followed by
    another one, once more after a success, and never before it throws: a
    call that returns sleeps as often as it fetches, a call that throws
    sleeps once less. *)
Theorem getHtmlFromUrl_sleeps_count :
  length (sleeps (snd run))
  = match fst run with
    | Return _ => fetches (snd run)
    | Throw _ => (fetches (snd run) - 1)%nat
    end.
Proof.
  destruct run_shape as (k & Hk & Hn & Hall & Hc & He & Ht).
  rewrite Hn, Ht, sleeps_app, length_app, (continuing_sleeps _ Hall),
    length_seq, (last_sleeps _ Hc).
  destruct (fst (body (S k))) as [upd|e|[html|e]]; simpl in *;
    try done; rewrite He; lia.
Qed.

(** X7.  The [fetch.failed] error entry is logged exactly once when
    the call throws an error caught from [fetch] or [response.text()], and
    not at all otherwise: a call that gives up because of an HTTP status
    throws without that entry. *)
Theorem fetch_failed_logged_iff_caught :
  failures (snd run)
  = match fst run with
    | Throw (Some (Caught _)) => 1%nat
    | _ => 0%nat
    end.
Proof.
  destruct run_shape as (k & Hk & Hn & Hall & Hc & He & Ht).
  rewrite Ht, failures_app, (continuing_failures _ Hall), body_failures.
  destruct (fst (body (S k))) as [upd|e|[html|e]] eqn:Hb; simpl in *;
    try done; rewrite He; try done.
  pose proof (body_settles (S k)) as Hs.
  rewrite Hb in Hs. by destruct e.
Qed.

(** X8.  When every attempt is answered with status 429 or 5xx, the
    call makes its 5 attempts with 4 sleeps between them and throws the
    request failure of the last response; no [fetch.failed] entry is
    logged. *)
Theorem getHtmlFromUrl_exhausted_by_status :
  (forall k, (1 <= k <= 5)%nat ->
     exists r, fetch k = Resolved r /\ (status r = 429 \/ 500 <= status r)%Z) ->
  fetches (snd run) = 5%nat /\
  length (sleeps (snd run)) = 4%nat /\
  failures (snd run) = 0%nat /\
  exists r, fetch 5%nat = Resolved r /\
            fst run = Throw (Some (RequestFailed (status r) url)).
Proof.
  intros Hall5.
  destruct run_shape as (k & Hk & Hn & Hall & Hc & He & Ht).
  assert (S k = 5)%nat as Hk5.
  { destruct (decide (S k = 5)) as [|Hne]; [done|].
    destruct (Hall5 (S k)) as (r & Hf & Hs); [lia|].
    destruct (body_retry_status toLowerCase Number Date_getTime Date_now Math_random
                fetch url (S k) r Hf Hs) as (d & Hb & _);
      [unfold maxRetries; lia|].
    rewrite Hb in Hc. done. }
  destruct (Hall5 5%nat) as (r & Hf & Hs); [lia|].
  assert (body 5 = (Break (RequestFailed (status r) url),
                    [EvFetch 5 (timeoutMs 5); EvDebug "fetch.error" 5]))
    as Hb.
  { unfold attempt_body. rewrite Hf.
    rewrite not_ok_of_retry_status by lia. simpl.
    by rewrite orb_true_r. }
  rewrite Hk5 in *. rewrite Hb in He. simpl in He.
  split; [done|]. split; [|split].
  - rewrite Ht, sleeps_app, length_app, (continuing_sleeps _ Hall),
      length_seq, Hb. simpl. lia.
  - rewrite Ht, failures_app, (continuing_failures _ Hall), Hb. done.
  - by exists r.
Qed.

Lemma backoff_range k :
  (0 <= Math_random k <= 1)%Q -> (1 <= k <= 4)%nat ->
  (1000 <= backoff Math_random k <= 9000)%Q.
Proof.
  intros Hr Hk. unfold backoff.
  destruct k as [|[|[|[|[|k]]]]]; try lia.
  - change (2 ^ Z.of_nat (1 - 1))%Q with 1%Q. lra.
  - change (2 ^ Z.of_nat (2 - 1))%Q with 2%Q. lra.
  - change (2 ^ Z.of_nat (3 - 1))%Q with 4%Q. lra.
  - change (2 ^ Z.of_nat (4 - 1))%Q with 8%Q. lra.
Qed.

Lemma body_sleeps_bounded k :
  (0 <= Math_random k <= 1)%Q -> (1 <= k <= 5)%nat ->
  Forall bounded_sleep (sleeps (snd (body k))).
Proof.
  intros Hr Hk.
  assert ((k =? maxRetries)%nat = false ->
          (1000 <= backoff Math_random k <= 9000)%Q) as Hbk.
  { intros Hne. apply Nat.eqb_neq in Hne. unfold maxRetries in Hne.
    apply backoff_range; [done|lia]. }
  assert (bounded_sleep (Fin (Math_random k * 500 + 250))) as Hok.
  { eexists. split; [done|]. lra. }
  assert ((k =? maxRetries)%nat = false ->
          bounded_sleep (Fin (backoff Math_random k))) as Hbo.
  { intros Hne. specialize (Hbk Hne). eexists. split; [done|]. lra. }
  unfold attempt_body, on_catch. destruct (fetch k) as [r|e].
  - destruct (negb (ok r)).
    + destruct (negb _) eqn:Hcr; simpl; [constructor|].
      destruct (k =? maxRetries)%nat eqn:Hkm; simpl; [constructor|].
      specialize (Hbk eq_refl).
      constructor; [|constructor].
      destruct (parse (Date_now k) (retry_after r)) as [v|] eqn:Hp;
        [|by apply Hbo].
      destruct (parseRetryAfter_range Number Date_getTime _ _ _ Hp)
        as (q & -> & Hq).
      destruct (Math_max_fin q (backoff Math_random k))
        as (m & -> & H1 & H2 & [->| ->]); eexists; (split; [done|]); lra.
    + destruct (text r) as [e|html].
      * destruct (negb (shouldRetry _ _ _)); simpl;
          [destruct (negb _); simpl; constructor|].
        destruct (k =? maxRetries)%nat eqn:Hkm; simpl;
          destruct (negb _); simpl; repeat constructor; by apply Hbo.
      * destruct (negb _); simpl; repeat constructor; done.
  - destruct (negb (shouldRetry _ _ _)); simpl; [constructor|].
    destruct (k =? maxRetries)%nat eqn:Hkm; simpl;
      repeat constructor; by apply Hbo.
Qed.

(** X9.  Every sleep of a call is finite and lasts between 250 ms and
    one minute, as long as [Math.random] draws from [[0, 1]]. *)
Theorem getHtmlFromUrl_sleeps_bounded :
  (forall k, (0 <= Math_random k <= 1)%Q) ->
  Forall bounded_sleep (sleeps (snd run)).
Proof.
  intros Hr.
  rewrite run_trace.
  destruct last_attempt
    as (Hk & _ & _).
  assert (Forall (fun j => 1 <= j <= 5)%nat (seq 1 (fetches (snd run))))
    as Hall.
  { apply Forall_forall. intros j Hj. apply elem_of_seq in Hj. lia. }
  induction Hall as [|j l Hj _ IH]; simpl; [constructor|].
  rewrite sleeps_app. apply Forall_app. split; [|done].
  by apply body_sleeps_bounded.
Qed.

End Outcomes.

Lemma getHtmlFromUrl_returns_fetched_body_witness :
  exists k r, (1 <= k <= 5)%nat /\
    fetches (snd (getHtmlFromUrl demo_toLowerCase demo_Number demo_getTime demo_now
                    demo_random demo_fetch_429 "https://rate.test")) = k /\
    demo_fetch_429 k = Resolved r /\ ok r = true /\ text r = inr "<html/>".
Proof.
  apply (getHtmlFromUrl_returns_fetched_body demo_toLowerCase demo_Number demo_getTime demo_now
           demo_random demo_fetch_429 "https://rate.test" "<html/>").
  reflexivity.
Defined.

Lemma getHtmlFromUrl_serves_any_content_type_witness :
  fst (getHtmlFromUrl demo_toLowerCase demo_Number demo_getTime demo_now demo_random
         demo_fetch_json "https://api.test") = Return "{}" /\
  EvDebug "fetch.nonHtml" 1
  ∈ snd (getHtmlFromUrl demo_toLowerCase demo_Number demo_getTime demo_now demo_random
           demo_fetch_json "https://api.test").
Proof.
  destruct (getHtmlFromUrl_serves_any_content_type demo_toLowerCase demo_Number demo_getTime
              demo_now demo_random demo_fetch_json "https://api.test" 1%nat
              (Response 200 None (Some "application/json") (inr "{}")) "{}")
    as (Hr & _ & Hn).
  - vm_compute. lia.
  - reflexivity.
  - reflexivity.
  - reflexivity.
  - split; [exact Hr|]. apply Hn. reflexivity.
Defined.

Lemma getHtmlFromUrl_fatal_status_witness :
  fetches (snd (getHtmlFromUrl demo_toLowerCase demo_Number demo_getTime demo_now demo_random
                  demo_fetch_304 "https://site.test")) = 1%nat /\
  fst (getHtmlFromUrl demo_toLowerCase demo_Number demo_getTime demo_now demo_random
         demo_fetch_304 "https://site.test")
  = Throw (Some (RequestFailed 304 "https://site.test")).
Proof.
  destruct (getHtmlFromUrl_fatal_status demo_toLowerCase demo_Number demo_getTime
              demo_now demo_random demo_fetch_304 "https://site.test" 1%nat
              (Response 304 None (Some "text/html") (inr "<html/>")))
    as (Hn & Hr).
  - vm_compute. lia.
  - reflexivity.
  - reflexivity.
  - simpl. lia.
  - simpl. lia.
  - split; [exact Hn|exact Hr].
Defined.

Lemma getHtmlFromUrl_exhausted_by_status_witness :
  fetches (snd (getHtmlFromUrl demo_toLowerCase demo_Number demo_getTime demo_now demo_random
                  demo_fetch_503 "https://site.test")) = 5%nat /\
  fst (getHtmlFromUrl demo_toLowerCase demo_Number demo_getTime demo_now demo_random
         demo_fetch_503 "https://site.test")
  = Throw (Some (RequestFailed 503 "https://site.test")).
Proof.
  destruct (getHtmlFromUrl_exhausted_by_status demo_toLowerCase demo_Number demo_getTime
              demo_now demo_random demo_fetch_503 "https://site.test")
    as (Hn & _ & _ & r & Hf & Hr).
  - intros k _. eexists. split; [reflexivity|]. right. simpl. lia.
  - split; [exact Hn|]. injection Hf as <-. exact Hr.
Defined.

Lemma getHtmlFromUrl_sleeps_bounded_witness :
  Forall bounded_sleep
    (sleeps (snd (getHtmlFromUrl demo_toLowerCase demo_Number demo_getTime demo_now
                    demo_random demo_fetch_429 "https://rate.test"))).
Proof.
  apply getHtmlFromUrl_sleeps_bounded.
  intros k. unfold demo_random. split; lra.
Defined.

End FetcherProofs.

(** ** Properties of the event monad *)
Section EffectsProofs.
Context {Ev : Type} `{Logger Ev}.

Lemma result_executeWithLogging {A} event level (fn : M Ev A) :
  result (executeWithLogging event level fn) = result fn.
Proof. destruct fn as [[e|a] t]; reflexivity. Qed.

Lemma trace_executeWithLogging {A} event level (fn : M Ev A) :
  trace (executeWithLogging event level fn)
  = log_event (LogMsg level (event ++ ".start")) :: trace fn
    ++ match result fn with
       | inr _ => [log_event (LogMsg level (event ++ ".done"))]
       | inl err => [log_event (LogMsg level (event ++ ".error"));
                     log_event (LogRaw err)]
       end.
Proof.
  destruct fn as [[e|a] t]; unfold executeWithLogging; simpl;
    by rewrite ?app_nil_r.
Qed.

Lemma executeWithLogging_eq {A} event level (fn : M Ev A) :
  executeWithLogging event level fn
  = (result fn,
     log_event (LogMsg level (event ++ ".start")) :: trace fn
     ++ match result fn with
        | inr _ => [log_event (LogMsg level (event ++ ".done"))]
        | inl err => [log_event (LogMsg level (event ++ ".error"));
                      log_event (LogRaw err)]
        end).
Proof.
  destruct fn as [[e|a] t]; unfold executeWithLogging; simpl;
    by rewrite ?app_nil_r.
Qed.

Lemma result_bind {A B} (m : M Ev A) (f : A -> M Ev B) :
  result (bind m f)
  = match result m with inl e => inl e | inr a => result (f a) end.
Proof. destruct m as [[e|a] t]; simpl; [done|]. by destruct (f a). Qed.

Lemma trace_bind {A B} (m : M Ev A) (f : A -> M Ev B) :
  trace (bind m f)
  = trace m ++ match result m with inl _ => [] | inr a => trace (f a) end.
Proof.
  destruct m as [[e|a] t]; simpl; [by rewrite app_nil_r|].
  by destruct (f a).
Qed.

(** An element that is not in the first part of a list lies behind it. *)
Lemma split_behind (a b pre post : list Ev) x :
  a ++ b = pre ++ x :: post -> x ∉ a ->
  exists pre', pre = a ++ pre' /\ b = pre' ++ x :: post.
Proof.
  revert pre. induction a as [|y a IH]; intros pre Heq Hx; [eauto|].
  destruct pre as [|z pre]; simpl in Heq.
  - injection Heq as -> _. exfalso. apply Hx. left.
  - injection Heq as -> Heq.
    destruct (IH pre Heq) as (pre' & -> & ->).
    + intros Hin. apply Hx. by right.
    + eauto.
Qed.

(** The calls of a [Promise.all] over a list are issued in list order. *)
Lemma trace_Promise_all_calls {A B} (ev : A -> Ev) (r : A -> jsvalue + B)
    (l : list A) :
  trace (Promise_all (map (fun x => call (ev x) (r x)) l)) = map ev l.
Proof.
  induction l as [|x l IH]; [done|]. simpl.
  destruct (Promise_all _) as [rs ts]. simpl in *. by rewrite IH.
Qed.

(** An element of a concatenation lies in its first or in its second
    part. *)
Lemma split_app (a b pre post : list Ev) x :
  a ++ b = pre ++ x :: post ->
  (exists post', a = pre ++ x :: post') \/
  (exists pre', pre = a ++ pre' /\ b = pre' ++ x :: post).
Proof.
  revert pre. induction a as [|y a IH]; intros pre Heq; [right; eauto|].
  destruct pre as [|z pre]; simpl in Heq.
  - injection Heq as -> _. left. by exists a.
  - injection Heq as -> Heq.
    destruct (IH pre Heq) as [[post' ->]|(pre' & -> & ->)].
    + left. by exists post'.
    + right. by exists pre'.
Qed.

Lemma trace_try_catch {A} (m : M Ev A) (h : jsvalue -> M Ev A) :
  trace (try_catch m h)
  = trace m ++ match result m with inl e => trace (h e) | inr _ => [] end.
Proof.
  destruct m as [[e|a] t]; simpl; [|by rewrite app_nil_r].
  by destruct (h e).
Qed.

(** A [Promise.all] that fulfils gives the results index by index. *)
Lemma result_Promise_all_calls {A B} (ev : A -> Ev) (r : A -> jsvalue + B)
    (l : list A) (out : list B) :
  result (Promise_all (map (fun x => call (ev x) (r x)) l)) = inr out ->
  Forall2 (fun x y => r x = inr y) l out.
Proof.
  revert out. induction l as [|x l IH]; intros out; simpl.
  { intros [= <-]. constructor. }
  destruct (Promise_all _) as [rs ts]. simpl in *.
  destruct (r x) as [e|y] eqn:Hx; [done|].
  destruct rs as [e|ys]; [done|]. intros [= <-].
  constructor; [done|]. by apply IH.
Qed.

Lemma trace_Promise_all {A} (ms : list (M Ev A)) :
  trace (Promise_all ms) = concat (map trace ms).
Proof.
  induction ms as [|[r t] ms IH]; [done|]. simpl.
  destruct (Promise_all ms) as [rs ts]. simpl in *. by rewrite IH.
Qed.

Lemma result_Promise_all_inr {A} (ms : list (M Ev A)) (l : list A) :
  Forall2 (fun m a => result m = inr a) ms l ->
  result (Promise_all ms) = inr l.
Proof.
  induction 1 as [|[r t] a ms l Hr HF IH]; [done|]. simpl in *.
  destruct (Promise_all ms) as [rs ts]. simpl in *. by subst.
Qed.

(** A [Promise.all] with a rejecting promise rejects, with the error of
    one of its rejecting promises. *)
Lemma result_Promise_all_inl {A} (ms : list (M Ev A)) m e :
  m ∈ ms -> result m = inl e ->
  exists m' e', m' ∈ ms /\ result m' = inl e' /\
                result (Promise_all ms) = inl e'.
Proof.
  induction ms as [|[r t] ms IH]; intros Hin He; [inversion Hin|].
  simpl. destruct (Promise_all ms) as [rs ts] eqn:Hall. simpl in *.
  destruct r as [e0|a0].
  - exists (inl e0, t), e0. split; [left|done].
  - apply elem_of_cons in Hin as [->|Hin]; [done|].
    destruct (IH Hin He) as (m' & e' & Hin' & He' & Hr).
    exists m', e'. split; [by right|]. split; [done|].
    by rewrite Hr.
Qed.

End EffectsProofs.

(** ** Properties of the crawl pipeline *)
Module CrawlProofs.
Import Crawl.

Lemma Map_get_Some {V} k (entries : list (value * V)) v :
  Map_get k entries = Some v -> (k, v) ∈ entries.
Proof.
  induction entries as [|[k' v'] rest IH]; simpl; [done|].
  destruct (Map_get k rest) as [w|].
  - intros [= ->]. right. by apply IH.
  - case_decide; [|done]. intros [= ->]. subst. left.
Qed.

Lemma Map_get_None {V} k (entries : list (value * V)) :
  Map_get k entries = None <-> forall v, (k, v) ∉ entries.
Proof.
  induction entries as [|[k' v'] rest IH]; simpl.
  { split; [|done]. intros _ v Hin. inversion Hin. }
  destruct (Map_get k rest) as [w|] eqn:Hr.
  - split; [done|]. intros Hn. exfalso. apply (Hn w). right.
    by apply Map_get_Some.
  - case_decide as Hk.
    + split; [done|]. intros Hn. exfalso. apply (Hn v'). subst. left.
    + split; [|done]. intros _ v Hin.
      apply elem_of_cons in Hin as [[= -> ->]|Hin]; [done|].
      destruct IH as [IH _]. by apply (IH eq_refl v).
Qed.

(** A look-up in the map built from the list items. *)
Lemma listItemMap_Some (list : list obj) id item :
  Map_get id (map (fun item => (get item "pipelineId", item)) list) = Some item ->
  item ∈ list /\ get item "pipelineId" = id.
Proof.
  intros Hg. apply Map_get_Some in Hg.
  apply list_elem_of_fmap in Hg as (it & [= -> ->] & Hin). done.
Qed.

Lemma listItemMap_None (list : list obj) id :
  Map_get id (map (fun item => (get item "pipelineId", item)) list) = None <->
  forall item, item ∈ list -> get item "pipelineId" <> id.
Proof.
  rewrite Map_get_None. split.
  - intros Hn item Hin Heq. apply (Hn item).
    apply list_elem_of_fmap. exists item. by rewrite Heq.
  - intros Hn v Hin.
    apply list_elem_of_fmap in Hin as (it & [= Hid ->] & Hin).
    by apply (Hn it).
Qed.









Lemma filter_length_complement {A} (p : A -> bool) (l : list A) :
  (length (List.filter (fun x => negb (p x)) l)
   + length (List.filter p l) = length l)%nat.
Proof.
  induction l as [|x l IH]; simpl; [done|].
  destruct (p x); simpl; lia.
Qed.

Lemma map_indexed_zip {A B C} (f : B -> A -> C) (pre rest : list B)
    (xs : list A) :
  (length xs <= length rest)%nat ->
  map_indexed f (pre ++ rest) (length pre) xs = inr (zip_with f rest xs).
Proof.
  revert pre rest. induction xs as [|x xs IH]; intros pre rest Hlen.
  { by destruct rest. }
  destruct rest as [|y rest]; simpl in Hlen; [lia|]. simpl.
  rewrite lookup_app_r, Nat.sub_diag by lia. simpl.
  specialize (IH (pre ++ [y]) rest ltac:(lia)).
  rewrite <- app_assoc, length_app in IH. simpl in IH.
  rewrite Nat.add_1_r in IH. by rewrite IH.
Qed.

Lemma map_indexed_length {A B C} (f : B -> A -> C) ys i xs out :
  map_indexed f ys i xs = inr out -> length out = length xs.
Proof.
  revert i out. induction xs as [|x xs IH]; intros i out; simpl.
  { by intros [= <-]. }
  destruct (ys !! i); [|done].
  destruct (map_indexed f ys (S i) xs) eqn:Hm; [done|].
  intros [= <-]. simpl. f_equal. by eapply IH.
Qed.

Lemma Forall2_zip_with_r {A B C} (R : A -> B -> Prop) (f : A -> B -> C) xs ys :
  Forall2 R xs ys ->
  Forall2 (fun x z => exists y, R x y /\ z = f x y) xs (zip_with f xs ys).
Proof. induction 1; simpl; constructor; eauto. Qed.

Lemma Forall2_compose {A B C} (R : A -> B -> Prop) (S : B -> C -> Prop) xs ys zs :
  Forall2 R xs ys -> Forall2 S ys zs ->
  Forall2 (fun x z => exists y, R x y /\ S y z) xs zs.
Proof.
  intros H. revert zs. induction H; intros zs Hs; inversion Hs; subst;
    constructor; eauto.
Qed.

Lemma Forall2_elem_l {A B} (R : A -> B -> Prop) xs ys :
  Forall2 R xs ys -> Forall2 (fun x y => x ∈ xs /\ R x y) xs ys.
Proof.
  induction 1 as [|x y xs ys HR HF IH]; constructor.
  - split; [left|done].
  - eapply Forall2_impl; [exact IH|]. intros a b [Hin Hab].
    split; [by right|done].
Qed.

Lemma map_throwing_Forall2 {A B} (f : A -> jsvalue + B) xs ys :
  map_throwing f xs = inr ys -> Forall2 (fun x y => f x = inr y) xs ys.
Proof.
  revert ys. induction xs as [|x xs IH]; intros ys; simpl.
  { intros [= <-]. constructor. }
  destruct (f x) eqn:Hx; [done|].
  destruct (map_throwing f xs); [done|]. intros [= <-].
  constructor; [done|]. by apply IH.
Qed.

(** With distinct correlation ids, the map finds each list item under its
    own id. *)
Lemma listItemMap_NoDup (list : list obj) item :
  NoDup (map (fun item => get item "pipelineId") list) ->
  item ∈ list ->
  Map_get (get item "pipelineId")
          (map (fun item => (get item "pipelineId", item)) list) = Some item.
Proof.
  induction list as [|it0 list IH]; intros Hnd Hin; [inversion Hin|].
  simpl in *. apply NoDup_cons in Hnd as [Hnot Hnd].
  apply elem_of_cons in Hin as [->|Hin].
  - assert (Map_get (get it0 "pipelineId")
              (map (fun item => (get item "pipelineId", item)) list) = None)
      as ->.
    { apply listItemMap_None. intros it Hit Heq. apply Hnot.
      apply list_elem_of_fmap. eauto. }
    by case_decide.
  - by rewrite IH.
Qed.

Lemma NoDup_map_filter {A B} (f : A -> B) (p : A -> bool) (l : list A) :
  NoDup (map f l) -> NoDup (map f (List.filter p l)).
Proof.
  induction l as [|x l IH]; simpl; [done|].
  intros [Hnot Hnd]%NoDup_cons. destruct (p x); simpl; [|by apply IH].
  apply NoDup_cons. split; [|by apply IH].
  intros Hin. apply Hnot.
  apply list_elem_of_fmap in Hin as (y & -> & Hy).
  apply list_elem_of_In, filter_In in Hy as [Hy _].
  apply list_elem_of_fmap. exists y. split; [done|]. by apply list_elem_of_In.
Qed.

(** The correlation ids given to the parsed list: the n-th item gets the
    n-th identifier drawn. *)
Lemma pipelineIds_imap (uuid : nat -> string) (items : list obj) (k : nat) :
  map (fun item => get item "pipelineId")
      (imap (fun i item => <["pipelineId" := VStr (uuid (k + i)%nat)]> item) items)
  = map (fun i => VStr (uuid i)) (seq k (length items)).
Proof.
  revert k. induction items as [|it items IH]; intros k; simpl; [done|].
  f_equal.
  - unfold get. by rewrite lookup_insert_eq, Nat.add_0_r.
  - rewrite <- IH. f_equal. apply imap_ext. intros i x _. simpl.
    by rewrite Nat.add_succ_r.
Qed.

(** Unfold a stage and check, event by event, that its trace has log
    entries and events of the stage only. *)
Ltac stage_events :=
  rewrite ?trace_executeWithLogging, ?trace_bind, ?result_bind,
    ?trace_Promise_all_calls;
  unfold only_stage, call, ret, tell; cbn [trace result fst snd];
  repeat match goal with
    | |- Forall _ [] => constructor
    | |- Forall _ (_ :: _) => constructor; [compute; auto|]
    | |- Forall _ (_ ++ _) => apply Forall_app; split
    | |- Forall _ (map _ _) =>
        apply Forall_fmap, Forall_true; intros ?; compute; auto
    | |- Forall _ (match ?r with inl _ => _ | inr _ => _ end) =>
        destruct r; cbn [trace result fst snd]
    end.

(** An event of one stage is not in the trace of another stage. *)
Ltac wrong_stage Hin Hstage :=
  let H := fresh in
  pose proof (proj1 (Forall_forall _ _) Hstage _ Hin) as H;
  simpl in H; destruct H; discriminate.

Section Stages.
Variable P : provider.
Variable target : CrawlingTarget.

Lemma result_fetchListPageHtml :
  result (fetchListPageHtml P target)
  = getHtmlFromUrl P (VStr (url target)).
Proof. unfold fetchListPageHtml. by rewrite result_executeWithLogging. Qed.

Lemma result_parseListPageHtml listPageHtml :
  result (parseListPageHtml P target listPageHtml)
  = match parseList target listPageHtml with
    | inl e => inl e
    | inr items =>
        inr (imap (fun i item =>
                     <["pipelineId" := VStr (randomUUID P i)]> item) items)
    end.
Proof.
  unfold parseListPageHtml. rewrite result_executeWithLogging, result_bind.
  unfold call, result. simpl. by destruct (parseList _ _).
Qed.

Lemma result_dedupeListItems parsedList :
  result (dedupeListItems P target parsedList)
  = match fetchExistingArticlesByUrls P
            (map (fun item => get item "detailUrl") parsedList) with
    | inl e => inl e
    | inr existingArticles =>
        inr (List.filter (fun item => negb (known existingArticles item))
                         parsedList)
    end.
Proof.
  unfold dedupeListItems. rewrite result_executeWithLogging, result_bind.
  unfold call, result. simpl. by destruct (fetchExistingArticlesByUrls _ _).
Qed.

(** Each stage leaves log entries and events of its own only. *)
Lemma trace_fetchListPageHtml_stage :
  only_stage 1 (trace (fetchListPageHtml P target)).
Proof. unfold fetchListPageHtml. stage_events. Qed.

Lemma trace_parseListPageHtml_stage listPageHtml :
  only_stage 2 (trace (parseListPageHtml P target listPageHtml)).
Proof. unfold parseListPageHtml. stage_events. Qed.

Lemma trace_dedupeListItems_stage parsedList :
  only_stage 3 (trace (dedupeListItems P target parsedList)).
Proof. unfold dedupeListItems. stage_events. Qed.

Lemma trace_fetchDetailPagesHtml_stage (list : list obj) :
  only_stage 4 (trace (fetchDetailPagesHtml P target list)).
Proof. unfold fetchDetailPagesHtml. stage_events. Qed.

Lemma trace_parseDetailPagesHtml_stage htmls :
  only_stage 5 (trace (parseDetailPagesHtml target htmls)).
Proof. unfold parseDetailPagesHtml. stage_events. Qed.

Lemma trace_mergeParsedArticles_stage (list details : list obj) :
  only_stage 6 (trace (mergeParsedArticles target list details)).
Proof. unfold mergeParsedArticles. stage_events. Qed.

Lemma trace_saveArticles_stage articles :
  only_stage 7 (trace (saveArticles P target articles)).
Proof. unfold saveArticles. stage_events. Qed.

(** The deduplication stage calls [fetchExistingArticlesByUrls]. *)
Lemma trace_dedupeListItems parsedList :
  EvFetchExisting (map (fun item => get item "detailUrl") parsedList)
  ∈ trace (dedupeListItems P target parsedList).
Proof.
  unfold dedupeListItems. rewrite trace_executeWithLogging, trace_bind.
  right. apply elem_of_app. left. apply elem_of_app. left. left.
Qed.

(** What the detail-fetch stage and the stages behind it leave in the
    trace: detail pages are fetched for the given items only. *)
Lemma trace_fetchDetailPagesHtml_urls (list : list obj) u :
  EvFetchDetail u ∈ trace (fetchDetailPagesHtml P target list) ->
  u ∈ map (fun item => get item "detailUrl") list.
Proof.
  unfold fetchDetailPagesHtml.
  rewrite trace_executeWithLogging, result_bind, trace_bind.
  rewrite trace_Promise_all_calls.
  intros Hin. apply elem_of_cons in Hin as [Hin|Hin]; [done|].
  rewrite !elem_of_app in Hin. destruct Hin as [[Hin|Hin]|Hin].
  - apply list_elem_of_fmap in Hin as (item & [= ->] & Hin).
    apply list_elem_of_fmap. eauto.
  - destruct (result (Promise_all _)); inversion Hin.
  - destruct (result (Promise_all _)) as [e|htmlList].
    + apply elem_of_cons in Hin as [Hin|Hin]; [done|].
      by apply list_elem_of_singleton in Hin.
    + destruct (result _).
      * apply elem_of_cons in Hin as [Hin|Hin]; [done|].
        by apply list_elem_of_singleton in Hin.
      * by apply list_elem_of_singleton in Hin.
Qed.

(** No detail page is fetched by the stages behind the detail fetch. *)
Lemma trace_after_fetch_no_detail (list : list obj) htmls u :
  EvFetchDetail u ∉
    trace (let* parsedDetails := parseDetailPagesHtml target htmls in
           let* processedArticles :=
             mergeParsedArticles target list parsedDetails in
           saveArticles P target processedArticles).
Proof.
  rewrite trace_bind. intros Hin. apply elem_of_app in Hin as [Hin|Hin].
  { wrong_stage Hin (trace_parseDetailPagesHtml_stage htmls). }
  destruct (result (parseDetailPagesHtml _ _)) as [e|details];
    [inversion Hin|].
  rewrite trace_bind in Hin. apply elem_of_app in Hin as [Hin|Hin].
  { wrong_stage Hin (trace_mergeParsedArticles_stage list details). }
  destruct (result (mergeParsedArticles _ _ _)) as [e|articles];
    [inversion Hin|].
  wrong_stage Hin (trace_saveArticles_stage articles).
Qed.

(** The deduplication stage is exact, and in one run of the pipeline it
    comes before every fetch of a detail page. *)
Lemma dedupe_run_exact_and_early :
  (forall parsedList existingArticles,
     fetchExistingArticlesByUrls P
       (map (fun item => get item "detailUrl") parsedList)
     = inr existingArticles ->
     exists out,
       result (dedupeListItems P target parsedList) = inr out /\
       out = List.filter (fun item => negb (known existingArticles item))
                         parsedList /\
       length out
       = (length parsedList
          - length (List.filter (known existingArticles) parsedList))%nat) /\
  (forall pre u post,
     trace (targetPipeline P target) = pre ++ EvFetchDetail u :: post ->
     exists urls existingArticles,
       EvFetchExisting urls ∈ pre /\
       fetchExistingArticlesByUrls P urls = inr existingArticles /\
       u ∉ map (fun a => get a "detailUrl") existingArticles).
Proof.
  split.
  - intros parsedList existingArticles Hex.
    rewrite result_dedupeListItems, Hex. eexists. split; [done|].
    split; [done|].
    pose proof (filter_length_complement (known existingArticles) parsedList).
    lia.
  - intros pre u post Htr. unfold targetPipeline in Htr.
    rewrite trace_bind in Htr.
    destruct (result (fetchListPageHtml P target)) as [e|listPageHtml].
    { exfalso. rewrite app_nil_r in Htr.
      assert (EvFetchDetail u ∈ trace (fetchListPageHtml P target)) as Hin
        by (rewrite Htr; set_solver).
      wrong_stage Hin trace_fetchListPageHtml_stage. }
    rewrite trace_bind in Htr.
    destruct (result (parseListPageHtml P target listPageHtml))
      as [e|parsedList].
    { exfalso. rewrite app_nil_r in Htr.
      assert (EvFetchDetail u ∈ trace (fetchListPageHtml P target)
                ++ trace (parseListPageHtml P target listPageHtml)) as Hin
        by (rewrite Htr; set_solver).
      apply elem_of_app in Hin as [Hin|Hin].
      - wrong_stage Hin trace_fetchListPageHtml_stage.
      - wrong_stage Hin (trace_parseListPageHtml_stage listPageHtml). }
    rewrite trace_bind in Htr.
    pose proof (trace_dedupeListItems parsedList) as Hdd.
    rewrite result_dedupeListItems in Htr.
    assert (EvFetchDetail u ∉
              trace (fetchListPageHtml P target)
              ++ trace (parseListPageHtml P target listPageHtml)
              ++ trace (dedupeListItems P target parsedList)) as Hfront.
    { rewrite !elem_of_app. intros [Hin|[Hin|Hin]].
      - wrong_stage Hin trace_fetchListPageHtml_stage.
      - wrong_stage Hin (trace_parseListPageHtml_stage listPageHtml).
      - wrong_stage Hin (trace_dedupeListItems_stage parsedList). }
    destruct (fetchExistingArticlesByUrls P _) as [e|existingArticles] eqn:Hex.
    { exfalso. apply Hfront. rewrite app_nil_r in Htr.
      rewrite Htr. set_solver. }
    match type of Htr with
    | ?s1 ++ ?s2 ++ ?s3 ++ ?B = _ =>
        assert ((s1 ++ s2 ++ s3) ++ B = pre ++ EvFetchDetail u :: post)
          as Htr' by (by rewrite <- Htr, <- !app_assoc)
    end.
    destruct (split_behind _ _ _ _ _ Htr' Hfront) as (pre' & -> & Hback).
    exists (map (fun item => get item "detailUrl") parsedList), existingArticles.
    split; [|split; [done|]].
    { rewrite !elem_of_app. by left; right; right. }
    assert (EvFetchDetail u ∈ pre' ++ EvFetchDetail u :: post) as Hin
      by set_solver.
    rewrite <- Hback, trace_bind in Hin.
    apply elem_of_app in Hin as [Hin|Hin].
    + apply trace_fetchDetailPagesHtml_urls in Hin.
      apply list_elem_of_fmap in Hin as (item & -> & Hin).
      apply list_elem_of_In, filter_In in Hin as [_ Hk].
      unfold known, Set_has in Hk. apply negb_true_iff in Hk.
      by apply bool_decide_eq_false in Hk.
    + destruct (result (fetchDetailPagesHtml P target _)) as [e|htmls];
        [inversion Hin|].
      by apply trace_after_fetch_no_detail in Hin.
Qed.

(** *** What the stages return *)

Lemma result_fetchDetailPagesHtml (list : list obj) htmls :
  result (fetchDetailPagesHtml P target list) = inr htmls ->
  Forall2 (fun item h =>
             pipelineId h = get item "pipelineId" /\
             getHtmlFromUrl P (get item "detailUrl") = inr (html h))
          list htmls.
Proof.
  unfold fetchDetailPagesHtml.
  rewrite result_executeWithLogging, result_bind.
  destruct (result (Promise_all _)) as [e|htmlList] eqn:Hall; [done|].
  apply result_Promise_all_calls in Hall.
  unfold result. simpl.
  rewrite (map_indexed_zip _ [] list htmlList)
    by (by rewrite (Forall2_length _ _ _ Hall)).
  intros [= <-].
  eapply Forall2_impl;
    [apply (Forall2_zip_with_r _
              (fun item html =>
                 {| pipelineId := get item "pipelineId"; html := html |})
              _ _ Hall)|].
  intros item h (y & Hy & ->). done.
Qed.

Lemma result_parseDetailPagesHtml htmls parsedDetails :
  result (parseDetailPagesHtml target htmls) = inr parsedDetails ->
  Forall2 (fun h pd =>
             exists d, parseDetail target (html h) = inr d /\
                       pd = with_pipelineId (pipelineId h) d)
          htmls parsedDetails.
Proof.
  unfold parseDetailPagesHtml.
  rewrite result_executeWithLogging, result_bind.
  destruct (result (Promise_all _)) as [e|details] eqn:Hall; [done|].
  apply result_Promise_all_calls in Hall.
  unfold result. simpl.
  rewrite (map_indexed_zip _ [] htmls details)
    by (by rewrite (Forall2_length _ _ _ Hall)).
  intros [= <-].
  apply (Forall2_zip_with_r _
           (fun h detail => with_pipelineId (pipelineId h) detail)
           _ _ Hall).
Qed.

Lemma result_mergeParsedArticles (list parsedDetails articles : list obj) :
  result (mergeParsedArticles target list parsedDetails) = inr articles ->
  merge_records list parsedDetails = inr articles.
Proof.
  unfold mergeParsedArticles. by rewrite result_executeWithLogging.
Qed.

(** *** Where the save call can come from *)

Lemma trace_saveArticles_saved articles a :
  EvSave a ∈ trace (saveArticles P target articles) -> a = articles.
Proof.
  unfold saveArticles. rewrite trace_executeWithLogging.
  unfold call, result, trace. simpl. intros Hin.
  apply elem_of_cons in Hin as [Hin|Hin]; [done|].
  apply elem_of_cons in Hin as [Hin|Hin]; [by injection Hin|].
  destruct (saveCrawledArticles _ _).
  - apply elem_of_cons in Hin as [Hin|Hin]; [done|].
    by apply list_elem_of_singleton in Hin.
  - by apply list_elem_of_singleton in Hin.
Qed.

(** Records are saved only by a run in which every earlier stage
    returned. *)
Lemma targetPipeline_saved articles :
  EvSave articles ∈ trace (targetPipeline P target) ->
  exists listPageHtml parsedList list htmls parsedDetails,
    result (fetchListPageHtml P target) = inr listPageHtml /\
    result (parseListPageHtml P target listPageHtml) = inr parsedList /\
    result (dedupeListItems P target parsedList) = inr list /\
    result (fetchDetailPagesHtml P target list) = inr htmls /\
    result (parseDetailPagesHtml target htmls) = inr parsedDetails /\
    result (mergeParsedArticles target list parsedDetails) = inr articles.
Proof.
  unfold targetPipeline. intros Hin.
  rewrite trace_bind in Hin. apply elem_of_app in Hin as [Hin|Hin];
    [wrong_stage Hin trace_fetchListPageHtml_stage|].
  destruct (result (fetchListPageHtml P target)) as [e|listPageHtml]
    eqn:E1; [inversion Hin|].
  rewrite trace_bind in Hin. apply elem_of_app in Hin as [Hin|Hin];
    [wrong_stage Hin (trace_parseListPageHtml_stage listPageHtml)|].
  destruct (result (parseListPageHtml P target listPageHtml))
    as [e|parsedList] eqn:E2; [inversion Hin|].
  rewrite trace_bind in Hin. apply elem_of_app in Hin as [Hin|Hin];
    [wrong_stage Hin (trace_dedupeListItems_stage parsedList)|].
  destruct (result (dedupeListItems P target parsedList)) as [e|list]
    eqn:E3; [inversion Hin|].
  rewrite trace_bind in Hin. apply elem_of_app in Hin as [Hin|Hin];
    [wrong_stage Hin (trace_fetchDetailPagesHtml_stage list)|].
  destruct (result (fetchDetailPagesHtml P target list)) as [e|htmls]
    eqn:E4; [inversion Hin|].
  rewrite trace_bind in Hin. apply elem_of_app in Hin as [Hin|Hin];
    [wrong_stage Hin (trace_parseDetailPagesHtml_stage htmls)|].
  destruct (result (parseDetailPagesHtml target htmls))
    as [e|parsedDetails] eqn:E5; [inversion Hin|].
  rewrite trace_bind in Hin. apply elem_of_app in Hin as [Hin|Hin];
    [wrong_stage Hin (trace_mergeParsedArticles_stage list parsedDetails)|].
  destruct (result (mergeParsedArticles target list parsedDetails))
    as [e|processed] eqn:Hm; [inversion Hin|].
  apply trace_saveArticles_saved in Hin as ->.
  by exists listPageHtml, parsedList, list, htmls, parsedDetails.
Qed.

(** C10.  The records that a run of the target's pipeline saves are
    aligned, position by position, with the list items that survived
    deduplication (the parsed list, in its order, without the known ones):
    the record at a position is made of the detail record parsed from the
    detail page of the surviving item at that position, and of the list
    item found under the correlation id of that detail record.  When the
    identifiers drawn for the list items are distinct and [parseDetail]
    returns records without a [pipelineId] field of their own, that list
    item is the surviving item at that position itself. *)
Theorem merged_records_keep_list_order articles :
  EvSave articles ∈ trace (targetPipeline P target) ->
  exists listPageHtml items existingArticles,
    getHtmlFromUrl P (VStr (url target)) = inr listPageHtml /\
    parseList target listPageHtml = inr items /\
    let parsedList :=
      imap (fun i item => <["pipelineId" := VStr (randomUUID P i)]> item)
           items in
    fetchExistingArticlesByUrls P
      (map (fun item => get item "detailUrl") parsedList)
    = inr existingArticles /\
    let list :=
      List.filter (fun item => negb (known existingArticles item))
                  parsedList in
    Forall2
      (fun item article =>
         exists h d listItem,
           getHtmlFromUrl P (get item "detailUrl") = inr h /\
           parseDetail target h = inr d /\
           listItem ∈ list /\
           get listItem "pipelineId"
           = get (with_pipelineId (get item "pipelineId") d) "pipelineId" /\
           article
           = spread (omit listItem "pipelineId")
                    (omit (with_pipelineId (get item "pipelineId") d)
                          "pipelineId"))
      list articles /\
    ((forall i j, randomUUID P i = randomUUID P j -> i = j) ->
     (forall h d, parseDetail target h = inr d -> d !! "pipelineId" = None) ->
     Forall2
       (fun item article =>
          exists h d,
            getHtmlFromUrl P (get item "detailUrl") = inr h /\
            parseDetail target h = inr d /\
            article = spread (omit item "pipelineId") d)
       list articles).
Proof.
  intros Hsave.
  destruct (targetPipeline_saved _ Hsave)
    as (listPageHtml & parsedList & list & htmls & parsedDetails
        & H1 & H2 & H3 & H4 & H5 & H6).
  rewrite result_fetchListPageHtml in H1.
  rewrite result_parseListPageHtml in H2.
  destruct (parseList target listPageHtml) as [e|items] eqn:Hitems; [done|].
  injection H2 as <-.
  rewrite result_dedupeListItems in H3.
  destruct (fetchExistingArticlesByUrls P _) as [e|existingArticles] eqn:Hex;
    [done|]. injection H3 as <-.
  exists listPageHtml, items, existingArticles.
  split; [done|]. split; [done|]. split; [done|].
  set (parsedList :=
         imap (fun i item => <["pipelineId" := VStr (randomUUID P i)]> item)
              items) in *.
  set (list := List.filter
                 (fun item => negb (known existingArticles item))
                 parsedList) in *.
  cbv zeta.
  apply result_fetchDetailPagesHtml in H4.
  apply result_parseDetailPagesHtml in H5.
  apply result_mergeParsedArticles in H6.
  apply map_throwing_Forall2 in H6.
  apply Forall2_elem_l in H4.
  pose proof (Forall2_compose _ _ _ _ _
                (Forall2_compose _ _ _ _ _ H4 H5) H6) as HF.
  clear H4 H5 H6. split.
  - eapply Forall2_impl; [exact HF|].
    intros item article (pd & (h & (Hin & Hid & Hh) & (d & Hd & ->)) & Hm).
    rewrite Hid in Hm.
    destruct (Map_get _ _) as [listItem|] eqn:Hg; [|done].
    injection Hm as <-. apply listItemMap_Some in Hg as [Hli Hlid].
    by exists (html h), d, listItem.
  - intros Huuid Hdetail.
    assert (NoDup (map (fun item => get item "pipelineId") list)) as Hnd.
    { apply NoDup_map_filter. unfold parsedList.
      pose proof (pipelineIds_imap (randomUUID P) items 0) as Hids.
      simpl in Hids. rewrite Hids.
      apply NoDup_fmap_2; [|apply NoDup_seq].
      intros i j [= Hij]. by apply Huuid. }
    eapply Forall2_impl; [exact HF|].
    intros item article (pd & (h & (Hin & Hid & Hh) & (d & Hd & ->)) & Hm).
    exists (html h), d. split; [done|]. split; [done|].
    pose proof (Hdetail _ _ Hd) as Hnone.
    assert (get (with_pipelineId (pipelineId h) d) "pipelineId"
            = get item "pipelineId") as Hget.
    { unfold get, with_pipelineId, spread. rewrite lookup_union_r by done.
      by rewrite lookup_singleton_eq, Hid. }
    rewrite Hget, (listItemMap_NoDup list item Hnd Hin) in Hm.
    injection Hm as <-. f_equal.
    unfold omit, with_pipelineId, spread. apply map_eq. intros k.
    destruct (decide (k = "pipelineId")) as [->|Hk].
    + by rewrite lookup_delete_eq.
    + rewrite lookup_delete_ne by done.
      destruct (d !! k) as [v|] eqn:Hdk.
      * by apply lookup_union_Some_l.
      * rewrite lookup_union_r by done. by rewrite lookup_singleton_ne.
Qed.

End Stages.

Lemma follow_dedupe_app (t1 t2 : list event) :
  detail_fetches_follow_dedupe t1 -> detail_fetches_follow_dedupe t2 ->
  detail_fetches_follow_dedupe (t1 ++ t2).
Proof.
  intros H1 H2 pre u post Heq.
  destruct (split_app _ _ _ _ _ Heq) as [[post' ->]|(pre' & -> & ->)].
  - by apply (H1 pre u post').
  - destruct (H2 pre' u post eq_refl) as [urls Hin].
    exists urls. apply elem_of_app. by right.
Qed.

(** The whole-sequence retry keeps the order of each of its runs. *)
Lemma follow_dedupe_retry {A} (f : nat -> M event A) retries attempt :
  (forall n, detail_fetches_follow_dedupe (trace (f n))) ->
  detail_fetches_follow_dedupe (trace (retry retries attempt f)).
Proof.
  intros Hf. revert attempt.
  induction retries as [|n IH]; intros attempt; simpl; [apply Hf|].
  rewrite trace_try_catch. apply follow_dedupe_app; [apply Hf|].
  destruct (result (f attempt)); [apply IH|].
  intros pre u post Heq. by destruct pre.
Qed.

(** C5.  The deduplication stage returns the parsed list without the
    items whose detail URL is among the existing articles that
    [fetchExistingArticlesByUrls] returned, so its size is the size of the
    parsed list minus the number of those items; in a run of a target's
    pipeline every fetch of a detail page comes after the call of
    [fetchExistingArticlesByUrls], for a URL that is not among the existing
    ones; and this order holds in the trace of the target's pipeline with
    its whole-sequence retry. *)
Theorem dedupe_exact_and_early P target :
  (forall parsedList existingArticles,
     fetchExistingArticlesByUrls P
       (map (fun item => get item "detailUrl") parsedList)
     = inr existingArticles ->
     exists out,
       result (dedupeListItems P target parsedList) = inr out /\
       out = List.filter (fun item => negb (known existingArticles item))
                         parsedList /\
       length out
       = (length parsedList
          - length (List.filter (known existingArticles) parsedList))%nat) /\
  (forall pre u post,
     trace (targetPipeline P target) = pre ++ EvFetchDetail u :: post ->
     exists urls existingArticles,
       EvFetchExisting urls ∈ pre /\
       fetchExistingArticlesByUrls P urls = inr existingArticles /\
       u ∉ map (fun a => get a "detailUrl") existingArticles) /\
  (forall (env : nat -> provider) stopAfterAttempt,
     detail_fetches_follow_dedupe
       (trace (withRetry stopAfterAttempt
                 (fun attempt => targetPipeline (env attempt) target)))).
Proof.
  destruct (dedupe_run_exact_and_early P target) as [Hexact Hrun].
  split; [exact Hexact|]. split; [exact Hrun|].
  intros env stopAfterAttempt. apply follow_dedupe_retry.
  intros n pre u post Heq.
  destruct (dedupe_run_exact_and_early (env n) target) as [_ Hn].
  destruct (Hn pre u post Heq) as (urls & _ & Hin & _). eauto.
Qed.



Lemma dedupe_exact_and_early_witness :
  exists out,
    result (dedupeListItems demo_provider demo_t1
              [demo_item "https://site.test/a1" "A1";
               demo_item "https://site.test/a2" "A2"]) = inr out /\
    out = List.filter (fun item => negb (known demo_existing item))
            [demo_item "https://site.test/a1" "A1";
             demo_item "https://site.test/a2" "A2"] /\
    length out
    = (2 - length (List.filter (known demo_existing)
                     [demo_item "https://site.test/a1" "A1";
                      demo_item "https://site.test/a2" "A2"]))%nat.
Proof.
  apply (dedupe_exact_and_early demo_provider demo_t1).
  reflexivity.
Defined.

Lemma merged_records_keep_list_order_witness :
  Forall2
    (fun item article =>
       exists h d,
         getHtmlFromUrl demo_provider (get item "detailUrl") = inr h /\
         parseDetail demo_t3 h = inr d /\
         article = spread (omit item "pipelineId") d)
    [<["pipelineId" := VStr (pretty 0%nat)]>
       (demo_item "https://site.test/a1" "A1");
     <["pipelineId" := VStr (pretty 2%nat)]>
       (demo_item "https://site.test/a3" "A3")]
    demo_saved3 /\
  map (fun article => get article "title") demo_saved3
  = [VStr "A1"; VStr "A3"].
Proof.
  split; [|reflexivity].
  destruct (merged_records_keep_list_order demo_provider demo_t3 demo_saved3)
    as (listPageHtml & items & existingArticles & H1 & H2 & H3 & _ & H4).
  - vm_compute.
    repeat first [apply list_elem_of_here | apply list_elem_of_further].
  - simpl in H1, H2. injection H2 as <-.
    simpl in H3. injection H3 as <-.
    apply H4.
    + intros i j Hij. simpl in Hij. by apply (inj pretty) in Hij.
    + intros h d Hd. simpl in Hd. injection Hd as <-.
      by apply lookup_singleton_ne.
Defined.

(** *** Further properties of the stages and of the chain *)

Lemma saves_app t1 t2 : saves (t1 ++ t2) = (saves t1 + saves t2)%nat.
Proof. unfold saves. by rewrite List.filter_app, length_app. Qed.

Lemma list_fetches_app t1 t2 :
  list_fetches (t1 ++ t2) = (list_fetches t1 + list_fetches t2)%nat.
Proof. unfold list_fetches. by rewrite List.filter_app, length_app. Qed.

Lemma detail_fetches_app t1 t2 :
  detail_fetches (t1 ++ t2) = detail_fetches t1 ++ detail_fetches t2.
Proof. apply omap_app. Qed.

(** A stage other than the last one saves nothing; a stage other than the
    first one fetches no list page. *)
Lemma only_stage_saves k t : k <> 7%nat -> only_stage k t -> saves t = 0%nat.
Proof.
  intros Hk. induction 1 as [|ev t Hev _ IH]; [done|].
  unfold saves in *. simpl. destruct ev; simpl in *; try done.
  destruct Hev; [done|congruence].
Qed.

Lemma only_stage_list_fetches k t :
  k <> 1%nat -> only_stage k t -> list_fetches t = 0%nat.
Proof.
  intros Hk. induction 1 as [|ev t Hev _ IH]; [done|].
  unfold list_fetches in *. simpl. destruct ev; simpl in *; try done.
  destruct Hev; [done|congruence].
Qed.

Lemma only_stage_detail_fetches k t :
  k <> 4%nat -> only_stage k t -> detail_fetches t = [].
Proof.
  intros Hk. induction 1 as [|ev t Hev _ IH]; [done|].
  unfold detail_fetches in *. simpl. destruct ev; simpl in *; try done.
  destruct Hev; [done|congruence].
Qed.

Section StageCounts.
Variable P : provider.
Variable target : CrawlingTarget.

Lemma saves_saveArticles articles :
  saves (trace (saveArticles P target articles)) = 1%nat.
Proof.
  unfold saveArticles. rewrite trace_executeWithLogging.
  unfold call, result, trace. simpl. by destruct (saveCrawledArticles _ _).
Qed.

Lemma list_fetches_fetchListPageHtml :
  list_fetches (trace (fetchListPageHtml P target)) = 1%nat.
Proof.
  unfold fetchListPageHtml. rewrite trace_executeWithLogging.
  unfold call, result, trace. simpl. by destruct (getHtmlFromUrl _ _).
Qed.

(** The trace of a run, stage by stage. *)
Lemma trace_targetPipeline :
  exists t2 t3 t4 t5 t6 t7,
    trace (targetPipeline P target)
    = trace (fetchListPageHtml P target) ++ t2 ++ t3 ++ t4 ++ t5 ++ t6 ++ t7 /\
    only_stage 2 t2 /\ only_stage 3 t3 /\ only_stage 4 t4 /\
    only_stage 5 t5 /\ only_stage 6 t6 /\
    match result (targetPipeline P target) with
    | inr n => exists articles,
        t7 = trace (saveArticles P target articles) /\
        saveCrawledArticles P articles = inr n
    | inl _ => t7 = [] \/ exists articles,
        t7 = trace (saveArticles P target articles)
    end.
Proof.
  unfold targetPipeline.
  assert (forall k, only_stage k []) as Hnil by (intros k; constructor).
  rewrite trace_bind, result_bind.
  destruct (result (fetchListPageHtml P target)) as [e|listPageHtml].
  { exists [], [], [], [], [], []. repeat split; auto. }
  rewrite trace_bind, result_bind.
  pose proof (trace_parseListPageHtml_stage P target listPageHtml) as H2.
  destruct (result (parseListPageHtml P target listPageHtml))
    as [e|parsedList].
  { eexists _, [], [], [], [], []. repeat split; eauto. }
  rewrite trace_bind, result_bind.
  pose proof (trace_dedupeListItems_stage P target parsedList) as H3.
  destruct (result (dedupeListItems P target parsedList)) as [e|list].
  { eexists _, _, [], [], [], []. repeat split; eauto. }
  rewrite trace_bind, result_bind.
  pose proof (trace_fetchDetailPagesHtml_stage P target list) as H4.
  destruct (result (fetchDetailPagesHtml P target list)) as [e|htmls].
  { eexists _, _, _, [], [], []. repeat split; eauto. }
  rewrite trace_bind, result_bind.
  pose proof (trace_parseDetailPagesHtml_stage target htmls) as H5.
  destruct (result (parseDetailPagesHtml target htmls)) as [e|parsedDetails].
  { eexists _, _, _, _, [], []. repeat split; eauto. }
  rewrite trace_bind, result_bind.
  pose proof (trace_mergeParsedArticles_stage target list parsedDetails) as H6.
  destruct (result (mergeParsedArticles target list parsedDetails))
    as [e|articles].
  { eexists _, _, _, _, _, []. repeat split; eauto. }
  eexists _, _, _, _, _, _. repeat split; eauto.
  destruct (result (saveArticles P target articles)) as [e|n] eqn:Hs.
  - right. eauto.
  - exists articles. split; [done|].
    unfold saveArticles in Hs. by rewrite result_executeWithLogging in Hs.
Qed.

(** A run fetches its list page exactly once. *)
Lemma list_fetches_run :
  list_fetches (trace (targetPipeline P target)) = 1%nat.
Proof.
  destruct trace_targetPipeline
    as (t2 & t3 & t4 & t5 & t6 & t7 & Ht & H2 & H3 & H4 & H5 & H6 & H7).
  assert (list_fetches t7 = 0%nat) as Hl7.
  { destruct (result (targetPipeline P target)) as [e|n].
    - destruct H7 as [->|[articles ->]]; [done|].
      by apply (only_stage_list_fetches 7), trace_saveArticles_stage.
    - destruct H7 as (articles & -> & _).
      by apply (only_stage_list_fetches 7), trace_saveArticles_stage. }
  rewrite Ht, !list_fetches_app, list_fetches_fetchListPageHtml.
  by rewrite (only_stage_list_fetches 2 t2), (only_stage_list_fetches 3 t3),
    (only_stage_list_fetches 4 t4), (only_stage_list_fetches 5 t5),
    (only_stage_list_fetches 6 t6), Hl7.
Qed.

(** X12.  A run of a target's pipeline calls [saveCrawledArticles] at
    most once; a run that returns has made the call, and returns what the
    call answered. *)
Theorem targetPipeline_saves_once :
  (saves (trace (targetPipeline P target)) <= 1)%nat /\
  (forall n, result (targetPipeline P target) = inr n ->
     saves (trace (targetPipeline P target)) = 1%nat /\
     exists articles,
       EvSave articles ∈ trace (targetPipeline P target) /\
       saveCrawledArticles P articles = inr n).
Proof.
  destruct trace_targetPipeline
    as (t2 & t3 & t4 & t5 & t6 & t7 & Ht & H2 & H3 & H4 & H5 & H6 & H7).
  rewrite Ht, !saves_app.
  rewrite (only_stage_saves 1 _ ltac:(done)
             (trace_fetchListPageHtml_stage P target)).
  rewrite (only_stage_saves 2 t2), (only_stage_saves 3 t3),
    (only_stage_saves 4 t4), (only_stage_saves 5 t5),
    (only_stage_saves 6 t6) by done.
  simpl.
  destruct (result (targetPipeline P target)) as [e|n].
  - split; [|done].
    destruct H7 as [->|[articles ->]]; [by auto|].
    by rewrite saves_saveArticles.
  - destruct H7 as (articles & -> & Hsave).
    rewrite saves_saveArticles. split; [done|].
    intros n' [= <-]. split; [done|]. exists articles. split; [|done].
    rewrite !elem_of_app. do 6 right.
    unfold saveArticles. rewrite trace_executeWithLogging.
    right. left.
Qed.

End StageCounts.

Lemma imap_pipelineId_lookup (uuid : nat -> string) (items : list obj) i :
  imap (fun i item => <["pipelineId" := VStr (uuid i)]> item) items !! i
  = (fun item => <["pipelineId" := VStr (uuid i)]> item) <$> items !! i.
Proof. by rewrite list_lookup_imap. Qed.

Section StageItems.
Variable P : provider.
Variable target : CrawlingTarget.

(** X11.  The list stage returns the parsed items in their order, each
    with a [pipelineId] of its own (the identifier drawn for its position,
    which replaces a [pipelineId] that the parser may have set) and with
    its other fields unchanged; the ids are pairwise distinct when the
    identifiers drawn are. *)
Theorem parseListPageHtml_tags_items listPageHtml items :
  parseList target listPageHtml = inr items ->
  exists parsedList,
    result (parseListPageHtml P target listPageHtml) = inr parsedList /\
    length parsedList = length items /\
    (forall i item, items !! i = Some item ->
       exists p, parsedList !! i = Some p /\
         p !! "pipelineId" = Some (VStr (randomUUID P i)) /\
         forall k, k <> "pipelineId" -> p !! k = item !! k) /\
    ((forall i j, randomUUID P i = randomUUID P j -> i = j) ->
     NoDup (map (fun p => get p "pipelineId") parsedList)).
Proof.
  intros Hitems. rewrite result_parseListPageHtml, Hitems.
  eexists. split; [done|]. split; [by rewrite length_imap|]. split.
  - intros i item Hi. eexists. rewrite imap_pipelineId_lookup, Hi.
    split; [done|]. split; [by rewrite lookup_insert_eq|].
    intros k Hk. by rewrite lookup_insert_ne.
  - intros Huuid.
    pose proof (pipelineIds_imap (randomUUID P) items 0) as Hids.
    simpl in Hids. rewrite Hids.
    apply NoDup_fmap_2; [|apply NoDup_seq].
    intros i j [= Hij]. by apply Huuid.
Qed.

Lemma detailUrls_imap (uuid : nat -> string) (items : list obj) (k : nat) :
  map (fun item => get item "detailUrl")
      (imap (fun i item => <["pipelineId" := VStr (uuid (k + i)%nat)]> item)
            items)
  = map (fun item => get item "detailUrl") items.
Proof.
  revert k. induction items as [|it items IH]; intros k; simpl; [done|].
  f_equal.
  - unfold get. by rewrite lookup_insert_ne.
  - rewrite <- (IH (S k)). f_equal. apply imap_ext. intros i x _. simpl.
    by rewrite Nat.add_succ_r.
Qed.

Lemma filter_all_known existing (parsedList : list obj) :
  Forall (fun item => known existing item = true) parsedList ->
  List.filter (fun item => negb (known existing item)) parsedList = [].
Proof.
  induction 1 as [|item l Hk _ IH]; [done|]. simpl. by rewrite Hk.
Qed.

(** The detail stage issues one fetch per item, in list order, whether
    or not one of them fails. *)
Lemma detail_fetches_fetchDetailPagesHtml (list : list obj) :
  detail_fetches (trace (fetchDetailPagesHtml P target list))
  = map (fun item => get item "detailUrl") list.
Proof.
  unfold fetchDetailPagesHtml.
  rewrite trace_executeWithLogging, trace_bind, result_bind.
  rewrite trace_Promise_all_calls.
  change (?x :: ?l) with ([x] ++ l).
  rewrite !detail_fetches_app.
  assert (forall l : Datatypes.list obj,
            detail_fetches (map (fun data => EvFetchDetail (get data "detailUrl")) l)
            = map (fun item => get item "detailUrl") l) as ->.
  { induction l as [|x l IH]; [done|]. simpl. by rewrite <- IH. }
  destruct (result (Promise_all _)) as [e|htmlList]; simpl.
  - by rewrite !app_nil_r.
  - destruct (map_indexed _ _ _ _); simpl; by rewrite !app_nil_r.
Qed.

(** X13.  The detail stage issues one fetch per list item, in list
    order (twice for a URL that is listed twice), whether or not a fetch
    fails; it throws when a fetch fails, and returns one page per item
    when none does. *)
Theorem fetchDetailPagesHtml_fetches_every_item (list : list obj) :
  detail_fetches (trace (fetchDetailPagesHtml P target list))
  = map (fun item => get item "detailUrl") list /\
  (forall item e,
     item ∈ list -> getHtmlFromUrl P (get item "detailUrl") = inl e ->
     exists e', result (fetchDetailPagesHtml P target list) = inl e') /\
  (Forall (fun item => exists h, getHtmlFromUrl P (get item "detailUrl") = inr h) list ->
   exists htmls,
     result (fetchDetailPagesHtml P target list) = inr htmls /\
     length htmls = length list).
Proof.
  split; [apply detail_fetches_fetchDetailPagesHtml|]. split.
  - intros item e Hin He.
    destruct (result (fetchDetailPagesHtml P target list)) as [e'|htmls] eqn:Hr;
      [eauto|].
    apply result_fetchDetailPagesHtml in Hr.
    apply list_elem_of_lookup in Hin as [i Hi].
    destruct (Forall2_lookup_l _ _ _ _ _ Hr Hi) as (h & _ & _ & Hh).
    congruence.
  - intros Hall.
    unfold fetchDetailPagesHtml.
    rewrite result_executeWithLogging, result_bind.
    assert (exists htmlList,
              Forall2 (fun (m : M event string) h => result m = inr h)
                (map (fun data =>
                        call (EvFetchDetail (get data "detailUrl"))
                             (getHtmlFromUrl P (get data "detailUrl"))) list)
                htmlList) as [htmlList HF].
    { induction Hall as [|item l [h Hh] _ [hs IH]]; [by exists []|].
      exists (h :: hs). by constructor. }
    rewrite (result_Promise_all_inr _ _ HF).
    pose proof (Forall2_length _ _ _ HF) as Hlen. rewrite length_map in Hlen.
    unfold result. simpl.
    rewrite (map_indexed_zip _ [] list htmlList) by lia.
    eexists. split; [done|].
    rewrite length_zip_with. lia.
Qed.

End StageItems.

Section Getter.
Context {policy : PRetry}.
Variable env : nat -> nat -> provider.
Variable stopAfterAttempt : nat.

Lemma mapping_snoc groups g :
  mapping env stopAfterAttempt (groups ++ [g])
  = <[group_name g := executeGroupPipeline env stopAfterAttempt g]>
      (mapping env stopAfterAttempt groups).
Proof. unfold mapping. by rewrite fold_left_app. Qed.

(** X14.  The [mapping] of the [chain] getter holds one pipeline per
    group name: under each name, the pipeline of the last group with that
    name, and nothing under a name that no group has.  A group that shares
    its name with a later group has no entry of its own. *)
Theorem mapping_last_group_wins groups n :
  mapping env stopAfterAttempt groups !! n
  = executeGroupPipeline env stopAfterAttempt <$> last_named n groups.
Proof.
  induction groups as [|g groups IH] using rev_ind; [done|].
  rewrite mapping_snoc. unfold last_named in *.
  rewrite List.filter_app. simpl. case_bool_decide as Hn.
  - rewrite last_snoc, <- Hn. by rewrite lookup_insert_eq.
  - rewrite app_nil_r, lookup_insert_ne by done. exact IH.
Qed.

End Getter.

(** *** The retried batch of a group *)

Lemma concat_map_app_perm {X E} (f h : X -> list E) xs :
  concat (map (fun x => f x ++ h x) xs)
  ≡ₚ concat (map f xs) ++ concat (map h xs).
Proof.
  induction xs as [|x xs IH]; [done|]. simpl. rewrite IH.
  rewrite <- !app_assoc. apply Permutation_app_head.
  rewrite !app_assoc. apply Permutation_app_tail, Permutation_app_comm.
Qed.

Lemma sublist_concat_map {X E} (h : X -> list E) xs x :
  x ∈ xs -> sublist (h x) (concat (map h xs)).
Proof.
  induction xs as [|y xs IH]; intros Hin; [inversion Hin|]. simpl.
  apply elem_of_cons in Hin as [->|Hin].
  - apply sublist_inserts_r. done.
  - apply sublist_inserts_l. by apply IH.
Qed.

Lemma tracks_start {X} (xs : list X) :
  tracks xs (fun x => ret x) (map inr xs, []).
Proof.
  split; [done|]. split.
  - simpl. induction xs as [|x xs IH]; [done|]. simpl. done.
  - intros x _. simpl. constructor.
Qed.

Lemma result_and_then {A B} (m : M event A) (step : A -> M event B) :
  result (and_then m step) = result (step_run step (result m)).
Proof. unfold and_then. by destruct (step_run step (result m)). Qed.

Lemma trace_and_then {A B} (m : M event A) (step : A -> M event B) :
  trace (and_then m step) = trace m ++ trace (step_run step (result m)).
Proof. unfold and_then. by destruct (step_run step (result m)). Qed.

Lemma tracks_pipe {X A B} (xs : list X) (g : X -> M event A)
    (step : A -> M event B) batched :
  tracks xs g batched ->
  tracks xs (fun x => and_then (g x) step) (pipe batched step).
Proof.
  destruct batched as [o t]. intros (Ho & Ht & Hs). simpl in *. subst o.
  unfold pipe, step_batch. rewrite !map_map. simpl.
  split; [|split].
  - apply map_ext. intros x. by rewrite result_and_then.
  - rewrite (map_ext _ _ (fun x => trace_and_then (g x) step)).
    rewrite concat_map_app_perm, Ht. done.
  - intros x Hx. rewrite trace_and_then.
    apply sublist_app; [by apply Hs|].
    apply (sublist_concat_map
             (fun x => trace (step_run step (result (g x)))) xs x Hx).
Qed.

Lemma sequence_batch_tracks inputs :
  tracks inputs input_run (sequence_batch inputs).
Proof.
  unfold sequence_batch, input_run.
  do 7 apply tracks_pipe. apply tracks_start.
Qed.

Lemma map_throwing_inl {A B} (f : A -> jsvalue + B) xs e :
  map_throwing f xs = inl e -> exists x, x ∈ xs /\ f x = inl e.
Proof.
  induction xs as [|x xs IH]; simpl; [done|].
  destruct (f x) as [e0|y] eqn:Hx.
  - intros [= <-]. exists x. split; [left|done].
  - destruct (map_throwing f xs) as [e0|l]; [|done].
    intros [= <-]. destruct (IH eq_refl) as (x' & Hin & Hx').
    exists x'. split; [by right|done].
Qed.

(** The merge stage throws nothing but its own [Error]. *)
Lemma result_mergeParsedArticles_error target list parsedDetails e :
  result (mergeParsedArticles target list parsedDetails) = inl e ->
  exists id, e = no_matching_list_item id.
Proof.
  unfold mergeParsedArticles. rewrite result_executeWithLogging.
  cbn [result fst]. unfold merge_records. intros He.
  apply map_throwing_inl in He as (detail & _ & He).
  destruct (Map_get _ _); [done|]. injection He as <-. eauto.
Qed.

(** The run of an input through the batch has the events of a run of its
    pipeline; it returns when the pipeline returns, throws what the last
    stage throws, and throws the [TypeError] of [describeTarget] when an
    earlier stage throws. *)
Lemma input_run_spec P target :
  trace (input_run (P, target)) = trace (targetPipeline P target) /\
  match result (targetPipeline P target) with
  | inr count => result (input_run (P, target)) = inr count
  | inl e =>
      result (input_run (P, target))
      = inl (if (saves (trace (targetPipeline P target)) =? 0)%nat
             then describeTarget_undefined else e)
  end.
Proof.
  unfold input_run, targetPipeline.
  rewrite !trace_and_then, !result_and_then.
  cbn [result trace ret fst snd step_run].
  pose proof (only_stage_saves 1 _ ltac:(done)
                (trace_fetchListPageHtml_stage P target)) as S1.
  destruct (fetchListPageHtml P target) as [[e1|listPageHtml] t1];
    cbn -[saves fetchListPageHtml parseListPageHtml dedupeListItems
          fetchDetailPagesHtml parseDetailPagesHtml mergeParsedArticles
          saveArticles] in S1 |- *.
  { rewrite ?app_nil_r, S1. split; [done|by destruct e1]. }
  pose proof (only_stage_saves 2 _ ltac:(done)
                (trace_parseListPageHtml_stage P target listPageHtml)) as S2.
  destruct (parseListPageHtml P target listPageHtml) as [[e2|parsedList] t2];
    cbn -[saves fetchListPageHtml parseListPageHtml dedupeListItems
          fetchDetailPagesHtml parseDetailPagesHtml mergeParsedArticles
          saveArticles] in S2 |- *.
  { rewrite ?app_nil_r, !saves_app, S1, S2. split; [done|by destruct e2]. }
  pose proof (only_stage_saves 3 _ ltac:(done)
                (trace_dedupeListItems_stage P target parsedList)) as S3.
  destruct (dedupeListItems P target parsedList) as [[e3|list] t3];
    cbn -[saves fetchListPageHtml parseListPageHtml dedupeListItems
          fetchDetailPagesHtml parseDetailPagesHtml mergeParsedArticles
          saveArticles] in S3 |- *.
  { rewrite ?app_nil_r, !saves_app, S1, S2, S3.
    split; [by rewrite <- ?app_assoc|by destruct e3]. }
  pose proof (only_stage_saves 4 _ ltac:(done)
                (trace_fetchDetailPagesHtml_stage P target list)) as S4.
  destruct (fetchDetailPagesHtml P target list) as [[e4|htmls] t4];
    cbn -[saves fetchListPageHtml parseListPageHtml dedupeListItems
          fetchDetailPagesHtml parseDetailPagesHtml mergeParsedArticles
          saveArticles] in S4 |- *.
  { rewrite ?app_nil_r, !saves_app, S1, S2, S3, S4.
    split; [by rewrite <- ?app_assoc|by destruct e4]. }
  pose proof (only_stage_saves 5 _ ltac:(done)
                (trace_parseDetailPagesHtml_stage target htmls)) as S5.
  destruct (parseDetailPagesHtml target htmls) as [[e5|parsedDetails] t5];
    cbn -[saves fetchListPageHtml parseListPageHtml dedupeListItems
          fetchDetailPagesHtml parseDetailPagesHtml mergeParsedArticles
          saveArticles] in S5 |- *.
  { rewrite ?app_nil_r, !saves_app, S1, S2, S3, S4, S5.
    split; [by rewrite <- ?app_assoc|by destruct e5]. }
  pose proof (only_stage_saves 6 _ ltac:(done)
                (trace_mergeParsedArticles_stage target list parsedDetails))
    as S6.
  pose proof (result_mergeParsedArticles_error target list parsedDetails)
    as R6.
  destruct (mergeParsedArticles target list parsedDetails)
    as [[e6|processedArticles] t6]; cbn -[saves fetchListPageHtml parseListPageHtml dedupeListItems
          fetchDetailPagesHtml parseDetailPagesHtml mergeParsedArticles
          saveArticles] in S6, R6 |- *.
  { rewrite ?app_nil_r, !saves_app, S1, S2, S3, S4, S5, S6.
    split; [by rewrite <- ?app_assoc|].
    destruct (R6 e6 eq_refl) as [id ->]. done. }
  pose proof (saves_saveArticles P target processedArticles) as S7.
  destruct (saveArticles P target processedArticles) as [[e7|count] t7];
    cbn -[saves fetchListPageHtml parseListPageHtml dedupeListItems
          fetchDetailPagesHtml parseDetailPagesHtml mergeParsedArticles
          saveArticles] in S7 |- *.
  - rewrite !saves_app, S1, S2, S3, S4, S5, S6, S7.
    split; [by rewrite <- ?app_assoc|done].
  - split; [by rewrite <- ?app_assoc|done].
Qed.

(** *** The stored results *)

Lemma store_lookup_notin (l : list (nat * (jsvalue + Z)))
    (m0 : gmap nat (jsvalue + Z)) i :
  i ∉ map fst l ->
  fold_left (fun m '(i, result) => <[i := result]> m) l m0 !! i = m0 !! i.
Proof.
  revert m0. induction l as [|[j r] l IH]; intros m0 Hi; [done|].
  simpl in *. apply not_elem_of_cons in Hi as [Hij Hi].
  rewrite IH by done. by rewrite lookup_insert_ne.
Qed.

Lemma store_lookup_in (l : list (nat * (jsvalue + Z)))
    (m0 : gmap nat (jsvalue + Z)) i r :
  NoDup (map fst l) -> (i, r) ∈ l ->
  fold_left (fun m '(i, result) => <[i := result]> m) l m0 !! i = Some r.
Proof.
  revert m0. induction l as [|[j r'] l IH]; intros m0 Hnd Hin;
    [inversion Hin|].
  simpl in *. apply NoDup_cons in Hnd as [Hj Hnd].
  apply elem_of_cons in Hin as [[= <- <-]|Hin].
  - rewrite store_lookup_notin by done. by rewrite lookup_insert_eq.
  - by apply IH.
Qed.

Lemma zip_map_fst {X Y} (g : X -> Y) (f : X -> nat) (l : list X) :
  zip (map f l) (map g l) = map (fun x => (f x, g x)) l.
Proof. induction l as [|x l IH]; [done|]. simpl. by rewrite IH. Qed.

Lemma imap_pair_fst {X} (l : list X) (a : nat) :
  map fst (imap (fun i x => (a + i, x)%nat) l) = seq a (length l).
Proof.
  revert a. induction l as [|x l IH]; intros a; [done|]. simpl.
  rewrite Nat.add_0_r. f_equal.
  rewrite <- (IH (S a)). f_equal. apply imap_ext. intros i y _. simpl.
  f_equal. lia.
Qed.

Lemma imap_pair_indexes {X} (l : list X) :
  map fst (imap pair l) = seq 0 (length l).
Proof. apply (imap_pair_fst l 0). Qed.

Lemma elem_of_imap_pair {X} (l : list X) i x :
  (i, x) ∈ imap pair l <-> l !! i = Some x.
Proof.
  rewrite elem_of_lookup_imap. split.
  - intros (j & y & [= -> ->] & Hj). done.
  - intros Hi. by exists i, x.
Qed.

Lemma NoDup_filter_fst {X} (p : nat * X -> bool) (l : list X) :
  NoDup (map fst (List.filter p (imap pair l))).
Proof.
  assert (NoDup (map fst (imap pair l))) as Hnd
    by (rewrite imap_pair_indexes; apply NoDup_seq).
  induction (imap pair l) as [|x xs IH]; [constructor|].
  simpl in *. apply NoDup_cons in Hnd as [Hx Hnd].
  destruct (p x); [|by apply IH]. simpl.
  apply NoDup_cons. split; [|by apply IH].
  intros Hin. apply Hx.
  apply list_elem_of_In, in_map_iff in Hin as (y & Hy & Hin).
  apply filter_In in Hin as [Hin _].
  apply list_elem_of_In, in_map_iff. by exists y.
Qed.

(** *** The first exception *)

Lemma firstException_None results :
  firstException results = None <->
  Forall (fun r => match r with inl e => instanceof_Error e = false
                              | inr _ => True end) results.
Proof.
  induction results as [|[e|c] results IH]; simpl.
  - split; [constructor|done].
  - destruct (instanceof_Error e) eqn:He.
    + split; [done|]. intros HF. inversion HF; congruence.
    + rewrite IH. split; [by constructor|]. intros HF. by inversion HF.
  - rewrite IH. split; [by constructor|]. intros HF. by inversion HF.
Qed.

Lemma firstException_Some results e :
  firstException results = Some e ->
  inl e ∈ results /\ instanceof_Error e = true.
Proof.
  induction results as [|[e0|c] results IH]; simpl; [done| |].
  - destruct (instanceof_Error e0) eqn:He.
    + intros [= <-]. split; [left|done].
    + intros Hf. destruct (IH Hf). split; [by right|done].
  - intros Hf. destruct (IH Hf). split; [by right|done].
Qed.


Lemma reduce_counts_returned counts sum :
  reduce_counts (map inr counts) (Some sum)
  = inr (Some (fold_left (fun sum count => (sum + count)%Z) counts sum)).
Proof.
  revert sum. induction counts as [|c counts IH]; intros sum; [done|].
  simpl. apply IH.
Qed.

Lemma omap_seq_lookup {Y} (f : nat -> option Y) (l : list Y) a :
  (forall j, (j < length l)%nat -> f (a + j)%nat = l !! j) ->
  omap f (seq a (length l)) = l.
Proof.
  revert a. induction l as [|y l IH]; intros a Hf; [done|].
  change (omap f (seq a (length (y :: l))))
    with (match f a with
          | Some z => z :: omap f (seq (S a) (length l))
          | None => omap f (seq (S a) (length l))
          end).
  pose proof (Hf 0%nat ltac:(simpl; lia)) as H0.
  rewrite Nat.add_0_r in H0. rewrite H0. simpl. f_equal.
  apply IH. intros j Hj. specialize (Hf (S j) ltac:(simpl; lia)).
  simpl in Hf. rewrite <- Hf. f_equal. lia.
Qed.

Lemma filter_imap_none {X} (p : nat -> bool) (l : list X) a :
  (forall j, (j < length l)%nat -> p (a + j)%nat = false) ->
  List.filter (fun '(j, _) => p j) (imap (fun j y => (a + j, y)%nat) l) = [].
Proof.
  revert a. induction l as [|y l IH]; intros a Hp; [done|]. simpl.
  rewrite (Hp 0%nat ltac:(simpl; lia)).
  rewrite <- (IH (S a)).
  - f_equal. apply imap_ext. intros j z _. simpl. f_equal. lia.
  - intros j Hj. replace (S a + j)%nat with (a + S j)%nat by lia.
    apply Hp. simpl. lia.
Qed.

Lemma filter_imap_single {X} (p : nat -> bool) (l : list X) i x a :
  l !! i = Some x ->
  (forall j, (j < length l)%nat -> p (a + j)%nat = bool_decide (j = i)) ->
  List.filter (fun '(j, _) => p j) (imap (fun j y => (a + j, y)%nat) l)
  = [((a + i)%nat, x)].
Proof.
  revert i a. induction l as [|y l IH]; intros i a Hi Hp; [done|].
  simpl. rewrite (Hp 0%nat ltac:(simpl; lia)).
  destruct i as [|i]; simpl in *.
  - injection Hi as ->. f_equal.
    rewrite <- (filter_imap_none p l (S a)).
    + f_equal. apply imap_ext. intros j z _. simpl. f_equal. lia.
    + intros j Hj. replace (S a + j)%nat with (a + S j)%nat by lia.
      rewrite (Hp (S j)) by lia. by rewrite bool_decide_false.
  - cbn [length] in Hp.
    replace (a + S i)%nat with (S a + i)%nat by lia.
    rewrite <- (IH i (S a) Hi).
    + f_equal. apply imap_ext. intros j z _. simpl. f_equal. lia.
    + intros j Hj. replace (S a + j)%nat with (a + S j)%nat by lia.
      rewrite (Hp (S j)) by lia.
      apply bool_decide_ext. lia.
Qed.

Section Batch.
Context {policy : PRetry}.
Variable env : nat -> nat -> provider.

Lemma pRetry_eq inputs retries n errors resultsMap :
  pRetry env inputs retries n errors resultsMap
  = let results := attempt_results env inputs n resultsMap in
    let t := attempt_trace env inputs n resultsMap in
    let resultsMap' :=
      store (map fst (remainingInputs inputs resultsMap)) results
            resultsMap in
    match firstException results with
    | None => (inr resultsMap', t)
    | Some e =>
        if instanceof_TypeError e && negb (isNetworkError (message_of e))
        then (inl e, t)
        else
          match retries with
          | O => (inl (mainError (errors ++ [e])), t)
          | S retries' =>
              let '(r, t') :=
                pRetry env inputs retries' (S n) (errors ++ [e]) resultsMap' in
              (r, t ++ t')
          end
    end.
Proof.
  unfold attempt_results, attempt_trace, remainingInputs.
  set (rem := List.filter _ _).
  pose proof (sequence_batch_tracks
                (map (fun '(i, target) => (env i n, target)) rem))
    as (Hres & _).
  rewrite map_map in Hres.
  rewrite (map_ext _ (fun '(i, target) =>
                        result (input_run (env i n, target)))) in Hres
    by (by intros []).
  assert (pRetry env inputs retries n errors resultsMap
          = let '(results, t) :=
              sequence_batch
                (map (fun '(i, target) => (env i n, target)) rem) in
            let resultsMap' := store (map fst rem) results resultsMap in
            match firstException results with
            | None => (inr resultsMap', t)
            | Some e =>
                if instanceof_TypeError e
                   && negb (isNetworkError (message_of e))
                then (inl e, t)
                else
                  match retries with
                  | O => (inl (mainError (errors ++ [e])), t)
                  | S retries' =>
                      let '(r, t') :=
                        pRetry env inputs retries' (S n) (errors ++ [e])
                               resultsMap' in
                      (r, t ++ t')
                  end
            end) as -> by (by destruct retries).
  destruct (sequence_batch _) as [results t]. cbn [fst snd] in *.
  by subst results.
Qed.

Lemma elem_of_remainingInputs inputs resultsMap i target :
  (i, target) ∈ remainingInputs inputs resultsMap <->
  inputs !! i = Some target /\ remaining resultsMap i = true.
Proof.
  unfold remainingInputs.
  rewrite list_elem_of_In, filter_In, <- list_elem_of_In, elem_of_imap_pair.
  done.
Qed.

Lemma attempt_stored inputs n resultsMap i target :
  inputs !! i = Some target -> remaining resultsMap i = true ->
  store (map fst (remainingInputs inputs resultsMap))
        (attempt_results env inputs n resultsMap) resultsMap !! i
  = Some (result (input_run (env i n, target))).
Proof.
  intros Hi Hrem. unfold store, attempt_results.
  rewrite zip_map_fst. apply store_lookup_in.
  - rewrite map_map. simpl. apply NoDup_filter_fst.
  - apply list_elem_of_In, in_map_iff. exists (i, target).
    split; [done|]. apply list_elem_of_In, elem_of_remainingInputs. done.
Qed.

Lemma attempt_kept inputs n resultsMap i :
  remaining resultsMap i = false ->
  store (map fst (remainingInputs inputs resultsMap))
        (attempt_results env inputs n resultsMap) resultsMap !! i
  = resultsMap !! i.
Proof.
  intros Hrem. unfold store, attempt_results.
  rewrite zip_map_fst. apply store_lookup_notin.
  rewrite map_map. simpl. intros Hin.
  apply list_elem_of_In, in_map_iff in Hin as ([j target] & <- & Hin).
  apply list_elem_of_In, elem_of_remainingInputs in Hin as [_ Hj].
  simpl in Hrem. congruence.
Qed.



Lemma remaining_empty i : remaining ∅ i = true.
Proof. unfold remaining. by rewrite lookup_empty. Qed.

Lemma remainingInputs_first inputs :
  remainingInputs inputs ∅ = imap pair inputs.
Proof.
  unfold remainingInputs. induction (imap pair inputs) as [|[i t] l IH]; [done|].
  simpl. by rewrite remaining_empty, IH.
Qed.

Lemma omap_fst_map {X Y} (f : nat -> option Y) (g : nat * X -> Y)
    (l : list (nat * X)) :
  (forall x, x ∈ l -> f x.1 = Some (g x)) ->
  omap f (map fst l) = map g l.
Proof.
  induction l as [|x l IH]; intros Hf; [done|].
  change (omap f (map fst (x :: l)))
    with (match f x.1 with
          | Some y => y :: omap f (map fst l)
          | None => omap f (map fst l)
          end).
  rewrite (Hf x) by left. rewrite IH; [done|].
  intros y Hy. apply Hf. by right.
Qed.

(** After the first attempt every input has its result. *)
Lemma first_attempt_stored inputs n :
  omap (fun i => store (map fst (remainingInputs inputs ∅))
                       (attempt_results env inputs n ∅) ∅ !! i)
       (seq 0 (length inputs))
  = attempt_results env inputs n ∅.
Proof.
  rewrite <- imap_pair_indexes. unfold attempt_results at 2.
  rewrite remainingInputs_first.
  apply (omap_fst_map
           (fun i => store (map fst (imap pair inputs))
                       (attempt_results env inputs n ∅) ∅ !! i)
           (fun '(i, target) => result (input_run (env i n, target)))).
  intros [i target] Hin. simpl. apply elem_of_imap_pair in Hin.
  rewrite <- (remainingInputs_first inputs).
  apply attempt_stored; [done|apply remaining_empty].
Qed.

Lemma attempt_results_first inputs n :
  attempt_results env inputs n ∅
  = imap (fun i target => result (input_run (env i n, target))) inputs.
Proof.
  unfold attempt_results. rewrite remainingInputs_first.
  change (map ?f (imap ?g ?l)) with (f <$> imap g l).
  rewrite fmap_imap. done.
Qed.

(** When the pipeline of every input returns in the first attempt, the
    batch returns their counts after this one attempt. *)
Lemma batch_all_return stopAfterAttempt inputs counts :
  Forall2 (fun m count => result m = inr count)
          (imap (fun i target => targetPipeline (env i 1%nat) target) inputs)
          counts ->
  batch env stopAfterAttempt inputs
  = (inr (map inr counts), attempt_trace env inputs 1 ∅).
Proof.
  intros HF.
  assert (attempt_results env inputs 1 ∅ = map inr counts) as Hres.
  { rewrite attempt_results_first.
    apply list_eq. intros i. rewrite list_lookup_imap, list_lookup_fmap.
    destruct (inputs !! i) as [target|] eqn:Hi; simpl.
    - destruct (Forall2_lookup_l _ _ _ i (targetPipeline (env i 1%nat) target) HF)
        as (count & Hc & Hr).
      { by rewrite list_lookup_imap, Hi. }
      rewrite Hc. simpl. f_equal.
      destruct (input_run_spec (env i 1%nat) target) as [_ Hspec].
      by rewrite Hr in Hspec.
    - apply Forall2_length in HF. rewrite length_imap in HF.
      apply lookup_ge_None in Hi.
      rewrite (proj2 (lookup_ge_None counts i)) by lia. done. }
  unfold batch. rewrite pRetry_eq. cbv zeta.
  assert (firstException (attempt_results env inputs 1 ∅) = None) as ->.
  { rewrite Hres. apply firstException_None, Forall_forall.
    intros r Hr. apply list_elem_of_In, in_map_iff in Hr as (c & <- & _).
    done. }
  unfold bind, ret. rewrite first_attempt_stored, Hres, app_nil_r. done.
Qed.

(** The events of an attempt come first in the trace of the retry. *)
Lemma pRetry_trace_first inputs retries n errors resultsMap :
  exists rest,
    trace (pRetry env inputs retries n errors resultsMap)
    = attempt_trace env inputs n resultsMap ++ rest.
Proof.
  rewrite pRetry_eq. cbv zeta.
  destruct (firstException _) as [e|]; [|exists []; by rewrite app_nil_r].
  destruct (_ && _); [exists []; by rewrite app_nil_r|].
  destruct retries as [|retries]; [exists []; by rewrite app_nil_r|].
  destruct (pRetry _ _ _ _ _ _) as [r t']. by exists t'.
Qed.


Lemma list_fetches_perm t1 t2 :
  t1 ≡ₚ t2 -> list_fetches t1 = list_fetches t2.
Proof.
  unfold list_fetches. induction 1 as [|x l l' _ IH|x y l|l l' l'' _ IH1 _ IH2];
    simpl; [done| | |congruence].
  - destruct (is_list_fetch x); simpl; congruence.
  - by destruct (is_list_fetch x), (is_list_fetch y).
Qed.

Lemma list_fetches_concat_runs (ins : list (provider * CrawlingTarget)) :
  list_fetches (concat (map (fun x => trace (input_run x)) ins))
  = length ins.
Proof.
  induction ins as [|[P target] ins IH]; [done|]. simpl.
  rewrite list_fetches_app, IH.
  destruct (input_run_spec P target) as [-> _].
  by rewrite list_fetches_run.
Qed.

(** An attempt fetches the list page of each input that it runs. *)
Lemma list_fetches_attempt inputs n resultsMap :
  list_fetches (attempt_trace env inputs n resultsMap)
  = length (remainingInputs inputs resultsMap).
Proof.
  unfold attempt_trace.
  destruct (sequence_batch_tracks
              (map (fun '(i, target) => (env i n, target))
                   (remainingInputs inputs resultsMap)))
    as (_ & Hperm & _).
  rewrite (list_fetches_perm _ _ Hperm), list_fetches_concat_runs.
  by rewrite length_map.
Qed.

Lemma remainingInputs_length inputs resultsMap :
  (length (remainingInputs inputs resultsMap) <= length inputs)%nat.
Proof.
  unfold remainingInputs. rewrite <- (length_imap pair inputs).
  induction (imap pair inputs) as [|x l IH]; [done|]. simpl.
  destruct x as [i t]. destruct (remaining resultsMap i); simpl; lia.
Qed.

(** The retry makes [retries + 1] attempts at most. *)
Lemma pRetry_list_fetches_le inputs retries n errors resultsMap :
  (list_fetches (trace (pRetry env inputs retries n errors resultsMap))
   <= S retries * length inputs)%nat.
Proof.
  revert n errors resultsMap.
  induction retries as [|retries IH]; intros n errors resultsMap.
  all: rewrite pRetry_eq; cbv zeta.
  all: pose proof (remainingInputs_length inputs resultsMap) as Hlen.
  all: pose proof (list_fetches_attempt inputs n resultsMap) as Hone.
  all: destruct (firstException _) as [e|]; [|cbn [trace snd]; lia].
  all: destruct (_ && _); [cbn [trace snd]; lia|].
  - cbn [trace snd]. lia.
  - match goal with |- context [pRetry env inputs retries ?a ?b ?c] =>
      specialize (IH a b c); destruct (pRetry env inputs retries a b c)
        as [r t'] end.
    cbn [trace snd] in *. rewrite list_fetches_app. lia.
Qed.

(** The first result that is an [Error], when the results before it are
    counts. *)
Lemma firstException_first (results : list (jsvalue + Z)) i e :
  results !! i = Some (inl e) -> instanceof_Error e = true ->
  (forall j, (j < i)%nat -> exists c, results !! j = Some (inr c)) ->
  firstException results = Some e.
Proof.
  revert i. induction results as [|r results IH]; intros i Hi He Hbefore;
    [done|].
  destruct i as [|i]; simpl in *.
  - injection Hi as ->. by rewrite He.
  - destruct (Hbefore 0%nat ltac:(lia)) as [c [= ->]].
    apply (IH i); [done|done|].
    intros j Hj. apply (Hbefore (S j)). lia.
Qed.

(** The batch is not run again after the [TypeError] of an input whose
    pipeline threw before its last stage. *)
Lemma batch_stops_on_TypeError stopAfterAttempt inputs i target e :
  inputs !! i = Some target ->
  (forall j t, (j < i)%nat -> inputs !! j = Some t ->
     exists c, result (targetPipeline (env j 1%nat) t) = inr c) ->
  result (targetPipeline (env i 1%nat) target) = inl e ->
  saves (trace (targetPipeline (env i 1%nat) target)) = 0%nat ->
  isNetworkError (message_of describeTarget_undefined) = false ->
  batch env stopAfterAttempt inputs
  = (inl describeTarget_undefined, attempt_trace env inputs 1 ∅).
Proof.
  intros Hi Hbefore He Hsaves Hnet.
  unfold batch. rewrite pRetry_eq. cbv zeta.
  rewrite (firstException_first _ i describeTarget_undefined).
  - rewrite Hnet. cbn [instanceof_TypeError describeTarget_undefined andb negb].
    unfold bind. by rewrite ?app_nil_r.
  - rewrite attempt_results_first, list_lookup_imap, Hi. simpl.
    destruct (input_run_spec (env i 1%nat) target) as [_ Hspec].
    rewrite He, Hsaves in Hspec. by rewrite Hspec.
  - done.
  - intros j Hj. rewrite attempt_results_first, list_lookup_imap.
    destruct (lookup_lt_is_Some_2 inputs j) as [t Ht].
    { apply lookup_lt_Some in Hi. lia. }
    rewrite Ht. simpl. destruct (Hbefore j t Hj Ht) as [c Hc].
    destruct (input_run_spec (env j 1%nat) t) as [_ Hspec].
    rewrite Hc in Hspec. rewrite Hspec. by exists c.
Qed.

End Batch.

Section GroupTotal.
Context {policy : PRetry}.
Variable env : nat -> nat -> provider.
Variable stopAfterAttempt : nat.



Lemma list_fetches_group group :
  list_fetches (trace (executeGroupPipeline env stopAfterAttempt group))
  = list_fetches (trace (batch env stopAfterAttempt (targets group))).
Proof.
  unfold executeGroupPipeline.
  rewrite trace_executeWithLogging, trace_bind.
  rewrite result_bind.
  change (?x :: ?l) with ([x] ++ l).
  rewrite !list_fetches_app.
  destruct (result (batch env stopAfterAttempt (targets group))) as [e|r];
    cbn [trace snd result fst];
    [|destruct (reduce_counts r (Some 0%Z))];
    change (list_fetches []) with 0%nat;
    change (list_fetches [log_event _]) with 0%nat;
    change (list_fetches [log_event _; log_event _]) with 0%nat; lia.
Qed.

Lemma trace_batch inputs :
  trace (batch env stopAfterAttempt inputs)
  = trace (pRetry env inputs (stopAfterAttempt - 1) 1 [] ∅).
Proof.
  unfold batch. rewrite trace_bind.
  destruct (result _); by rewrite app_nil_r.
Qed.

Lemma list_fetches_first_attempt inputs n :
  list_fetches (attempt_trace env inputs n ∅) = length inputs.
Proof.
  by rewrite list_fetches_attempt, remainingInputs_first, length_imap.
Qed.

(** The second attempt runs the one input whose last stage threw an
    [Error] in the first attempt, and its count joins those of the first
    attempt. *)
Lemma batch_retries_failed_save inputs i target message counts count :
  (2 <= stopAfterAttempt)%nat ->
  inputs !! i = Some target ->
  result (targetPipeline (env i 1%nat) target) = inl (JsError message) ->
  saves (trace (targetPipeline (env i 1%nat) target)) = 1%nat ->
  result (targetPipeline (env i 2%nat) target) = inr count ->
  length counts = length inputs ->
  counts !! i = Some count ->
  (forall j t, j <> i -> inputs !! j = Some t ->
     exists c, counts !! j = Some c /\
               result (targetPipeline (env j 1%nat) t) = inr c) ->
  result (batch env stopAfterAttempt inputs) = inr (map inr counts) /\
  list_fetches (trace (batch env stopAfterAttempt inputs))
  = S (length inputs).
Proof.
  intros Hs Hi He Hsaves Hc Hlen Hci Hothers.
  rewrite trace_batch. unfold batch. rewrite result_bind.
  destruct (stopAfterAttempt - 1)%nat as [|retries] eqn:Hr; [lia|].
  rewrite pRetry_eq. cbv zeta.
  set (m1 := store (map fst (remainingInputs inputs ∅))
                   (attempt_results env inputs 1 ∅) ∅).
  assert (m1 !! i = Some (inl (JsError message))) as Hm1i.
  { unfold m1. rewrite (attempt_stored env _ _ _ _ _ Hi (remaining_empty i)).
    destruct (input_run_spec (env i 1%nat) target) as [_ Hspec].
    rewrite He, Hsaves in Hspec. by rewrite Hspec. }
  assert (forall j, (j < length inputs)%nat -> j <> i ->
            exists c, counts !! j = Some c /\ m1 !! j = Some (inr c)) as Hm1j.
  { intros j Hj Hne. destruct (lookup_lt_is_Some_2 inputs j Hj) as [t Ht].
    destruct (Hothers j t Hne Ht) as (c & Hcj & Hrj).
    exists c. split; [done|]. unfold m1.
    rewrite (attempt_stored env _ _ _ _ _ Ht (remaining_empty j)).
    destruct (input_run_spec (env j 1%nat) t) as [_ Hspec].
    rewrite Hrj in Hspec. by rewrite Hspec. }
  assert (firstException (attempt_results env inputs 1 ∅)
          = Some (JsError message)) as ->.
  { destruct (firstException _) as [e|] eqn:Hf.
    - apply firstException_Some in Hf as [Hin HE].
      rewrite attempt_results_first in Hin.
      apply elem_of_lookup_imap in Hin as (j & t & Hjt & Hj).
      destruct (decide (j = i)) as [->|Hne].
      + rewrite Hi in Hj. injection Hj as <-.
        destruct (input_run_spec (env i 1%nat) target) as [_ Hspec].
        rewrite He, Hsaves in Hspec. rewrite Hspec in Hjt.
        by injection Hjt as ->.
      + destruct (Hothers j t Hne Hj) as (c & _ & Hrj).
        destruct (input_run_spec (env j 1%nat) t) as [_ Hspec].
        rewrite Hrj in Hspec. by rewrite Hspec in Hjt.
    - apply firstException_None in Hf.
      assert (inl (JsError message) ∈ attempt_results env inputs 1 ∅) as Hin.
      { rewrite attempt_results_first.
        apply elem_of_lookup_imap. exists i, target. split; [|done].
        destruct (input_run_spec (env i 1%nat) target) as [_ Hspec].
        rewrite He, Hsaves in Hspec. by rewrite Hspec. }
      by pose proof (proj1 (Forall_forall _ _) Hf _ Hin). }
  cbn [instanceof_TypeError andb]. fold m1.
  rewrite pRetry_eq. cbv zeta.
  assert (remainingInputs inputs m1 = [(i, target)]) as Hin2.
  { unfold remainingInputs.
    apply (filter_imap_single (remaining m1) inputs i target 0 Hi).
    intros j Hj. simpl. unfold remaining.
    destruct (decide (j = i)) as [->|Hne].
    - by rewrite Hm1i, bool_decide_true.
    - destruct (Hm1j j Hj Hne) as (c & _ & ->). by rewrite bool_decide_false. }
  assert (attempt_results env inputs 2 m1 = [inr count]) as Hres2.
  { unfold attempt_results. rewrite Hin2. simpl.
    destruct (input_run_spec (env i 2%nat) target) as [_ Hspec].
    rewrite Hc in Hspec. by rewrite Hspec. }
  assert (firstException (attempt_results env inputs 2 m1) = None) as ->
    by (by rewrite Hres2).
  pose proof (list_fetches_first_attempt inputs 1) as Hf1.
  pose proof (list_fetches_attempt env inputs 2 m1) as Hf2.
  rewrite Hin2 in Hf2.
  split.
  - cbn [result fst ret]. f_equal.
    rewrite <- Hlen, <- (length_map (@inr jsvalue Z) counts).
    apply omap_seq_lookup. intros j Hj. rewrite length_map in Hj.
    simpl. rewrite list_lookup_fmap.
    destruct (decide (j = i)) as [->|Hne].
    + rewrite (attempt_stored env _ _ _ _ _ Hi); [|unfold remaining; by rewrite Hm1i].
      destruct (input_run_spec (env i 2%nat) target) as [_ Hspec].
      rewrite Hc in Hspec. by rewrite Hspec, Hci.
    + destruct (Hm1j j ltac:(lia) Hne) as (c & Hcj & Hmj).
      rewrite attempt_kept; [|unfold remaining; by rewrite Hmj].
      by rewrite Hmj, Hcj.
  - cbn [trace snd]. rewrite list_fetches_app, Hf1, Hf2. simpl. lia.
Qed.

(** X15.  The retry of the batch.  A run of the group pipeline makes one
    attempt at least and [max(1, stopAfterAttempt)] attempts at most, and
    an attempt fetches the list page of each target that it runs.  When
    every run of the first attempt returns, there is no second attempt.
    Nor is there one, whatever [stopAfterAttempt] is, when the first
    target whose run throws does so before its save stage: the group
    pipeline then throws the [TypeError] of [describeTarget].  When the
    run of one target throws an [Error] at its save stage and the other
    runs return, the second attempt runs this target alone; when its run
    returns then, its count joins the counts of the first attempt in the
    total. *)
Theorem batch_retry_attempts group :
  (length (targets group)
   <= list_fetches (trace (executeGroupPipeline env stopAfterAttempt group))
   <= Nat.max 1 stopAfterAttempt * length (targets group))%nat /\
  (forall counts,
     Forall2 (fun m count => result m = inr count) (runs env 1 group) counts ->
     list_fetches (trace (executeGroupPipeline env stopAfterAttempt group))
     = length (targets group)) /\
  (forall i m e,
     runs env 1 group !! i = Some m ->
     result m = inl e -> saves (trace m) = 0%nat ->
     (forall j m', (j < i)%nat -> runs env 1 group !! j = Some m' ->
        exists c, result m' = inr c) ->
     isNetworkError (message_of describeTarget_undefined) = false ->
     result (executeGroupPipeline env stopAfterAttempt group)
     = inl describeTarget_undefined /\
     list_fetches (trace (executeGroupPipeline env stopAfterAttempt group))
     = length (targets group)) /\
  (forall i m1 m2 message counts count,
     (2 <= stopAfterAttempt)%nat ->
     runs env 1 group !! i = Some m1 ->
     result m1 = inl (JsError message) -> saves (trace m1) = 1%nat ->
     runs env 2 group !! i = Some m2 -> result m2 = inr count ->
     length counts = length (targets group) -> counts !! i = Some count ->
     (forall j m, j <> i -> runs env 1 group !! j = Some m ->
        exists c, counts !! j = Some c /\ result m = inr c) ->
     result (executeGroupPipeline env stopAfterAttempt group)
     = inr (Some (fold_left (fun sum count => (sum + count)%Z) counts 0%Z)) /\
     list_fetches (trace (executeGroupPipeline env stopAfterAttempt group))
     = S (length (targets group))).
Proof.
  split; [|split; [|split]].
  - rewrite list_fetches_group, trace_batch. split.
    + destruct (pRetry_trace_first env (targets group)
                  (stopAfterAttempt - 1) 1 [] ∅) as [rest ->].
      rewrite list_fetches_app, list_fetches_first_attempt. lia.
    + pose proof (pRetry_list_fetches_le env (targets group)
                    (stopAfterAttempt - 1) 1 [] ∅) as Hle.
      replace (Nat.max 1 stopAfterAttempt) with (S (stopAfterAttempt - 1))
        by lia.
      exact Hle.
  - intros counts HF.
    rewrite list_fetches_group,
      (batch_all_return env stopAfterAttempt _ counts HF).
    apply list_fetches_first_attempt.
  - intros i m e Hm He Hsaves Hbefore Hnet.
    unfold runs in Hm. rewrite list_lookup_imap in Hm.
    destruct (targets group !! i) as [target|] eqn:Hi; [|done].
    injection Hm as <-.
    pose proof (batch_stops_on_TypeError env stopAfterAttempt (targets group)
                  i target e Hi) as Hstop.
    rewrite list_fetches_group. unfold executeGroupPipeline.
    rewrite result_executeWithLogging, result_bind, Hstop; try done.
    + split; [done|]. apply list_fetches_first_attempt.
    + intros j t Hj Ht. apply (Hbefore j); [done|].
      unfold runs. by rewrite list_lookup_imap, Ht.
  - intros i m1 m2 message counts count Hs Hm1 He1 Hsaves Hm2 He2 Hlen Hci
      Hothers.
    unfold runs in Hm1, Hm2. rewrite list_lookup_imap in Hm1, Hm2.
    destruct (targets group !! i) as [target|] eqn:Hi; [|done].
    injection Hm1 as <-. injection Hm2 as <-.
    destruct (batch_retries_failed_save (targets group) i target message
                counts count Hs Hi He1 Hsaves He2 Hlen Hci) as [Hres Hfetch].
    { intros j t Hne Ht. apply (Hothers j); [done|].
      unfold runs. by rewrite list_lookup_imap, Ht. }
    rewrite list_fetches_group. split; [|done].
    unfold executeGroupPipeline.
    rewrite result_executeWithLogging, result_bind, Hres.
    cbn [result fst]. apply reduce_counts_returned.
Qed.

End GroupTotal.




Lemma batch_retry_attempts_witness :
  result (executeGroupPipeline (policy := demo_pRetry) demo_env_retry 2 demo_group)
  = inr (Some 2%Z) /\
  list_fetches
    (trace (executeGroupPipeline (policy := demo_pRetry) demo_env_retry 2
              demo_group))
  = 3%nat.
Proof.
  destruct (batch_retry_attempts (policy := demo_pRetry) demo_env_retry 2
              demo_group) as (_ & _ & _ & Hretry).
  eapply (Hretry 0%nat _ _ "database is locked" [1%Z; 1%Z] 1%Z).
  - lia.
  - reflexivity.
  - vm_compute. reflexivity.
  - vm_compute. reflexivity.
  - reflexivity.
  - vm_compute. reflexivity.
  - reflexivity.
  - reflexivity.
  - intros [|[|j]] m Hne Hm; [done| |done].
    injection Hm as <-. exists 1%Z. split; [done|]. vm_compute. reflexivity.
Defined.


Section Nothing.
Variable P : provider.
Variable target : CrawlingTarget.

(** X16.  When every parsed item is already stored (or the list is
    empty), the run fetches no detail page and still calls
    [saveCrawledArticles], with an empty list; it returns what that call
    answers. *)
Theorem targetPipeline_nothing_new listPageHtml items existingArticles :
  getHtmlFromUrl P (VStr (url target)) = inr listPageHtml ->
  parseList target listPageHtml = inr items ->
  fetchExistingArticlesByUrls P (map (fun item => get item "detailUrl") items)
  = inr existingArticles ->
  Forall (fun item => known existingArticles item = true) items ->
  result (targetPipeline P target) = saveCrawledArticles P [] /\
  detail_fetches (trace (targetPipeline P target)) = [] /\
  EvSave [] ∈ trace (targetPipeline P target).
Proof.
  intros Hhtml Hitems Hex Hknown.
  set (parsedList :=
         imap (fun i item => <["pipelineId" := VStr (randomUUID P i)]> item)
              items).
  assert (result (parseListPageHtml P target listPageHtml) = inr parsedList)
    as H2 by by rewrite result_parseListPageHtml, Hitems.
  assert (map (fun item => get item "detailUrl") parsedList
          = map (fun item => get item "detailUrl") items) as Hurls
    by apply (detailUrls_imap (randomUUID P) items 0).
  assert (result (dedupeListItems P target parsedList) = inr []) as H3.
  { rewrite result_dedupeListItems, Hurls, Hex. f_equal.
    apply filter_all_known. apply Forall_forall. intros p Hp.
    apply elem_of_lookup_imap in Hp as (i & item & -> & Hi).
    pose proof (proj1 (Forall_forall _ _) Hknown item
                  (list_elem_of_lookup_2 _ _ _ Hi)) as Hk.
    unfold known, get in *. by rewrite lookup_insert_ne. }
  pose proof (trace_fetchListPageHtml_stage P target) as S1.
  pose proof (trace_parseListPageHtml_stage P target listPageHtml) as S2.
  pose proof (trace_dedupeListItems_stage P target parsedList) as S3.
  unfold targetPipeline.
  rewrite result_bind, trace_bind, result_fetchListPageHtml, Hhtml.
  rewrite result_bind, trace_bind, H2.
  rewrite result_bind, trace_bind, H3.
  set (t1 := trace (fetchListPageHtml P target)) in *.
  set (t2 := trace (parseListPageHtml P target listPageHtml)) in *.
  set (t3 := trace (dedupeListItems P target parsedList)) in *.
  rewrite result_bind, trace_bind.
  change (result (fetchDetailPagesHtml P target [])) with
    (@inr jsvalue (Datatypes.list HtmlWithPipelineId) []).
  cbv iota beta.
  rewrite result_bind, trace_bind.
  change (result (parseDetailPagesHtml target [])) with
    (@inr jsvalue (Datatypes.list obj) []).
  cbv iota beta.
  rewrite result_bind, trace_bind.
  change (result (mergeParsedArticles target [] [])) with
    (@inr jsvalue (Datatypes.list obj) []).
  cbv iota beta.
  split; [|split].
  - unfold saveArticles. by rewrite result_executeWithLogging.
  - rewrite !detail_fetches_app.
    rewrite (only_stage_detail_fetches 1 t1), (only_stage_detail_fetches 2 t2),
      (only_stage_detail_fetches 3 t3) by done.
    rewrite detail_fetches_fetchDetailPagesHtml.
    rewrite (only_stage_detail_fetches 5 _ ltac:(done)
               (trace_parseDetailPagesHtml_stage target [])).
    rewrite (only_stage_detail_fetches 6 _ ltac:(done)
               (trace_mergeParsedArticles_stage target [] [])).
    rewrite (only_stage_detail_fetches 7 _ ltac:(done)
               (trace_saveArticles_stage P target [])).
    done.
  - rewrite !elem_of_app. do 6 right.
    unfold saveArticles. rewrite trace_executeWithLogging. right. left.
Qed.

End Nothing.

Lemma targetPipeline_nothing_new_witness :
  result (targetPipeline demo_provider
            (demo_target "https://site.test/list1"
               [demo_item "https://site.test/a2" "A2"])) = inr 0%Z /\
  EvSave [] ∈ trace (targetPipeline demo_provider
                       (demo_target "https://site.test/list1"
                          [demo_item "https://site.test/a2" "A2"])).
Proof.
  destruct (targetPipeline_nothing_new demo_provider
              (demo_target "https://site.test/list1"
                 [demo_item "https://site.test/a2" "A2"])
              "HTML:https://site.test/list1"
              [demo_item "https://site.test/a2" "A2"] demo_existing)
    as (Hr & _ & Hs).
  - reflexivity.
  - reflexivity.
  - reflexivity.
  - repeat constructor.
  - split; [exact Hr|exact Hs].
Defined.

Lemma parseListPageHtml_tags_items_witness :
  exists parsedList,
    result (parseListPageHtml demo_provider demo_t1 "<html/>") = inr parsedList /\
    length parsedList = 2%nat.
Proof.
  destruct (parseListPageHtml_tags_items demo_provider demo_t1 "<html/>"
              [demo_item "https://site.test/a1" "A1";
               demo_item "https://site.test/a2" "A2"])
    as (parsedList & Hr & Hlen & _).
  - reflexivity.
  - exists parsedList. split; [exact Hr|exact Hlen].
Defined.

End CrawlProofs.

(** ** Properties of the enrichment loop *)
Module InsightsProofs.
Import Insights.

Lemma step_events_restarts evs : Forall step_event evs -> restarts evs = 0%nat.
Proof.
  induction 1 as [|ev evs Hev _ IH]; [done|].
  unfold restarts in *. by destruct ev.
Qed.

Lemma step_events_passes evs : Forall step_event evs -> passes evs = 0%nat.
Proof.
  induction 1 as [|ev evs Hev _ IH]; [done|].
  unfold passes in *. by destruct ev.
Qed.

Lemma restarts_app l1 l2 :
  restarts (l1 ++ l2) = (restarts l1 + restarts l2)%nat.
Proof. unfold restarts. by rewrite List.filter_app, length_app. Qed.

Lemma passes_app l1 l2 : passes (l1 ++ l2) = (passes l1 + passes l2)%nat.
Proof. unfold passes. by rewrite List.filter_app, length_app. Qed.

Lemma executeWithLogging_step_events {A} event level (fn : M Insights.event A) :
  Forall step_event (trace fn) ->
  Forall step_event (trace (executeWithLogging event level fn)).
Proof.
  intros H. rewrite trace_executeWithLogging.
  constructor; [done|]. apply Forall_app. split; [done|].
  destruct (result fn); repeat constructor.
Qed.

Section Chain.
Variable unscoredArticles : list article.
Variable classifyTags :
  nat -> article -> list string ->
  jsvalue + (option string * option string * option string).
Variable analyzeImages : nat -> article -> jsvalue + option string.
Variable generateScore : nat -> article -> jsvalue + Q.

Local Abbreviation chain :=
  (chain_invoke unscoredArticles classifyTags analyzeImages generateScore).
Local Abbreviation loop :=
  (reprocess unscoredArticles classifyTags analyzeImages generateScore).

Lemma classify_each_step_events pass articles tags :
  Forall step_event (snd (classify_each classifyTags pass articles tags)).
Proof.
  revert tags. induction articles as [|a rest IH]; intros tags; simpl;
    [constructor|].
  destruct (_ && _); [apply IH|].
  destruct (classifyTags pass a tags) as [e|[[t1 t2] t3]].
  - specialize (IH tags). destruct (classify_each _ _ _ _) as [r evs].
    by repeat constructor.
  - match goal with |- context [classify_each _ _ _ ?t] =>
      specialize (IH t); destruct (classify_each classifyTags pass rest t)
        as [[out tagsN] evs] end.
    by repeat constructor.
Qed.

Lemma extract_each_step_events pass articles :
  Forall step_event (snd (extract_each analyzeImages pass articles)).
Proof.
  induction articles as [|a rest IH]; simpl; [constructor|].
  destruct (extract_each _ _ _) as [out evs]. simpl in IH.
  destruct (negb _); [by constructor|].
  destruct (truthy_string _); [by constructor|].
  destruct (analyzeImages pass a) as [e|[[|c r]|]]; by repeat constructor.
Qed.

Lemma determine_each_step_events pass articles :
  Forall step_event (snd (determine_each generateScore pass articles)).
Proof.
  induction articles as [|a rest IH]; simpl; [constructor|].
  destruct (determine_each _ _ _) as [out evs]. simpl in IH.
  destruct (DetermineArticleImportance_execute _); by repeat constructor.
Qed.

(** Every article comes out of [determineImportance] with a score: the
    one that passed the schema, or the fallback 1. *)
Lemma determine_each_scored pass articles :
  Forall scored (fst (determine_each generateScore pass articles)) /\
  map id (fst (determine_each generateScore pass articles)) = map id articles.
Proof.
  induction articles as [|a rest [IH1 IH2]]; simpl; [by split|].
  destruct (determine_each _ _ _) as [out evs]. simpl in *.
  unfold DetermineArticleImportance_execute.
  destruct (generateScore pass a) as [e|q]; simpl.
  - split; [|by rewrite IH2]. constructor; [|done].
    exists 1%Q. split; [done|]. apply Qle_refl.
  - destruct (Qle_bool 1 q) eqn:Hq; simpl.
    + destruct (Qle_bool q 10); simpl.
      * split; [|by rewrite IH2]. constructor; [|done].
        exists q. split; [done|]. by apply Qle_bool_iff.
      * split; [|by rewrite IH2]. constructor; [|done].
        exists 1%Q. split; [done|]. apply Qle_refl.
    + split; [|by rewrite IH2]. constructor; [|done].
      exists 1%Q. split; [done|]. apply Qle_refl.
Qed.

Lemma classifyArticles_returns pass tags :
  exists r evs,
    classifyArticles unscoredArticles classifyTags pass tags = (inr r, evs) /\
    Forall step_event evs.
Proof.
  unfold classifyArticles.
  pose proof (classify_each_step_events pass unscoredArticles tags) as Hev.
  destruct (classify_each _ _ _ _) as [r evs].
  rewrite executeWithLogging_eq. eexists _, _. split; [reflexivity|].
  unfold trace, result. simpl in *. constructor; [done|].
  apply Forall_app. split; [done|]. by repeat constructor.
Qed.

Lemma extractImageContext_returns pass :
  exists r evs,
    extractImageContext unscoredArticles analyzeImages pass = (inr r, evs) /\
    Forall step_event evs.
Proof.
  unfold extractImageContext.
  pose proof (extract_each_step_events pass unscoredArticles) as Hev.
  destruct (extract_each _ _ _) as [r evs].
  rewrite executeWithLogging_eq. eexists _, _. split; [reflexivity|].
  unfold trace, result. simpl in *. constructor; [done|].
  apply Forall_app. split; [done|]. by repeat constructor.
Qed.

Lemma mergeTagsAndImageContext_returns generatedTags generatedImageContextList :
  exists mergedArticles evs,
    mergeTagsAndImageContext unscoredArticles generatedTags
      generatedImageContextList = (inr mergedArticles, evs) /\
    Forall step_event evs /\
    map id mergedArticles = map id unscoredArticles.
Proof.
  unfold mergeTagsAndImageContext. rewrite executeWithLogging_eq.
  eexists _, _. split; [reflexivity|]. split.
  - unfold trace, result. simpl. by repeat constructor.
  - rewrite map_map. apply map_ext. intros a.
    destruct (find _ generatedTags); destruct (find _ generatedImageContextList);
      reflexivity.
Qed.

Lemma determineImportance_returns pass mergedArticles :
  exists determinedArticles evs,
    determineImportance generateScore pass mergedArticles
    = (inr determinedArticles, evs) /\
    Forall step_event evs /\
    Forall scored determinedArticles /\
    map id determinedArticles = map id mergedArticles.
Proof.
  unfold determineImportance.
  pose proof (determine_each_step_events pass mergedArticles) as Hev.
  pose proof (determine_each_scored pass mergedArticles) as [Hs Hid].
  destruct (determine_each _ _ _) as [r evs].
  rewrite executeWithLogging_eq. eexists _, _. split; [reflexivity|].
  unfold trace, result. simpl in *. split; [|done].
  constructor; [done|].
  apply Forall_app. split; [done|]. by repeat constructor.
Qed.

(** One pass of the chain always returns: model failures are caught per
    article.  It returns one scored article per unscored article. *)
Lemma chain_invoke_returns pass tags :
  exists determinedArticles tags' evs,
    chain pass tags = (inr (determinedArticles, tags'), EvInvoke pass :: evs) /\
    Forall step_event evs /\
    Forall scored determinedArticles /\
    map id determinedArticles = map id unscoredArticles.
Proof.
  unfold chain_invoke.
  destruct (classifyArticles_returns pass tags) as ([gt tags'] & e1 & -> & H1).
  destruct (extractImageContext_returns pass) as (imgs & e2 & -> & H2).
  destruct (mergeTagsAndImageContext_returns gt imgs)
    as (merged & e3 & Hm & H3 & Hid3).
  destruct (determineImportance_returns pass merged)
    as (det & e4 & Hd & H4 & Hs & Hid4).
  cbn [bind tell fst snd]. rewrite Hm. cbn [bind fst snd]. rewrite Hd.
  cbn [bind fst snd ret app].
  eexists _, _, _. split; [reflexivity|].
  split; [|split; [done|by rewrite Hid4]].
  rewrite app_nil_r. repeat (apply Forall_app; split); done.
Qed.

(** The accumulator keeps its articles, and each stays scored, when it is
    updated from a pass. *)
Lemma update_with_scored reprocessedArticles current :
  Forall scored reprocessedArticles -> Forall scored current ->
  Forall scored (update_with reprocessedArticles current) /\
  map id (update_with reprocessedArticles current) = map id current.
Proof.
  intros Hre Hcur. unfold update_with. split.
  - apply Forall_fmap. eapply Forall_impl; [exact Hcur|].
    intros a Ha. simpl.
    destruct (find _ reprocessedArticles) as [re|] eqn:Hf; simpl; [|done].
    apply find_some in Hf as [Hin _].
    rewrite Forall_forall in Hre. by apply Hre, list_elem_of_In.
  - rewrite map_map. apply map_ext. intros a.
    destruct (find _ reprocessedArticles) as [re|] eqn:Hf; simpl; [|done].
    apply find_some in Hf as [_ Hid]. by apply bool_decide_eq_true in Hid.
Qed.

(** The loop returns within [maxIterations - iteration] restarts, each with
    one pass of the chain, and keeps the accumulator's articles scored. *)
Lemma reprocess_returns current iteration tags :
  Forall scored current ->
  map id current = map id unscoredArticles ->
  exists out evs,
    loop current iteration tags = (inr out, evs) /\
    Forall scored out /\
    map id out = map id unscoredArticles /\
    (restarts evs <= maxIterations - iteration)%nat /\
    passes evs = restarts evs.
Proof.
  funelim (reprocess unscoredArticles classifyTags analyzeImages generateScore
             current iteration tags); intros Hs Hid.
  - eexists _, _. split; [reflexivity|]. repeat split; try done.
    unfold restarts. simpl. lia.
  - destruct (length (List.filter incomplete current) =? 0)%nat.
    { eexists _, _. split; [reflexivity|]. repeat split; try done.
      unfold restarts. simpl. lia. }
    destruct (chain_invoke_returns (S iteration) tags)
      as (re & tags' & evs & Hc & Hev & Hsre & Hidre).
    rewrite Hc.
    destruct (update_with_scored re current Hsre Hs) as [Hsu Hidu].
    rewrite Hid in Hidu.
    destruct (H (inr (re, tags')) evs (re, tags') re tags' Hsu Hidu)
      as (out & evs' & Hl & Hso & Hido & Hlen & Hp).
    rewrite Hl.
    exists out, ([EvRestart iteration; EvInvoke (S iteration)] ++ evs
                 ++ [EvLog (LogMsg "debug" "insights.incomplete.restart.done")]
                 ++ evs').
    split; [reflexivity|]. split; [done|]. split; [done|].
    rewrite !restarts_app, !passes_app.
    rewrite (step_events_restarts _ Hev), (step_events_passes _ Hev).
    unfold maxIterations in *.
    change (restarts [EvRestart iteration; EvInvoke (S iteration)]) with 1%nat.
    change (passes [EvRestart iteration; EvInvoke (S iteration)]) with 1%nat.
    change (restarts [EvLog (LogMsg "debug" "insights.incomplete.restart.done")])
      with 0%nat.
    change (passes [EvLog (LogMsg "debug" "insights.incomplete.restart.done")])
      with 0%nat.
    split; lia.
Qed.

(** C6.  [generateInsights] always returns, whatever the model calls
    answer or throw: after the first pass the loop restarts at most 5
    times (so the chain runs at most 6 times), and the result has the
    articles of the batch, each with an importance score of at least 1. *)
Theorem generateInsights_terminates_scored tags :
  exists out evs,
    generateInsights unscoredArticles classifyTags analyzeImages generateScore
      tags = (inr out, evs) /\
    (restarts evs <= 5)%nat /\
    passes evs = S (restarts evs) /\
    Forall scored out /\
    map id out = map id unscoredArticles.
Proof.
  unfold generateInsights.
  destruct (chain_invoke_returns 0 tags)
    as (initial & tags' & evs & Hc & Hev & Hs & Hid).
  rewrite Hc. cbn [bind fst snd].
  destruct (reprocess_returns initial 0 tags' Hs Hid)
    as (out & evs' & Hl & Hso & Hido & Hlen & Hp).
  rewrite Hl. exists out, ([EvInvoke 0] ++ evs ++ evs').
  split; [reflexivity|].
  rewrite !restarts_app, !passes_app.
  rewrite (step_events_restarts _ Hev), (step_events_passes _ Hev).
  change (restarts [EvInvoke 0]) with 0%nat.
  change (passes [EvInvoke 0]) with 1%nat.
  unfold maxIterations in *. repeat split; try done; lia.
Qed.

(** C7.  When every article of the accumulator has its three tags and its
    importance score, a further turn of the loop returns the accumulator
    as it is, without a pass of the chain and without a model call. *)
Theorem reprocess_converged current iteration tags :
  Forall (fun a => complete a = true) current ->
  result (loop current iteration tags) = inr current /\
  model_calls (trace (loop current iteration tags)) = [] /\
  passes (trace (loop current iteration tags)) = 0%nat.
Proof.
  intros Hall.
  funelim (reprocess unscoredArticles classifyTags analyzeImages generateScore
             current iteration tags).
  - by repeat split.
  - assert (List.filter incomplete current = []) as ->.
    { clear -Hall. induction Hall as [|a l Ha _ IH]; [done|]. simpl.
      unfold incomplete, complete in *.
      apply andb_true_iff in Ha as [Ha H4].
      apply andb_true_iff in Ha as [Ha H3].
      apply andb_true_iff in Ha as [H1 H2].
      by rewrite H1, H2, H3, H4. }
    by repeat split.
Qed.

End Chain.

(** The batch whose classification always fails: five restarts, six
    passes, and the article comes back untagged with the score 1. *)
Example generateInsights_permanent_failure :
  let run :=
    generateInsights [demo_article None None None None]
      demo_classify_fails demo_analyze demo_score [] in
  result run = inr [demo_article None None None (Some 1%Q)] /\
  restarts (trace run) = 5%nat /\ passes (trace run) = 6%nat.
Proof. vm_compute. repeat split; reflexivity. Qed.

(** A classification that throws in the first pass and answers in the
    second: two passes, and the article has its three tags. *)
Example generateInsights_second_pass :
  let run :=
    generateInsights [demo_article (Some "X") (Some "Y") None None]
      demo_classify_once demo_analyze demo_score [] in
  result run
  = inr [demo_article (Some "X") (Some "Y") (Some "Z") (Some 1%Q)] /\
  passes (trace run) = 2%nat.
Proof. vm_compute. repeat split; reflexivity. Qed.

Lemma reprocess_converged_witness :
  result (reprocess [demo_article None None None None]
            demo_classify_fails demo_analyze demo_score
            [demo_article (Some "X") (Some "Y") (Some "Z") (Some 4%Q)] 1 [])
  = inr [demo_article (Some "X") (Some "Y") (Some "Z") (Some 4%Q)] /\
  model_calls (trace (reprocess [demo_article None None None None]
                        demo_classify_fails demo_analyze demo_score
                        [demo_article (Some "X") (Some "Y") (Some "Z")
                                      (Some 4%Q)] 1 [])) = [] /\
  passes (trace (reprocess [demo_article None None None None]
                   demo_classify_fails demo_analyze demo_score
                   [demo_article (Some "X") (Some "Y") (Some "Z")
                                 (Some 4%Q)] 1 [])) = 0%nat.
Proof.
  apply (reprocess_converged [demo_article None None None None]
           demo_classify_fails demo_analyze demo_score).
  repeat constructor.
Defined.

(** *** Further properties of the steps *)

Lemma classify_calls_app l1 l2 :
  classify_calls (l1 ++ l2) = classify_calls l1 ++ classify_calls l2.
Proof. apply omap_app. Qed.

Lemma analyze_calls_app l1 l2 :
  analyze_calls (l1 ++ l2) = analyze_calls l1 ++ analyze_calls l2.
Proof. apply omap_app. Qed.

Lemma score_calls_app l1 l2 :
  score_calls (l1 ++ l2) = score_calls l1 ++ score_calls l2.
Proof. apply omap_app. Qed.

(** [pushTag] appends at most the given tag, never the empty string and
    never a tag that is in the list. *)
Lemma pushTag_grows tags tag :
  exists added, pushTag tags tag = tags ++ added /\
    (NoDup tags -> NoDup (tags ++ added)) /\
    Forall (fun t => t <> EmptyString /\ Some t = tag) added.
Proof.
  unfold pushTag. destruct tag as [t|]; [|exists []; by rewrite app_nil_r].
  destruct t as [|c r]; simpl; [exists []; by rewrite app_nil_r|].
  case_bool_decide as Hin; simpl; [exists []; by rewrite app_nil_r|].
  exists [String c r]. split; [done|]. split; [|by repeat constructor].
  intros Hnd. apply NoDup_app. split; [done|]. split; [|apply NoDup_singleton].
  intros x Hx Hx'. apply list_elem_of_singleton in Hx'. by subst.
Qed.

Section Steps.
Variable unscoredArticles : list article.
Variable classifyTags :
  nat -> article -> list string ->
  jsvalue + (option string * option string * option string).
Variable analyzeImages : nat -> article -> jsvalue + option string.
Variable generateScore : nat -> article -> jsvalue + Q.

Lemma classify_each_spec pass articles tags :
  classify_calls (snd (classify_each classifyTags pass articles tags))
  = map id (List.filter needs_tags articles) /\
  sublist (map tags_id (fst (fst (classify_each classifyTags pass articles tags))))
          (map id (List.filter needs_tags articles)) /\
  exists added,
    snd (fst (classify_each classifyTags pass articles tags)) = tags ++ added /\
    (NoDup tags -> NoDup (tags ++ added)) /\
    Forall (fun t => t <> EmptyString) added.
Proof.
  revert tags. induction articles as [|a rest IH]; intros tags; simpl.
  { split; [done|]. split; [done|]. exists []. by rewrite app_nil_r. }
  destruct (truthy_string (tag1 a) && truthy_string (tag2 a)
            && truthy_string (tag3 a)) eqn:Ht.
  { assert (needs_tags a = false) as ->
      by (unfold needs_tags; by rewrite Ht).
    apply IH. }
  assert (needs_tags a = true) as -> by (unfold needs_tags; by rewrite Ht).
  simpl. destruct (classifyTags pass a tags) as [e|[[t1 t2] t3]].
  - destruct (IH tags) as (IH1 & IH2 & IH3).
    destruct (classify_each _ _ _ _) as [[out tagsN] evs]. simpl in *.
    split; [by rewrite IH1|]. split; [by apply sublist_cons|done].
  - destruct (pushTag_grows tags t1) as (a1 & E1 & N1 & F1).
    destruct (pushTag_grows (tags ++ a1) t2) as (a2 & E2 & N2 & F2).
    destruct (pushTag_grows ((tags ++ a1) ++ a2) t3) as (a3 & E3 & N3 & F3).
    rewrite E1, E2, E3.
    destruct (IH (((tags ++ a1) ++ a2) ++ a3)) as (IH1 & IH2 & added & IH3 & IH4 & IH5).
    destruct (classify_each _ _ _ _) as [[out tagsN] evs]. simpl in *.
    split; [by rewrite IH1|]. split; [by apply sublist_skip|].
    exists (a1 ++ a2 ++ a3 ++ added). split; [by rewrite IH3, <- !app_assoc|].
    split.
    + intros Hnd. specialize (IH4 (N3 (N2 (N1 Hnd)))).
      by rewrite <- !app_assoc in IH4.
    + repeat (apply Forall_app; split); try done;
        (eapply Forall_impl; [eassumption|]); by intros t [Hne _].
Qed.

(** X17.  The classification step never throws.  It asks the model
    about the articles that lack one of their three tags, in batch order,
    and about no other article; the tags it returns belong to articles
    that were asked about; and the shared tag list only grows at its end,
    by non-empty tags, without a duplicate if it had none. *)
Theorem classifyArticles_calls_and_tags pass tags :
  exists generatedTags tags',
    result (classifyArticles unscoredArticles classifyTags pass tags)
    = inr (generatedTags, tags') /\
    classify_calls
      (trace (classifyArticles unscoredArticles classifyTags pass tags))
    = map id (List.filter needs_tags unscoredArticles) /\
    sublist (map tags_id generatedTags)
            (map id (List.filter needs_tags unscoredArticles)) /\
    exists added,
      tags' = tags ++ added /\
      (NoDup tags -> NoDup tags') /\
      Forall (fun t => t <> EmptyString) added.
Proof.
  unfold classifyArticles.
  destruct (classify_each_spec pass unscoredArticles tags)
    as (H1 & H2 & added & H3 & H4 & H5).
  destruct (classify_each _ _ _ _) as [[out tagsN] evs].
  exists out, tagsN. rewrite result_executeWithLogging, trace_executeWithLogging.
  simpl in *. split; [done|]. split; [|split; [done|]].
  - change (?x :: ?l) with ([x] ++ l). rewrite !classify_calls_app.
    unfold trace, result. simpl. by rewrite app_nil_r.
  - exists added. subst tagsN. done.
Qed.

Lemma extract_each_spec pass articles :
  analyze_calls (snd (extract_each analyzeImages pass articles))
  = map id (List.filter needs_image articles) /\
  sublist (map image_id (fst (extract_each analyzeImages pass articles)))
          (map id (List.filter needs_image articles)) /\
  Forall (fun c => image_context c <> EmptyString)
         (fst (extract_each analyzeImages pass articles)).
Proof.
  induction articles as [|a rest (IH1 & IH2 & IH3)]; simpl; [done|].
  destruct (extract_each _ _ _) as [out evs]. simpl in *.
  unfold needs_image.
  destruct (hasAttachedImage a); simpl; [|done].
  destruct (truthy_string (imageContextByLlm a)); simpl; [done|].
  destruct (analyzeImages pass a) as [e|[[|c r]|]]; simpl;
    (split; [by rewrite IH1|]); (split; [|try done]);
    try (by apply sublist_cons).
  - by apply sublist_skip.
  - by constructor.
Qed.

(** X18.  The image step never throws.  It asks the model about the
    articles that have an image and no image context yet, and about no
    other article; each context it returns is non-empty and belongs to an
    article that was asked about. *)
Theorem extractImageContext_calls pass :
  exists generated,
    result (extractImageContext unscoredArticles analyzeImages pass)
    = inr generated /\
    analyze_calls
      (trace (extractImageContext unscoredArticles analyzeImages pass))
    = map id (List.filter needs_image unscoredArticles) /\
    sublist (map image_id generated)
            (map id (List.filter needs_image unscoredArticles)) /\
    Forall (fun c => image_context c <> EmptyString) generated.
Proof.
  unfold extractImageContext.
  destruct (extract_each_spec pass unscoredArticles) as (H1 & H2 & H3).
  destruct (extract_each _ _ _) as [out evs].
  exists out. rewrite result_executeWithLogging, trace_executeWithLogging.
  simpl in *. split; [done|]. split; [|done].
  change (?x :: ?l) with ([x] ++ l). rewrite !analyze_calls_app.
  unfold trace, result. simpl. by rewrite app_nil_r.
Qed.

Lemma determine_each_spec pass articles :
  score_calls (snd (determine_each generateScore pass articles))
  = map id articles /\
  Forall2 (fun a b =>
             same_but_score a b /\
             exists q, importanceScore b = Some q /\ (1 <= q <= 10)%Q /\
               (DetermineArticleImportance_execute (generateScore pass a)
                = inr q \/
                (exists e, DetermineArticleImportance_execute
                             (generateScore pass a) = inl e) /\ q = 1%Q))
          articles (fst (determine_each generateScore pass articles)).
Proof.
  induction articles as [|a rest [IH1 IH2]]; simpl; [by split|].
  destruct (determine_each _ _ _) as [out evs]. simpl in *.
  destruct (DetermineArticleImportance_execute (generateScore pass a))
    as [e|q] eqn:Hx; simpl.
  - split; [by rewrite IH1|]. constructor; [|done].
    split; [by repeat split|]. exists 1%Q. split; [done|].
    split; [done|]. right. eauto.
  - split; [by rewrite IH1|]. constructor; [|done].
    split; [by repeat split|]. exists q. split; [done|].
    split; [|by left].
    unfold DetermineArticleImportance_execute in Hx.
    destruct (generateScore pass a) as [e|q']; [done|].
    destruct (Qle_bool 1 q') eqn:H1; simpl in Hx; [|done].
    destruct (Qle_bool q' 10) eqn:H2; simpl in Hx; [|done].
    injection Hx as <-. split; by apply Qle_bool_iff.
Qed.

(** X19.  The scoring step never throws and drops no article.  It asks
    the model once about every merged article, in order; each article
    comes back with its other fields untouched and with a score between 1
    and 10: the answer of the model when it passes the schema, the
    fallback 1 when the call fails. *)
Theorem determineImportance_scores_all pass mergedArticles :
  exists determinedArticles,
    result (determineImportance generateScore pass mergedArticles)
    = inr determinedArticles /\
    score_calls (trace (determineImportance generateScore pass mergedArticles))
    = map id mergedArticles /\
    Forall2 (fun a b =>
               same_but_score a b /\
               exists q, importanceScore b = Some q /\ (1 <= q <= 10)%Q /\
                 (DetermineArticleImportance_execute (generateScore pass a)
                  = inr q \/
                  (exists e, DetermineArticleImportance_execute
                               (generateScore pass a) = inl e) /\ q = 1%Q))
            mergedArticles determinedArticles.
Proof.
  unfold determineImportance.
  destruct (determine_each_spec pass mergedArticles) as (H1 & H2).
  destruct (determine_each _ _ _) as [out evs].
  exists out. rewrite result_executeWithLogging, trace_executeWithLogging.
  simpl in *. split; [done|]. split; [|done].
  change (?x :: ?l) with ([x] ++ l). rewrite !score_calls_app.
  unfold trace, result. simpl. by rewrite app_nil_r.
Qed.

End Steps.

Lemma model_calls_app l1 l2 :
  model_calls (l1 ++ l2) = model_calls l1 ++ model_calls l2.
Proof. unfold model_calls. apply List.filter_app. Qed.

Section Calls.
Variable unscoredArticles : list article.
Variable classifyTags :
  nat -> article -> list string ->
  jsvalue + (option string * option string * option string).
Variable analyzeImages : nat -> article -> jsvalue + option string.
Variable generateScore : nat -> article -> jsvalue + Q.

Local Abbreviation chain :=
  (chain_invoke unscoredArticles classifyTags analyzeImages generateScore).
Local Abbreviation loop :=
  (reprocess unscoredArticles classifyTags analyzeImages generateScore).

(** X20.  The merge step keeps the batch: one article per unscored
    article, in order, with the same id, title, content, image flag,
    target URL and score.  The tags of an article are those of the first
    generated entry with its id, and its own when there is none; likewise
    for the image context; an article without generated entries is
    returned as it is. *)
Theorem mergeTagsAndImageContext_keeps_batch generatedTags generatedImages :
  exists merged,
    result (mergeTagsAndImageContext unscoredArticles generatedTags
              generatedImages) = inr merged /\
    Forall2
      (fun a b =>
         id b = id a /\ title b = title a /\
         detailContent b = detailContent a /\
         hasAttachedImage b = hasAttachedImage a /\
         targetUrl b = targetUrl a /\ importanceScore b = importanceScore a /\
         (tag1 b, tag2 b, tag3 b)
         = match find (fun t => bool_decide (tags_id t = id a))
                      generatedTags with
           | Some t => (gen_tag1 t, gen_tag2 t, gen_tag3 t)
           | None => (tag1 a, tag2 a, tag3 a)
           end /\
         imageContextByLlm b
         = match find (fun c => bool_decide (image_id c = id a))
                      generatedImages with
           | Some c => Some (image_context c)
           | None => imageContextByLlm a
           end /\
         ((forall t, t ∈ generatedTags -> tags_id t <> id a) ->
          (forall c, c ∈ generatedImages -> image_id c <> id a) -> b = a))
      unscoredArticles merged.
Proof.
  unfold mergeTagsAndImageContext. rewrite result_executeWithLogging.
  eexists. split; [reflexivity|].
  apply Forall2_fmap_r, Forall_Forall2_diag, Forall_forall. intros a _.
  unfold compose. cbv beta zeta.
  destruct (find _ generatedTags) as [t|] eqn:Ht;
    destruct (find _ generatedImages) as [c|] eqn:Hc; simpl;
    do 8 (split; [reflexivity|]); intros Hnt Hnc.
  - apply find_some in Ht as [Hin Hid]. apply bool_decide_eq_true in Hid.
    by destruct (Hnt t); [apply list_elem_of_In|].
  - apply find_some in Ht as [Hin Hid]. apply bool_decide_eq_true in Hid.
    by destruct (Hnt t); [apply list_elem_of_In|].
  - apply find_some in Hc as [Hin Hid]. apply bool_decide_eq_true in Hid.
    by destruct (Hnc c); [apply list_elem_of_In|].
  - reflexivity.
Qed.

(** The model calls of the steps. *)
Lemma classify_each_model_calls pass articles tags :
  (length (model_calls (snd (classify_each classifyTags pass articles tags)))
   <= length articles)%nat.
Proof.
  revert tags. induction articles as [|a rest IH]; intros tags; simpl; [done|].
  destruct (_ && _); [specialize (IH tags); lia|].
  destruct (classifyTags pass a tags) as [e|[[t1 t2] t3]].
  - specialize (IH tags). destruct (classify_each _ _ _ _) as [r evs].
    simpl in *. lia.
  - match goal with |- context [classify_each _ _ _ ?t] =>
      specialize (IH t); destruct (classify_each classifyTags pass rest t)
        as [[out tagsN] evs] end.
    simpl in *. lia.
Qed.

Lemma extract_each_model_calls pass articles :
  (length (model_calls (snd (extract_each analyzeImages pass articles)))
   <= length articles)%nat.
Proof.
  induction articles as [|a rest IH]; simpl; [done|].
  destruct (extract_each _ _ _) as [out evs]. simpl in IH.
  destruct (negb _); [simpl; lia|].
  destruct (truthy_string _); [simpl; lia|].
  destruct (analyzeImages pass a) as [e|[[|c r]|]]; simpl; lia.
Qed.

Lemma determine_each_model_calls pass articles :
  length (model_calls (snd (determine_each generateScore pass articles)))
  = length articles.
Proof.
  induction articles as [|a rest IH]; simpl; [done|].
  destruct (determine_each _ _ _) as [out evs]. simpl in IH.
  destruct (DetermineArticleImportance_execute _); simpl; lia.
Qed.

Lemma model_calls_executeWithLogging {A} event level (fn : M Insights.event A) :
  model_calls (trace (executeWithLogging event level fn))
  = model_calls (trace fn).
Proof.
  rewrite trace_executeWithLogging.
  change (?x :: ?l) with ([x] ++ l). rewrite !model_calls_app.
  destruct (result fn); simpl; by rewrite app_nil_r.
Qed.

Lemma chain_invoke_model_calls_sum pass tags :
  exists c e,
    length (model_calls (trace (chain pass tags)))
    = (c + e + length unscoredArticles)%nat /\
    (c <= length unscoredArticles)%nat /\ (e <= length unscoredArticles)%nat.
Proof.
  unfold chain_invoke.
  pose proof (classify_each_model_calls pass unscoredArticles tags) as Hc.
  pose proof (extract_each_model_calls pass unscoredArticles) as He.
  rewrite trace_bind. cbn [tell trace result fst snd].
  rewrite trace_bind. unfold classifyArticles at 1 2.
  rewrite !model_calls_app, model_calls_executeWithLogging,
    result_executeWithLogging.
  destruct (classify_each _ _ _ _) as [[gt tags'] e1]. cbn [trace result fst snd] in *.
  rewrite trace_bind. unfold extractImageContext at 1 2.
  rewrite !model_calls_app, model_calls_executeWithLogging,
    result_executeWithLogging.
  destruct (extract_each _ _ _) as [imgs e2]. cbn [trace result fst snd] in *.
  rewrite trace_bind. unfold mergeTagsAndImageContext at 1 2.
  rewrite !model_calls_app, model_calls_executeWithLogging,
    result_executeWithLogging.
  cbn [ret trace result fst snd].
  match goal with |- context [determineImportance _ _ ?m] =>
    set (merged := m) end.
  assert (length merged = length unscoredArticles) as Hlen
    by apply length_map.
  rewrite trace_bind. unfold determineImportance at 1 2.
  rewrite !model_calls_app, model_calls_executeWithLogging,
    result_executeWithLogging.
  pose proof (determine_each_model_calls pass merged) as Hd.
  destruct (determine_each _ _ _) as [det e4]. cbn [trace result fst snd ret] in *.
  clearbody merged. rewrite !length_app. simpl.
  exists (length (model_calls e1)), (length (model_calls e2)).
  split; [lia|done].
Qed.

Lemma chain_invoke_model_calls pass tags :
  (length unscoredArticles
   <= length (model_calls (trace (chain pass tags)))
   <= 3 * length unscoredArticles)%nat.
Proof.
  destruct (chain_invoke_model_calls_sum pass tags) as (c & e & -> & Hc & He).
  lia.
Qed.

(** The loop makes at most three model calls per article in each of its
    passes. *)
Lemma reprocess_model_calls current iteration tags :
  (length (model_calls (trace (loop current iteration tags)))
   <= 3 * length unscoredArticles * (maxIterations - iteration))%nat.
Proof.
  funelim (reprocess unscoredArticles classifyTags analyzeImages generateScore
             current iteration tags).
  - apply Nat.le_0_l.
  - destruct (length (List.filter incomplete current) =? 0)%nat;
      [apply Nat.le_0_l|].
    pose proof (chain_invoke_model_calls (S iteration) tags) as Hc.
    destruct (chain_invoke_returns unscoredArticles classifyTags
                analyzeImages generateScore (S iteration) tags)
      as (re & tags' & evs & Hch & _).
    rewrite Hch in *.
    specialize (H (inr (re, tags')) (EvInvoke (S iteration) :: evs)
                  (re, tags') re tags').
    destruct (reprocess _ _ _ _ (update_with re current) (S iteration) tags')
      as [r t'].
    cbn [trace result fst snd] in *.
    change (EvRestart iteration :: ?l) with ([EvRestart iteration] ++ l).
    change (EvLog ?x :: t') with ([EvLog x] ++ t').
    rewrite !model_calls_app, !length_app.
    change (length (model_calls [EvRestart iteration])) with 0%nat.
    change (length (model_calls [EvLog _])) with 0%nat.
    unfold maxIterations in *. nia.
Qed.

(** X21.  A call of [generateInsights] makes at most 18 model calls
    per article of the batch: three in each of its 6 passes at most. *)
Theorem generateInsights_model_calls_bounded tags :
  (length (model_calls
             (trace (generateInsights unscoredArticles classifyTags
                       analyzeImages generateScore tags)))
   <= 18 * length unscoredArticles)%nat.
Proof.
  unfold generateInsights.
  pose proof (chain_invoke_model_calls 0 tags) as Hc.
  destruct (chain_invoke_returns unscoredArticles classifyTags analyzeImages
              generateScore 0 tags) as (initial & tags' & evs & Heq & _).
  rewrite Heq in *. rewrite trace_bind. cbn [trace result fst snd] in *.
  pose proof (reprocess_model_calls initial 0 tags') as Hl.
  rewrite model_calls_app, length_app. unfold maxIterations in Hl. lia.
Qed.

End Calls.

End InsightsProofs.

(** ** Properties of the orchestrator *)
Module OrchestratorProofs.
Import Orchestrator.

Lemma task_ends_app l1 l2 :
  task_ends (l1 ++ l2) = (task_ends l1 + task_ends l2)%nat.
Proof. unfold task_ends. by rewrite List.filter_app, length_app. Qed.

Section EffectsFinally.
Context {A : Type}.

Lemma result_try_finally (m : M event A) (fin : M event unit) :
  result (try_finally m fin)
  = match result fin with inl e => inl e | inr _ => result m end.
Proof. by destruct m, fin. Qed.

Lemma trace_try_finally (m : M event A) (fin : M event unit) :
  trace (try_finally m fin) = trace m ++ trace fin.
Proof. by destruct m, fin. Qed.

End EffectsFinally.

Section Generate.
Variable taskService_start : jsvalue + string.
Variable taskService_end : jsvalue + unit.
Variable crawlingChain : jsvalue + unit.
Variable analysisChain : jsvalue + unit.
Variable contentGenerateChain : jsvalue + option string.
Variable previewNewsletter : bool.
Variable fetchNewsletterForPreview : jsvalue + unit.
Variable emailService_send : jsvalue + unit.

Local Abbreviation pipeline :=
  (taskChain crawlingChain analysisChain contentGenerateChain).
Local Abbreviation run :=
  (generate taskService_start taskService_end crawlingChain analysisChain
     contentGenerateChain previewNewsletter fetchNewsletterForPreview
     emailService_send).

(** The macro-pipeline and its logging never release the task. *)
Lemma logged_pipeline_no_end :
  task_ends (trace (executeWithLogging "task" "info" pipeline)) = 0%nat.
Proof.
  unfold taskChain.
  destruct crawlingChain as [e|[]], analysisChain as [e'|[]],
    contentGenerateChain as [e''|r]; reflexivity.
Qed.

(** Nor does what [generate] does after the task management. *)
Lemma after_task_no_end newsletterId :
  task_ends
    (trace (let* _ := logNewsletterResult newsletterId in
            let* _ := sendPreviewNewsletterIfConfigured previewNewsletter
                        fetchNewsletterForPreview emailService_send
                        newsletterId in
            ret newsletterId)) = 0%nat.
Proof.
  unfold sendPreviewNewsletterIfConfigured.
  destruct newsletterId, previewNewsletter,
    fetchNewsletterForPreview as [e|[]], emailService_send as [e'|[]];
    reflexivity.
Qed.

(** The task management around a pipeline: start, the logged pipeline,
    then [end()] on both exits. *)
Lemma executeWithTaskManagement_started {T} (m : M event T) taskId :
  taskService_start = inr taskId ->
  trace (executeWithTaskManagement taskService_start taskService_end m)
  = (EvTaskStart :: trace (executeWithLogging "task" "info" m)) ++ [EvTaskEnd]
  /\
  result (executeWithTaskManagement taskService_start taskService_end m)
  = match taskService_end with inl e' => inl e' | inr _ => result m end.
Proof.
  intros Hstart. unfold executeWithTaskManagement, startTask, endTask.
  rewrite Hstart.
  rewrite <- (result_executeWithLogging "task" "info" m).
  destruct (executeWithLogging "task" "info" m) as [r t].
  destruct taskService_end as [e'|[]]; by split.
Qed.

(** C9.  In a call of [generate] whose task has started,
    [taskService.end()] is called exactly once, right after the logged
    crawl-analyze-generate pipeline, whether that pipeline returned or
    threw; when it threw, nothing follows the release, and [generate]
    throws the pipeline's error (or the error of [end()] itself, should it
    throw). *)
Theorem task_end_on_every_exit taskId :
  taskService_start = inr taskId ->
  task_ends (trace run) = 1%nat /\
  (exists after,
     trace run
     = (EvTaskStart :: trace (executeWithLogging "task" "info" pipeline))
       ++ EvTaskEnd :: after /\
     task_ends after = 0%nat /\
     forall e, result pipeline = inl e ->
       after = [] /\
       result run
       = inl (match taskService_end with inl e' => e' | inr _ => e end)).
Proof.
  intros Hstart.
  destruct (executeWithTaskManagement_started pipeline taskId Hstart)
    as [Htr Hres].
  assert (exists after,
     trace run
     = (EvTaskStart :: trace (executeWithLogging "task" "info" pipeline))
       ++ EvTaskEnd :: after /\
     task_ends after = 0%nat /\
     forall e, result pipeline = inl e ->
       after = [] /\
       result run
       = inl (match taskService_end with inl e' => e' | inr _ => e end))
    as Hex.
  { unfold generate. rewrite trace_bind, result_bind, Htr, Hres.
    rewrite <- app_assoc.
    destruct taskService_end as [e'|[]].
    - exists []. split; [reflexivity|]. split; [done|]. by intros e He.
    - destruct (result pipeline) as [e|newsletterId] eqn:Hp.
      + exists []. split; [reflexivity|]. split; [done|].
        intros e0 [= <-]. done.
      + eexists. split; [reflexivity|].
        split; [apply after_task_no_end|]. intros e He. done. }
  split; [|exact Hex].
  destruct Hex as (after & -> & Hafter & _).
  rewrite task_ends_app.
  change (task_ends (EvTaskStart :: ?l)) with (task_ends l).
  rewrite logged_pipeline_no_end.
  change (task_ends (EvTaskEnd :: after)) with (S (task_ends after)).
  by rewrite Hafter.
Qed.

End Generate.

(** A call whose crawl stage throws: the task is still released. *)
Lemma task_end_on_every_exit_witness :
  task_ends
    (trace (generate (inr "task-1") (inr tt) (inl (JsError "boom"))
              (inr tt) (inr None) false (inr tt) (inr tt))) = 1%nat /\
  result (generate (inr "task-1") (inr tt) (inl (JsError "boom"))
            (inr tt) (inr None) false (inr tt) (inr tt))
  = inl (JsError "boom").
Proof.
  destruct (task_end_on_every_exit (inr "task-1") (inr tt)
              (inl (JsError "boom")) (inr tt) (inr None) false
              (inr tt) (inr tt) "task-1" eq_refl)
    as (Hone & after & _ & _ & Hthrow).
  split; [exact Hone|].
  destruct (Hthrow (JsError "boom") eq_refl) as [_ Hres]. exact Hres.
Defined.

(** *** Further properties of a call *)

Section Preview.
Variable taskService_start : jsvalue + string.
Variable taskService_end : jsvalue + unit.
Variable crawlingChain : jsvalue + unit.
Variable analysisChain : jsvalue + unit.
Variable contentGenerateChain : jsvalue + option string.
Variable previewNewsletter : bool.
Variable fetchNewsletterForPreview : jsvalue + unit.
Variable emailService_send : jsvalue + unit.

Local Abbreviation pipeline :=
  (taskChain crawlingChain analysisChain contentGenerateChain).
Local Abbreviation managed :=
  (executeWithTaskManagement taskService_start taskService_end pipeline).
Local Abbreviation preview :=
  (sendPreviewNewsletterIfConfigured previewNewsletter
     fetchNewsletterForPreview emailService_send).
Local Abbreviation run :=
  (generate taskService_start taskService_end crawlingChain analysisChain
     contentGenerateChain previewNewsletter fetchNewsletterForPreview
     emailService_send).

(** The preview step never throws. *)
Lemma result_preview newsletterId : result (preview newsletterId) = inr tt.
Proof.
  unfold sendPreviewNewsletterIfConfigured.
  destruct previewNewsletter, newsletterId,
    fetchNewsletterForPreview as [e|[]], emailService_send as [e'|[]];
    reflexivity.
Qed.

(** [generate], by what the managed pipeline settles with. *)
Lemma generate_after_task :
  run = match managed with
        | (inl e, t) => (inl e, t)
        | (inr newsletterId, t) =>
            (inr newsletterId,
             t ++ trace (logNewsletterResult newsletterId)
               ++ trace (preview newsletterId))
        end.
Proof.
  unfold generate. destruct managed as [[e|newsletterId] t]; [done|].
  cbn [bind]. pose proof (result_preview newsletterId) as Hp.
  destruct (preview newsletterId) as [rp tp]. simpl in Hp. subst rp.
  destruct newsletterId; simpl; by rewrite app_nil_r.
Qed.

(** The managed pipeline, by its collaborators. *)
Lemma managed_result :
  result managed
  = match taskService_start with
    | inl e => inl e
    | inr _ =>
        match taskService_end with
        | inl e => inl e
        | inr _ =>
            match crawlingChain with
            | inl e => inl e
            | inr _ =>
                match analysisChain with
                | inl e => inl e
                | inr _ => contentGenerateChain
                end
            end
        end
    end.
Proof.
  unfold executeWithTaskManagement, startTask, endTask, taskChain.
  destruct taskService_start as [e|taskId], taskService_end as [e'|[]],
    crawlingChain as [e1|[]], analysisChain as [e2|[]],
    contentGenerateChain as [e3|r]; reflexivity.
Qed.

Lemma managed_no_preview :
  (EvFetchPreview ∉ trace managed) /\ (EvSendEmail ∉ trace managed).
Proof.
  unfold executeWithTaskManagement, startTask, endTask, taskChain.
  destruct taskService_start as [e|taskId], taskService_end as [e'|[]],
    crawlingChain as [e1|[]], analysisChain as [e2|[]],
    contentGenerateChain as [e3|r];
    split; intros Hin;
    repeat (apply elem_of_cons in Hin as [Hin|Hin]; [done|]);
    inversion Hin.
Qed.

(** X27.  The preview can neither fail [generate] nor change what it
    returns: the call settles as the managed crawl-analyze-generate
    pipeline does, whatever the preview collaborators do.  A preview that
    fails leaves the error entry and the raw error in the log. *)
Theorem preview_never_changes_result :
  result run = result managed /\
  (forall newsletterId e,
     result managed = inr (Some newsletterId) ->
     previewNewsletter = true ->
     fetchNewsletterForPreview = inl e \/
     (fetchNewsletterForPreview = inr tt /\ emailService_send = inl e) ->
     EvLog (LogMsg "error" "generate.preview.error") ∈ trace run /\
     EvLog (LogRaw e) ∈ trace run).
Proof.
  rewrite generate_after_task. split.
  - by destruct managed as [[e|newsletterId] t].
  - intros newsletterId e Hm Hp Hfail.
    destruct managed as [[e0|r] t]; [done|].
    simpl in Hm. injection Hm as ->. cbn [trace snd].
    unfold sendPreviewNewsletterIfConfigured. rewrite Hp.
    destruct Hfail as [->|[-> ->]]; simpl;
      rewrite !elem_of_app; split; right; right;
      repeat first [apply list_elem_of_here | apply list_elem_of_further].
Qed.

(** X28.  A preview is fetched only when previews are configured and
    the pipeline created a newsletter (the task started and was released,
    and the three chains returned); the e-mail is sent only if, besides,
    the newsletter was fetched for the preview. *)
Theorem preview_only_for_created_newsletter :
  (EvFetchPreview ∈ trace run ->
   previewNewsletter = true /\
   exists taskId newsletterId,
     taskService_start = inr taskId /\ taskService_end = inr tt /\
     crawlingChain = inr tt /\ analysisChain = inr tt /\
     contentGenerateChain = inr (Some newsletterId)) /\
  (EvSendEmail ∈ trace run ->
   EvFetchPreview ∈ trace run /\ fetchNewsletterForPreview = inr tt).
Proof.
  destruct managed_no_preview as [Hnf Hns].
  pose proof managed_result as Hres.
  rewrite generate_after_task.
  destruct managed as [[e|r] t]; cbn [trace result fst snd] in *; [by split|].
  assert (forall ev, (ev = EvFetchPreview \/ ev = EvSendEmail) ->
            ev ∈ t ++ trace (logNewsletterResult r) ++ trace (preview r) ->
            ev ∈ trace (preview r)) as Hin.
  { intros ev Hev. rewrite !elem_of_app. intros [Hin|[Hin|Hin]]; [| |done].
    - by destruct Hev as [-> | ->].
    - destruct r; simpl in Hin;
        apply list_elem_of_singleton in Hin; by destruct Hev as [-> | ->]. }
  split.
  - intros Hf. apply (Hin _ (or_introl eq_refl)) in Hf.
    unfold sendPreviewNewsletterIfConfigured in Hf.
    destruct previewNewsletter; [|inversion Hf]. split; [done|].
    destruct r as [newsletterId|];
      [|simpl in Hf; by apply list_elem_of_singleton in Hf].
    destruct taskService_start as [e|taskId]; [done|].
    destruct taskService_end as [e|[]]; [done|].
    destruct crawlingChain as [e|[]]; [done|].
    destruct analysisChain as [e|[]]; [done|].
    exists taskId, newsletterId. by rewrite <- Hres.
  - intros Hs. apply (Hin _ (or_intror eq_refl)) in Hs.
    unfold sendPreviewNewsletterIfConfigured in *.
    destruct previewNewsletter; [|inversion Hs].
    destruct r as [newsletterId|];
      [|simpl in Hs; by apply list_elem_of_singleton in Hs].
    destruct fetchNewsletterForPreview as [e|[]].
    + simpl in Hs.
      repeat (apply elem_of_cons in Hs as [Hs|Hs]; [done|]). inversion Hs.
    + split; [|done]. rewrite !elem_of_app. right. right.
      destruct emailService_send as [e|[]]; simpl; left.
Qed.

Lemma after_task_no_stage newsletterId ev :
  is_stage ev = true ->
  ev ∉ trace (logNewsletterResult newsletterId)
       ++ trace (preview newsletterId).
Proof.
  unfold sendPreviewNewsletterIfConfigured.
  destruct previewNewsletter, newsletterId,
    fetchNewsletterForPreview as [e|[]], emailService_send as [e'|[]];
    intros Hev Hin; simpl in Hin;
    repeat (apply elem_of_cons in Hin as [Hin|Hin]; [by subst|]);
    inversion Hin.
Qed.

(** A stage event of a call is one of the pipeline of a started task. *)
Lemma stage_event_in_run ev :
  is_stage ev = true ->
  ev ∈ trace run <->
  (exists taskId, taskService_start = inr taskId) /\ ev ∈ trace pipeline.
Proof.
  intros Hev. rewrite generate_after_task.
  assert ((exists e, taskService_start = inl e) \/
          (exists taskId, taskService_start = inr taskId))
    as [[e Hstart]|[taskId Hstart]]
    by (destruct taskService_start; eauto).
  { unfold executeWithTaskManagement, startTask. rewrite Hstart. simpl.
    split; [|by intros [[? ?] _]].
    intros Hin. apply list_elem_of_singleton in Hin. by subst. }
  destruct (executeWithTaskManagement_started taskService_start
              taskService_end pipeline taskId Hstart) as [Htr _].
  assert (ev ∈ trace managed <-> ev ∈ trace pipeline) as Hm.
  { split.
    - intros Hin. rewrite Htr in Hin. apply elem_of_app in Hin as [Hin|Hin].
      + apply elem_of_cons in Hin as [->|Hin]; [done|].
        rewrite trace_executeWithLogging in Hin.
        apply elem_of_cons in Hin as [->|Hin]; [done|].
        apply elem_of_app in Hin as [Hin|Hin]; [done|].
        destruct (result pipeline); simpl in Hin;
          repeat (apply elem_of_cons in Hin as [Hin|Hin]; [by subst|]);
          inversion Hin.
      + apply list_elem_of_singleton in Hin. by subst.
    - intros Hin. rewrite Htr. apply elem_of_app. left. right.
      rewrite trace_executeWithLogging. right. apply elem_of_app. by left. }
  destruct managed as [[e|r] t]; cbn [trace snd] in *.
  - rewrite Hm. split; [by split; [eexists|]|by intros [_ ?]].
  - rewrite elem_of_app, Hm. split.
    + intros [Hin|Hin]; [by split; [eexists|]|].
      by destruct (after_task_no_stage r ev Hev).
    + intros [_ Hin]. by left.
Qed.

Lemma pipeline_stages :
  EvCrawl ∈ trace pipeline /\
  (EvAnalyze ∈ trace pipeline <-> crawlingChain = inr tt) /\
  (EvGenerateContent ∈ trace pipeline <->
   crawlingChain = inr tt /\ analysisChain = inr tt).
Proof.
  unfold taskChain.
  destruct crawlingChain as [e1|[]]; [|destruct analysisChain as [e2|[]]];
    cbn; (split; [left|]); split; split;
    try (intros Hin;
         repeat (apply elem_of_cons in Hin as [Hin|Hin]; [done|]);
         by inversion Hin);
    try done; try (by intros [? ?]); intros _;
    repeat first [apply list_elem_of_here | apply list_elem_of_further].
Qed.

(** X29.  The stages follow one another: a stage is started only when
    the task has started and every stage before it returned; when
    [taskService.start()] throws, [generate] throws the same error and
    nothing else is called, not even [taskService.end()]. *)
Theorem stages_run_in_order :
  (forall e, taskService_start = inl e -> run = (inl e, [EvTaskStart])) /\
  (EvCrawl ∈ trace run <-> exists taskId, taskService_start = inr taskId) /\
  (EvAnalyze ∈ trace run <->
   (exists taskId, taskService_start = inr taskId) /\ crawlingChain = inr tt) /\
  (EvGenerateContent ∈ trace run <->
   (exists taskId, taskService_start = inr taskId) /\
   crawlingChain = inr tt /\ analysisChain = inr tt).
Proof.
  split.
  { intros e ->. reflexivity. }
  rewrite !stage_event_in_run by done.
  destruct pipeline_stages as (H1 & H2 & H3). rewrite H2, H3.
  split; [|done]. split; [by intros [? _]|by intros ?].
Qed.

(** X30.  When [taskService.end()] throws after a pipeline that
    created a newsletter, [generate] throws that error: the created
    newsletter is not returned, its creation is not logged and no preview
    is sent. *)
Theorem end_failure_masks_created_newsletter taskId newsletterId e :
  taskService_start = inr taskId ->
  result pipeline = inr (Some newsletterId) ->
  taskService_end = inl e ->
  result run = inl e /\
  EvGenerateContent ∈ trace run /\
  (EvLog (LogMsg "info" "generate.result.created") ∉ trace run) /\
  (EvFetchPreview ∉ trace run) /\ (EvSendEmail ∉ trace run).
Proof.
  intros Hs Hp He. revert Hp.
  unfold generate, executeWithTaskManagement, startTask, endTask, taskChain.
  rewrite Hs, He.
  destruct crawlingChain as [e1|[]], analysisChain as [e2|[]],
    contentGenerateChain as [e3|[r|]]; try done.
  intros _. cbn. split; [done|].
  split; [repeat first [apply list_elem_of_here | apply list_elem_of_further]|].
  repeat split; intros Hin;
    repeat (apply elem_of_cons in Hin as [Hin|Hin]; [done|]);
    inversion Hin.
Qed.

End Preview.

Lemma end_failure_masks_created_newsletter_witness :
  result (generate (inr "task-1") (inl (JsError "end failed")) (inr tt)
            (inr tt) (inr (Some "42")) true (inr tt) (inr tt))
  = inl (JsError "end failed").
Proof.
  apply (end_failure_masks_created_newsletter (inr "task-1")
           (inl (JsError "end failed")) (inr tt) (inr tt) (inr (Some "42"))
           true (inr tt) (inr tt) "task-1" "42" (JsError "end failed"));
    reflexivity.
Defined.

End OrchestratorProofs.

(** ** Properties of the analysis chain *)
Module AnalysisProofs.
Import Insights InsightsProofs Analysis.

Lemma updates_app t1 t2 : updates (t1 ++ t2) = updates t1 ++ updates t2.
Proof. apply omap_app. Qed.

Lemma updates_insights (evs : list Insights.event) :
  updates (map EvInsights evs) = [].
Proof. by induction evs. Qed.

Section Chain.
Variable P : provider.

(** The loop updates the articles one after the other and stops at the
    first update that fails. *)
Lemma update_each_spec articles :
  match result (update_each P articles) with
  | inr _ =>
      trace (update_each P articles) = map EvUpdate articles /\
      Forall (fun a => provider_update P a = inr tt) articles
  | inl e =>
      exists pre a post,
        articles = pre ++ a :: post /\
        Forall (fun a => provider_update P a = inr tt) pre /\
        provider_update P a = inl e /\
        trace (update_each P articles) = map EvUpdate (pre ++ [a])
  end.
Proof.
  induction articles as [|a rest IH]; [done|]. cbn [update_each].
  rewrite result_bind, trace_bind. unfold call. cbn [result trace fst snd].
  destruct (provider_update P a) as [e|[]] eqn:Ha.
  - exists [], a, rest. by rewrite app_nil_r.
  - destruct (result (update_each P rest)) as [e|[]].
    + destruct IH as (pre & b & post & -> & Hpre & Hb & Ht).
      exists (a :: pre), b, post. split; [done|]. split; [by constructor|].
      split; [done|]. simpl. by rewrite Ht.
    + destruct IH as [Ht Hall]. split; [by rewrite Ht|by constructor].
Qed.

(** What [updateAnalysisContext] settles with and which articles it has
    updated by then. *)
Lemma updateAnalysisContext_spec determinedArticles :
  match result (updateAnalysisContext P determinedArticles) with
  | inr count =>
      count = length determinedArticles /\
      updates (trace (updateAnalysisContext P determinedArticles))
      = determinedArticles /\
      Forall (fun a => provider_update P a = inr tt) determinedArticles
  | inl e =>
      exists pre a post,
        determinedArticles = pre ++ a :: post /\
        Forall (fun a => provider_update P a = inr tt) pre /\
        provider_update P a = inl e /\
        updates (trace (updateAnalysisContext P determinedArticles))
        = pre ++ [a]
  end.
Proof.
  unfold updateAnalysisContext.
  rewrite result_executeWithLogging, trace_executeWithLogging.
  rewrite result_bind, trace_bind.
  pose proof (update_each_spec determinedArticles) as Hs.
  assert (forall l, updates (map EvUpdate l) = l) as Hup.
  { induction l as [|x l IH]; [done|]. simpl. by rewrite IH. }
  change (?x :: ?l) with ([x] ++ l). rewrite !updates_app.
  destruct (result (update_each P determinedArticles)) as [e|[]].
  - destruct Hs as (pre & a & post & Hd & Hpre & Ha & Ht).
    exists pre, a, post. rewrite Ht, Hup. simpl. by rewrite !app_nil_r.
  - destruct Hs as [Ht Hall]. rewrite Ht, Hup. simpl.
    by rewrite !app_nil_r.
Qed.

Lemma update_each_ok articles :
  Forall (fun a => provider_update P a = inr tt) articles ->
  update_each P articles = (inr tt, map EvUpdate articles).
Proof.
  induction 1 as [|a rest Ha _ IH]; [done|]. cbn [update_each].
  unfold call. rewrite Ha. cbn [bind]. by rewrite IH.
Qed.

Lemma update_each_fail pre a post e :
  Forall (fun a => provider_update P a = inr tt) pre ->
  provider_update P a = inl e ->
  update_each P (pre ++ a :: post) = (inl e, map EvUpdate (pre ++ [a])).
Proof.
  intros Hpre Ha. induction Hpre as [|b pre Hb _ IH]; cbn [update_each app].
  - unfold call. by rewrite Ha.
  - unfold call. rewrite Hb. cbn [bind]. by rewrite IH.
Qed.

Lemma updates_map_EvUpdate l : updates (map EvUpdate l) = l.
Proof. induction l as [|x l IH]; [done|]. simpl. by rewrite IH. Qed.

(** X22.  [updateAnalysisContext] calls [provider.update] for the
    articles in their order, one at a time.  When every call returns, it
    returns the number of articles; when a call throws, it throws the
    same error and the articles behind that one are not updated. *)
Theorem updateAnalysisContext_in_order determinedArticles :
  (Forall (fun a => provider_update P a = inr tt) determinedArticles ->
   result (updateAnalysisContext P determinedArticles)
   = inr (length determinedArticles) /\
   updates (trace (updateAnalysisContext P determinedArticles))
   = determinedArticles) /\
  (forall pre a post e,
     determinedArticles = pre ++ a :: post ->
     Forall (fun a => provider_update P a = inr tt) pre ->
     provider_update P a = inl e ->
     result (updateAnalysisContext P determinedArticles) = inl e /\
     updates (trace (updateAnalysisContext P determinedArticles))
     = pre ++ [a]).
Proof.
  unfold updateAnalysisContext. split.
  - intros Hall. rewrite executeWithLogging_eq, (update_each_ok _ Hall).
    cbn [bind ret result trace fst snd]. split; [done|].
    change (?x :: ?l) with ([x] ++ l).
    rewrite !updates_app, updates_map_EvUpdate. simpl.
    by rewrite !app_nil_r.
  - intros pre a post e -> Hpre Ha.
    rewrite executeWithLogging_eq, (update_each_fail _ _ _ _ Hpre Ha).
    cbn [bind ret result trace fst snd]. split; [done|].
    change (?x :: ?l) with ([x] ++ l).
    rewrite !updates_app, updates_map_EvUpdate. simpl.
    by rewrite !app_nil_r.
Qed.

(** The insights of a batch always come back, for the articles of the
    batch and each with a score. *)
Lemma generateInsights_returns unscoredArticles tags :
  exists out evs,
    generateInsights unscoredArticles (classifyTags P) (analyzeImages P)
      (generateScore P) tags = (inr out, evs) /\
    Forall scored out /\ map id out = map id unscoredArticles.
Proof.
  unfold generateInsights.
  destruct (chain_invoke_returns unscoredArticles (classifyTags P)
              (analyzeImages P) (generateScore P) 0 tags)
    as (initial & tags' & evs & Hc & _ & Hs & Hid).
  rewrite Hc. cbn [bind fst snd].
  destruct (reprocess_returns unscoredArticles (classifyTags P)
              (analyzeImages P) (generateScore P) initial 0 tags' Hs Hid)
    as (out & evs' & Hl & Hso & Hido & _).
  rewrite Hl. eexists _, _. split; [reflexivity|]. done.
Qed.

Lemma updates_logged {A} event level (fn : M Analysis.event A) :
  updates (trace (executeWithLogging event level fn)) = updates (trace fn).
Proof.
  rewrite trace_executeWithLogging.
  change (?x :: ?l) with ([x] ++ l). rewrite !updates_app.
  destruct (result fn); simpl; by rewrite app_nil_r.
Qed.

(** What a run returns and updates, once the batch and the tags are
    fetched. *)
Lemma chain_run_fetched unscoredArticles tags out evs :
  provider_fetchUnscoredArticles P = inr unscoredArticles ->
  provider_fetchTags P = inr tags ->
  generateInsights unscoredArticles (classifyTags P) (analyzeImages P)
    (generateScore P) tags = (inr out, evs) ->
  result (chain_run P) = result (updateAnalysisContext P out) /\
  updates (trace (chain_run P))
  = updates (trace (updateAnalysisContext P out)).
Proof.
  intros Hu Ht Hg. unfold chain_run.
  assert (exists t, assign2 (fetchUnscoredArticles P) (fetchTags P)
                    = (inr (unscoredArticles, tags), t) /\ updates t = [])
    as (t & -> & Hts).
  { unfold assign2, fetchUnscoredArticles, fetchTags.
    rewrite !executeWithLogging_eq. unfold call. cbn [result trace fst snd].
    rewrite Hu, Ht. eexists. split; [reflexivity|]. done. }
  assert (exists t, analyzeArticles P unscoredArticles tags = (inr out, t)
                    /\ updates t = []) as (t' & Ha & Hts').
  { unfold analyzeArticles. rewrite executeWithLogging_eq, Hg.
    unfold lift. cbn [result trace fst snd]. eexists. split; [reflexivity|].
    change (?x :: ?l) with ([x] ++ l). rewrite !updates_app.
    by rewrite updates_insights. }
  cbn [bind fst snd]. rewrite Ha. cbn [bind fst snd].
  destruct (updateAnalysisContext P out) as [r tu].
  unfold result, trace. simpl. split; [done|].
  by rewrite !updates_app, Hts, Hts'.
Qed.

(** A run of the steps that returns has fetched a batch, analysed it and
    updated each of its articles. *)
Lemma chain_run_spec n :
  result (chain_run P) = inr n ->
  exists unscoredArticles,
    provider_fetchUnscoredArticles P = inr unscoredArticles /\
    n = length unscoredArticles /\
    map id (updates (trace (chain_run P))) = map id unscoredArticles /\
    Forall scored (updates (trace (chain_run P))) /\
    Forall (fun a => provider_update P a = inr tt)
           (updates (trace (chain_run P))).
Proof.
  intros Hr.
  destruct (provider_fetchUnscoredArticles P) as [e|unscored] eqn:Hu.
  { exfalso. revert Hr. unfold chain_run. rewrite result_bind.
    unfold assign2, fetchUnscoredArticles, fetchTags.
    rewrite !executeWithLogging_eq. unfold call. cbn [result trace fst snd].
    by rewrite Hu. }
  destruct (provider_fetchTags P) as [e|tags] eqn:Ht.
  { exfalso. revert Hr. unfold chain_run. rewrite result_bind.
    unfold assign2, fetchUnscoredArticles, fetchTags.
    rewrite !executeWithLogging_eq. unfold call. cbn [result trace fst snd].
    by rewrite Hu, Ht. }
  destruct (generateInsights_returns unscored tags)
    as (out & evs & Hg & Hs & Hid).
  destruct (chain_run_fetched unscored tags out evs Hu Ht Hg) as [Hres Hupd].
  pose proof (updateAnalysisContext_spec out) as Hspec.
  rewrite <- Hres, Hr in Hspec. destruct Hspec as (-> & Hout & Hall).
  rewrite Hupd, Hout. exists unscored. split; [done|].
  split; [|done].
  by rewrite <- (length_map id out), Hid, length_map.
Qed.

End Chain.

Lemma retry_returns {A} (f : nat -> M event A) r a x :
  result (retry r a f) = inr x ->
  exists k, (a <= k <= a + r)%nat /\ result (f k) = inr x /\
    (forall j, (a <= j < k)%nat -> exists e, result (f j) = inl e) /\
    exists pre, trace (retry r a f) = pre ++ trace (f k).
Proof.
  revert a. induction r as [|r IH]; intros a; simpl.
  - intros Hr. exists a. split; [lia|]. split; [done|].
    split; [intros j Hj; lia|]. by exists [].
  - destruct (f a) as [[e|y] t] eqn:Hf; simpl.
    + destruct (retry r (S a) f) as [r' t'] eqn:Hrt. simpl. intros ->.
      destruct (IH (S a)) as (k & Hk & Hx & Hfail & pre & Ht);
        [by rewrite Hrt|].
      exists k. split; [lia|]. split; [done|]. split.
      * intros j Hj. destruct (decide (j = a)) as [->|Hne].
        -- rewrite Hf. eauto.
        -- apply Hfail. lia.
      * exists (t ++ pre). rewrite Hrt in Ht. simpl in Ht.
        by rewrite Ht, app_assoc.
    + intros [= ->]. exists a. split; [lia|]. rewrite Hf.
      split; [done|]. split; [intros j Hj; lia|]. by exists [].
Qed.

(** X23.  The [processedCount] of the analysis chain is the size of the
    batch of unscored articles that its last attempt fetched; that attempt
    has updated every article of the batch, each with a score of at least
    1, and every earlier attempt threw. *)
Theorem chain_counts_analysed env stopAfterAttempt n :
  result (chain env stopAfterAttempt) = inr n ->
  exists k unscoredArticles,
    (1 <= k <= Nat.max 1 stopAfterAttempt)%nat /\
    (forall j, (1 <= j < k)%nat ->
       exists e, result (chain_run (env j)) = inl e) /\
    provider_fetchUnscoredArticles (env k) = inr unscoredArticles /\
    n = length unscoredArticles /\
    map id (updates (trace (chain_run (env k)))) = map id unscoredArticles /\
    Forall scored (updates (trace (chain_run (env k)))) /\
    Forall (fun a => provider_update (env k) a = inr tt)
           (updates (trace (chain_run (env k)))).
Proof.
  unfold chain. intros Hr.
  destruct (retry_returns _ _ _ _ Hr) as (k & Hk & Hx & Hfail & _).
  destruct (chain_run_spec (env k) n Hx) as (unscored & H1 & H2 & H3 & H4 & H5).
  exists k, unscored. split; [lia|]. done.
Qed.

Lemma chain_counts_analysed_witness :
  exists k unscoredArticles,
    (1 <= k <= 3)%nat /\
    provider_fetchUnscoredArticles
      (demo_provider (match k with 1 => Some (IdNum 2) | _ => None end))
    = inr unscoredArticles /\
    2%nat = length unscoredArticles.
Proof.
  destruct (chain_counts_analysed
              (fun k => demo_provider
                          (match k with 1 => Some (IdNum 2) | _ => None end))
              3 2) as (k & unscored & Hk & _ & Hf & Hn & _).
  - vm_compute. reflexivity.
  - exists k, unscored. split; [exact Hk|]. split; [exact Hf|exact Hn].
Defined.

End AnalysisProofs.

(** ** Properties of the content generation chain *)
Module ContentGenerateProofs.
Import ContentGenerate.

Lemma generations_app t1 t2 :
  generations (t1 ++ t2) = (generations t1 + generations t2)%nat.
Proof. unfold generations. by rewrite List.filter_app, length_app. Qed.

Lemma newsletter_saves_app t1 t2 :
  saves (t1 ++ t2) = (saves t1 + saves t2)%nat.
Proof. unfold saves. by rewrite List.filter_app, length_app. Qed.

Section Chain.
Variable P : provider.

Lemma existsb_priority candidateArticles :
  existsb (fun a => Qle_bool (priorityArticleScoreThreshold P)
                             (importanceScore a)) candidateArticles = true
  <-> Exists (fun a => (priorityArticleScoreThreshold P
                        <= importanceScore a)%Q) candidateArticles.
Proof.
  rewrite existsb_exists, Exists_exists. split.
  - intros (a & Hin & Ha). exists a. split; [by apply list_elem_of_In|].
    by apply Qle_bool_iff.
  - intros (a & Hin & Ha). exists a. split; [by apply list_elem_of_In|].
    by apply Qle_bool_iff.
Qed.

(** The test of [generateCoreContent], read as the publication criteria. *)
Lemma criteria_test candidateArticles :
  publishable P candidateArticles <->
  (length candidateArticles =? 0)%nat = false /\
  Qle_bool (inject_Z (Z.of_nat (length candidateArticles)))
           (minimumArticleCountForIssue P)
  && negb (existsb (fun a => Qle_bool (priorityArticleScoreThreshold P)
                                      (importanceScore a))
                   candidateArticles) = false.
Proof.
  unfold publishable. rewrite Nat.eqb_neq, andb_false_iff, negb_false_iff.
  rewrite existsb_priority.
  assert (candidateArticles <> [] <-> length candidateArticles <> 0%nat) as ->.
  { destruct candidateArticles; simpl; split; intros H; try done. }
  assert (Qle_bool (inject_Z (Z.of_nat (length candidateArticles)))
                   (minimumArticleCountForIssue P) = false
          <-> (minimumArticleCountForIssue P
               < inject_Z (Z.of_nat (length candidateArticles)))%Q) as ->; [|done].
  split.
  - intros Hb. destruct (Qlt_le_dec (minimumArticleCountForIssue P)
                           (inject_Z (Z.of_nat (length candidateArticles))))
      as [Hlt|Hle]; [done|].
    apply Qle_bool_iff in Hle. congruence.
  - intros Hlt. destruct (Qle_bool _ _) eqn:Hb; [|done].
    apply Qle_bool_iff in Hb. lra.
Qed.

Lemma generateCoreContent_published candidateArticles :
  publishable P candidateArticles ->
  generateCoreContent P candidateArticles
  = executeWithLogging "generate.content.core.generate" "info"
      (let* generated :=
         call (EvGenerate candidateArticles)
              (generateNewsletter_execute P candidateArticles) in
       ret (Some generated)).
Proof.
  intros Hp. apply criteria_test in Hp as [H0 Hc].
  unfold generateCoreContent. by rewrite H0, Hc.
Qed.

Lemma generateCoreContent_skipped candidateArticles :
  ~ publishable P candidateArticles ->
  result (generateCoreContent P candidateArticles) = inr None /\
  generations (trace (generateCoreContent P candidateArticles)) = 0%nat.
Proof.
  intros Hp. rewrite criteria_test in Hp.
  unfold generateCoreContent.
  rewrite result_executeWithLogging, trace_executeWithLogging.
  destruct (length candidateArticles =? 0)%nat; [done|].
  destruct (_ && _); [done|]. by destruct Hp.
Qed.

(** X24.  [generateCoreContent] asks the model for a newsletter exactly
    when the publication criteria are met: there are candidates, and they
    are more than the minimum count or one of them reaches the priority
    score.  Otherwise it returns [null] without a model call; a batch of
    exactly the minimum count is not enough. *)
Theorem generateCoreContent_criteria candidateArticles :
  (publishable P candidateArticles ->
   generations (trace (generateCoreContent P candidateArticles)) = 1%nat /\
   EvGenerate candidateArticles
   ∈ trace (generateCoreContent P candidateArticles) /\
   result (generateCoreContent P candidateArticles)
   = match generateNewsletter_execute P candidateArticles with
     | inl e => inl e
     | inr c => inr (Some c)
     end) /\
  (~ publishable P candidateArticles ->
   result (generateCoreContent P candidateArticles) = inr None /\
   generations (trace (generateCoreContent P candidateArticles)) = 0%nat) /\
  ((inject_Z (Z.of_nat (length candidateArticles))
    == minimumArticleCountForIssue P)%Q ->
   Forall (fun a => (importanceScore a < priorityArticleScoreThreshold P)%Q)
          candidateArticles ->
   result (generateCoreContent P candidateArticles) = inr None).
Proof.
  split; [|split].
  - intros Hp. rewrite (generateCoreContent_published _ Hp).
    rewrite result_executeWithLogging, trace_executeWithLogging.
    rewrite result_bind, trace_bind. unfold call. cbn [result trace fst snd].
    destruct (generateNewsletter_execute P candidateArticles) as [e|c];
      (split; [done|]); (split; [|done]); right; left.
  - apply generateCoreContent_skipped.
  - intros Hlen Hall. apply generateCoreContent_skipped.
    intros [_ [Hlt|Hex]]; [lra|].
    apply Exists_exists in Hex as (a & Hin & Ha).
    rewrite Forall_forall in Hall. specialize (Hall a Hin). lra.
Qed.








End Chain.

Lemma generateCoreContent_criteria_witness :
  result (generateCoreContent (demo_provider (demo_candidates 5 3))
            (demo_candidates 5 3)) = inr None /\
  generations (trace (generateCoreContent (demo_provider (demo_candidates 6 3))
                        (demo_candidates 6 3))) = 1%nat.
Proof.
  split.
  - apply (generateCoreContent_criteria (demo_provider (demo_candidates 5 3))).
    + reflexivity.
    + repeat constructor.
  - apply (generateCoreContent_criteria (demo_provider (demo_candidates 6 3))).
    split; [done|]. left. reflexivity.
Defined.

End ContentGenerateProofs.

(** ** Properties of the newsletter query *)
Module GenerateNewsletterQueryProofs.
Import ContentGenerate GenerateNewsletterQuery.

Section Execute.
Variable generateObject : nat -> jsvalue + generated.

Lemma execute_step fuel n object :
  generateObject n = inr object ->
  execute generateObject (S fuel) n
  = if verified object
    then Some (inr (pick object), [EvGenerateObject n])
    else match execute generateObject fuel (S n) with
         | Some (r, t) => Some (r, EvGenerateObject n :: t)
         | None => None
         end.
Proof.
  intros Hn. simpl. rewrite Hn. unfold verified.
  by destruct (isWrittenInOutputLanguage object),
       (copyrightVerified object), (factAccuracy object).
Qed.

(** The calls of a run that settles with call number [n + d], after [d]
    answers that failed a check. *)
Lemma execute_settles_at fuel n d :
  (forall j, (n <= j < n + d)%nat ->
     exists o, generateObject j = inr o /\ verified o = false) ->
  (d < fuel)%nat ->
  execute generateObject fuel n
  = match generateObject (n + d) with
    | inl e =>
        Some (inl e, map EvGenerateObject (seq n (S d)))
    | inr object =>
        if verified object
        then Some (inr (pick object), map EvGenerateObject (seq n (S d)))
        else match execute generateObject (fuel - S d) (S (n + d)) with
             | Some (r, t) =>
                 Some (r, map EvGenerateObject (seq n (S d)) ++ t)
             | None => None
             end
    end.
Proof.
  revert fuel n. induction d as [|d IH]; intros fuel n Hfail Hfuel.
  - destruct fuel as [|fuel]; [lia|]. rewrite Nat.add_0_r.
    destruct (generateObject n) as [e|object] eqn:Hn.
    + simpl. by rewrite Hn.
    + rewrite (execute_step _ _ _ Hn). simpl. by rewrite Nat.sub_0_r.
  - destruct fuel as [|fuel]; [lia|].
    destruct (Hfail n) as (o & Ho & Hv); [lia|].
    rewrite (execute_step _ _ _ Ho), Hv.
    rewrite (IH fuel (S n)); [|intros j Hj; apply Hfail; lia|lia].
    replace (S n + d)%nat with (n + S d)%nat by lia.
    destruct (generateObject (n + S d)) as [e|object]; [done|].
    destruct (verified object); [done|].
    replace (S fuel - S (S d))%nat with (fuel - S d)%nat by lia.
    by destruct (execute _ _ _) as [[r t]|].
Qed.

(** X26.  [execute] asks the model again until an answer passes the
    three checks.  When call number [k] is the first to pass, a run with
    enough fuel makes exactly [k] calls and returns the title and content
    of that answer; when call number [k] throws first, the run throws the
    same error after [k] calls; what a run returns always comes from an
    answer that passed; and when no answer ever passes, the run does not
    settle, whatever the fuel. *)
Theorem execute_until_verified :
  (forall k object fuel,
     (forall j, (1 <= j < k)%nat ->
        exists o, generateObject j = inr o /\ verified o = false) ->
     generateObject k = inr object -> verified object = true ->
     (1 <= k <= fuel)%nat ->
     execute generateObject fuel 1
     = Some (inr (pick object), map EvGenerateObject (seq 1 k))) /\
  (forall k e fuel,
     (forall j, (1 <= j < k)%nat ->
        exists o, generateObject j = inr o /\ verified o = false) ->
     generateObject k = inl e -> (1 <= k <= fuel)%nat ->
     execute generateObject fuel 1
     = Some (inl e, map EvGenerateObject (seq 1 k))) /\
  (forall fuel n c t,
     execute generateObject fuel n = Some (inr c, t) ->
     exists k object,
       generateObject k = inr object /\ verified object = true /\
       c = pick object) /\
  ((forall j, exists o, generateObject j = inr o /\ verified o = false) ->
   forall fuel n, execute generateObject fuel n = None).
Proof.
  split; [|split; [|split]].
  - intros k object fuel Hfail Hk Hv Hfuel.
    destruct k as [|d]; [lia|].
    rewrite (execute_settles_at fuel 1 d); [|intros j Hj; apply Hfail; lia|lia].
    change (1 + d)%nat with (S d). by rewrite Hk, Hv.
  - intros k e fuel Hfail Hk Hfuel.
    destruct k as [|d]; [lia|].
    rewrite (execute_settles_at fuel 1 d); [|intros j Hj; apply Hfail; lia|lia].
    change (1 + d)%nat with (S d). by rewrite Hk.
  - induction fuel as [|fuel IH]; intros n c t; [done|].
    destruct (generateObject n) as [e|object] eqn:Hn.
    + simpl. rewrite Hn. done.
    + rewrite (execute_step _ _ _ Hn).
      destruct (verified object) eqn:Hv.
      * intros [= <- _]. by exists n, object.
      * destruct (execute generateObject fuel (S n)) as [[r t']|] eqn:Hx;
          [|done].
        intros [= -> _]. by apply (IH (S n) c t').
  - intros Hnever. induction fuel as [|fuel IH]; intros n; [done|].
    destruct (Hnever n) as (o & Ho & Hv).
    by rewrite (execute_step _ _ _ Ho), Hv, IH.
Qed.

End Execute.

Lemma execute_until_verified_witness :
  execute demo_generateObject 5 1
  = Some (inr {| title := "Title"; content := "Body" |},
          [EvGenerateObject 1; EvGenerateObject 2; EvGenerateObject 3]).
Proof.
  destruct (execute_until_verified demo_generateObject) as (H & _).
  apply (H 3%nat {| object_title := "Title"; object_content := "Body";
                    isWrittenInOutputLanguage := true;
                    copyrightVerified := true; factAccuracy := true |}).
  - intros j Hj. eexists. split; [reflexivity|].
    destruct j as [|[|[|j]]]; try lia; reflexivity.
  - reflexivity.
  - reflexivity.
  - lia.
Defined.

End GenerateNewsletterQueryProofs.
